(** * Turn-based games and minimax search: a shallow embedding

    The development follows the Python sources:
    - [games/base_game.py]      (class [Game]: the session object and [move])
    - [games/halving_game.py], [games/tictactoe_game.py],
      [games/nim_game.py], [games/connectfour_game.py]
    - [agents/minimax_agent.py] (class [MinimaxAgent])
    - [agents/human_agent.py]   (class [HumanAgent])
    - [main.py]                 (the sessions of the web application)

    Python integers are modelled by [Z]; lists by [list]; a numpy 2-d array
    by a list of rows; [math.inf] and [-math.inf] by the two extra points of
    [value]; an exception by the [Raise] constructor of [result]. *)

From Stdlib Require Import ZArith List Bool Lia Arith PeanoNat.
From Stdlib Require Strings.String.
Import ListNotations String.StringSyntax.
Delimit Scope string_scope with string.
Local Open Scope Z_scope.

(* ================================================================== *)
(** * Part I. Definitions                                              *)
(* ================================================================== *)

(** ** Exceptions and results *)

Inductive exn : Type :=
| ValueError
| IndexError
| TypeError.

Inductive result (A : Type) : Type :=
| Ok (a : A)
| Raise (e : exn).
Arguments Ok {A} a.
Arguments Raise {A} e.

Definition bind {A B : Type} (r : result A) (k : A -> result B) : result B :=
  match r with
  | Ok a => k a
  | Raise e => Raise e
  end.

Notation "x <- r ;; k" := (bind r (fun x => k))
  (at level 61, r at next level, right associativity).

(** ** Search values: Python numbers extended with [-math.inf], [math.inf] *)

Inductive value : Type :=
| NegInf
| Fin (z : Z)
| PosInf.

(** [a <= b] on Python numbers. *)
Definition vle (a b : value) : bool :=
  match a, b with
  | NegInf, _ => true
  | _, PosInf => true
  | Fin x, Fin y => x <=? y
  | _, _ => false
  end.

(** [a < b]. *)
Definition vlt (a b : value) : bool := negb (vle b a).

(** Python's [max(a, b)]: [b] is taken only when [b > a]. *)
Definition vmax (a b : value) : value := if vlt a b then b else a.

(** Python's [min(a, b)]: [b] is taken only when [b < a]. *)
Definition vmin (a b : value) : value := if vlt b a then b else a.

Definition veqb (a b : value) : bool := vle a b && vle b a.

(** ** base_game.py: the abstract class [Game] *)

(** The abstract methods of [Game], for one variant.  [action_eqb] is the
    [==] that Python's [in] uses on actions. *)
Record Game (State Action : Type) : Type := {
  initial_state : State;
  actions : State -> list Action;
  next : State -> Action -> result State;
  is_terminal : State -> bool;
  utility : State -> Z -> Z;
  player : State -> Z;
  action_eqb : Action -> Action -> bool
}.
Arguments initial_state {State Action} _.
Arguments actions {State Action} _ _.
Arguments next {State Action} _ _ _.
Arguments is_terminal {State Action} _ _.
Arguments utility {State Action} _ _ _.
Arguments player {State Action} _ _.
Arguments action_eqb {State Action} _ _ _.

(** The mutable fields of a [Game] object. *)
Record Session (State : Type) : Type := {
  state : State;
  current_player : Z
}.
Arguments state {State} _.
Arguments current_player {State} _.

Section BaseGame.
Context {State Action : Type} (G : Game State Action).

(** [Game.initial_player]. *)
Definition initial_player : Z := 1.

(** [Game.__init__]. *)
Definition new_game : Session State :=
  {| state := initial_state G; current_player := initial_player |}.

(** [action in self.actions(self.state)]. *)
Definition action_in (a : Action) (l : list Action) : bool :=
  existsb (action_eqb G a) l.

(** [Game.move]: the object after the call, and what the call returned
    or raised. *)
Definition move (self : Session State) (action : Action)
  : Session State * result State :=
  if negb (action_in action (actions G (state self))) then
    (self, Raise ValueError)
  else
    match next G (state self) action with
    | Raise e => (self, Raise e)
    | Ok s' =>
        ({| state := s'; current_player := player G s' |}, Ok s')
    end.

(** [Game.is_game_over]. *)
Definition is_game_over (self : Session State) : bool :=
  is_terminal G (state self).

(** [Game.get_winner]: [None] while the game runs, else [1], [-1], or [0]
    for a draw. *)
Definition get_winner (self : Session State) : option Z :=
  if negb (is_game_over self) then None
  else if 0 <? utility G (state self) 1 then Some 1
  else if 0 <? utility G (state self) (-1) then Some (-1)
  else Some 0.

(** [Game.copy]: [deepcopy] of an object whose fields are immutable
    values here. *)
Definition copy (self : Session State) : Session State := self.

(** States reached from the initial state through legal actions. *)
Inductive reachable : State -> Prop :=
| reach_init : reachable (initial_state G)
| reach_step s a s' :
    reachable s -> In a (actions G s) -> next G s a = Ok s' ->
    reachable s'.

(** [play g acts]: apply [move] for each action in turn; stops at the
    first call that raises. *)
Fixpoint play (self : Session State) (acts : list Action)
  : Session State * result unit :=
  match acts with
  | [] => (self, Ok tt)
  | a :: rest =>
      match move self a with
      | (self', Ok _) => play self' rest
      | (self', Raise e) => (self', Raise e)
      end
  end.

(** The loop of a driver: at most [n] times, stop when the game is over,
    else apply the action that [pick] supplies. *)
Fixpoint drive (pick : Session State -> Action) (n : nat)
    (self : Session State) : Session State :=
  match n with
  | O => self
  | S n' =>
      if is_game_over self then self
      else drive pick n' (fst (move self (pick self)))
  end.
End BaseGame.

(** ** minimax_agent.py: class [MinimaxAgent] *)

Record MinimaxAgent : Type := {
  player_id : Z;
  max_depth : option Z
}.

(** [self.max_depth and depth >= self.max_depth]: [None] and [0] are both
    falsy in Python. *)
Definition depth_cutoff (self : MinimaxAgent) (depth : Z) : bool :=
  match max_depth self with
  | None => false
  | Some d => if d =? 0 then false else d <=? depth
  end.

Section Minimax.
Context {State Action : Type} (G : Game State Action) (self : MinimaxAgent).

(** The [for] loop of the maximizing branch of [_minimax]; [rec] is the
    recursive call at [depth + 1].  [None] means that the recursion
    budget of the model is exhausted. *)
Fixpoint max_loop (rec : Session State -> value -> value -> option (result value))
    (game : Session State) (acts : list Action)
    (max_eval alpha beta : value) : option (result value) :=
  match acts with
  | [] => Some (Ok max_eval)
  | action :: rest =>
      match move G (copy game) action with
      | (_, Raise e) => Some (Raise e)
      | (game_copy, Ok _) =>
          match rec game_copy alpha beta with
          | Some (Ok eval_score) =>
              let max_eval := vmax max_eval eval_score in
              let alpha := vmax alpha eval_score in
              if vle beta alpha then Some (Ok max_eval)
              else max_loop rec game rest max_eval alpha beta
          | other => other
          end
      end
  end.

(** The [for] loop of the minimizing branch. *)
Fixpoint min_loop (rec : Session State -> value -> value -> option (result value))
    (game : Session State) (acts : list Action)
    (min_eval alpha beta : value) : option (result value) :=
  match acts with
  | [] => Some (Ok min_eval)
  | action :: rest =>
      match move G (copy game) action with
      | (_, Raise e) => Some (Raise e)
      | (game_copy, Ok _) =>
          match rec game_copy alpha beta with
          | Some (Ok eval_score) =>
              let min_eval := vmin min_eval eval_score in
              let beta := vmin beta eval_score in
              if vle beta alpha then Some (Ok min_eval)
              else min_loop rec game rest min_eval alpha beta
          | other => other
          end
      end
  end.

(** [MinimaxAgent._minimax]. *)
Fixpoint _minimax (fuel : nat) (game : Session State) (depth : Z)
    (maximizing_player : bool) (alpha beta : value)
  : option (result value) :=
  if is_game_over G game || depth_cutoff self depth then
    Some (Ok (Fin (utility G (state game) (player_id self))))
  else
    match fuel with
    | O => None
    | S fuel' =>
        if maximizing_player then
          max_loop (fun g a b => _minimax fuel' g (depth + 1) false a b)
                   game (actions G (state game)) NegInf alpha beta
        else
          min_loop (fun g a b => _minimax fuel' g (depth + 1) true a b)
                   game (actions G (state game)) PosInf alpha beta
    end.

(** The [for] loop of [choose_action]; [search] is the call of
    [_minimax] on the copy. *)
Fixpoint best_loop (search : Session State -> option (result value))
    (game : Session State) (acts : list Action)
    (best_action : option Action) (best_value : value)
  : option (result (option Action)) :=
  match acts with
  | [] => Some (Ok best_action)
  | action :: rest =>
      match move G (copy game) action with
      | (_, Raise e) => Some (Raise e)
      | (game_copy, Ok _) =>
          match search game_copy with
          | Some (Ok v) =>
              if vlt best_value v then best_loop search game rest (Some action) v
              else best_loop search game rest best_action best_value
          | Some (Raise e) => Some (Raise e)
          | None => None
          end
      end
  end.

(** [MinimaxAgent.choose_action], with the search call abstracted. *)
Definition choose_action_with (search : Session State -> option (result value))
    (game : Session State) : option (result (option Action)) :=
  match actions G (state game) with
  | [] => Some (Ok None)
  | [action] => Some (Ok (Some action))
  | acts => best_loop search game acts None NegInf
  end.

(** [MinimaxAgent.choose_action].  The two [print] calls are left out:
    they do not change what is returned. *)
Definition choose_action (fuel : nat) (game : Session State)
  : option (result (option Action)) :=
  choose_action_with (fun g => _minimax fuel g 0 false NegInf PosInf) game.

(** *** Reference: plain minimax on states, without pruning *)

Fixpoint fold_children (rec : State -> option (result value))
    (pick : value -> value -> value) (s : State) (acts : list Action)
    (acc : value) : option (result value) :=
  match acts with
  | [] => Some (Ok acc)
  | a :: rest =>
      match next G s a with
      | Raise e => Some (Raise e)
      | Ok s' =>
          match rec s' with
          | Some (Ok v) => fold_children rec pick s rest (pick acc v)
          | other => other
          end
      end
  end.

(** The minimax value of [s] at ply [depth]: the utility at a terminal
    state or at the depth bound, else the largest (smallest) value of a
    successor. *)
Fixpoint minimax_value (fuel : nat) (s : State) (depth : Z)
    (maximizing : bool) : option (result value) :=
  if is_terminal G s || depth_cutoff self depth then
    Some (Ok (Fin (utility G s (player_id self))))
  else
    match fuel with
    | O => None
    | S fuel' =>
        if maximizing then
          fold_children (fun s' => minimax_value fuel' s' (depth + 1) false)
                        vmax s (actions G s) NegInf
        else
          fold_children (fun s' => minimax_value fuel' s' (depth + 1) true)
                        vmin s (actions G s) PosInf
    end.

(** The value of each action of [acts] from [s]: the minimax value of its
    successor, where the opponent moves. *)
Fixpoint action_values (fuel : nat) (s : State) (acts : list Action)
  : option (result (list (Action * value))) :=
  match acts with
  | [] => Some (Ok [])
  | a :: rest =>
      match next G s a with
      | Raise e => Some (Raise e)
      | Ok s' =>
          match minimax_value fuel s' 0 false with
          | Some (Ok v) =>
              match action_values fuel s rest with
              | Some (Ok l) => Some (Ok ((a, v) :: l))
              | other => other
              end
          | Some (Raise e) => Some (Raise e)
          | None => None
          end
      end
  end.

(** The first action, in the order of the list, whose value is the
    largest of the list. *)
Definition first_optimal (avs : list (Action * value)) : option Action :=
  let best := fold_right vmax NegInf (map snd avs) in
  option_map fst (find (fun av => veqb (snd av) best) avs).

(** The move of plain minimax at [s]. *)
Definition unpruned_choice (fuel : nat) (s : State)
  : option (result (option Action)) :=
  match action_values fuel s (actions G s) with
  | Some (Ok avs) => Some (Ok (first_optimal avs))
  | Some (Raise e) => Some (Raise e)
  | None => None
  end.
End Minimax.

(** *** Reference: the value of a state when play goes on to the end

    The value of [s] for player [pid] when both sides play on until a
    terminal state: the utility at a terminal state, else the largest
    (smallest) value of a successor.  No depth bound appears. *)
Fixpoint full_value {State Action : Type} (G : Game State Action) (pid : Z)
    (fuel : nat) (s : State) (maximizing : bool) : option (result value) :=
  if is_terminal G s then Some (Ok (Fin (utility G s pid)))
  else
    match fuel with
    | O => None
    | S fuel' =>
        if maximizing then
          fold_children G (fun s' => full_value G pid fuel' s' false)
                        vmax s (actions G s) NegInf
        else
          fold_children G (fun s' => full_value G pid fuel' s' true)
                        vmin s (actions G s) PosInf
    end.

(** ** The numpy operations used by the games *)

Module np.
Definition zsum (l : list Z) : Z := fold_right Z.add 0 l.

(** [np.zeros((n, m), dtype=int)]. *)
Definition zeros (n m : nat) : list (list Z) := repeat (repeat 0 m) n.

(** Index normalisation of [a[i]] on an axis of length [len]: negative
    indices count from the end, anything else outside raises. *)
Definition index (len : nat) (i : Z) : result nat :=
  if (0 <=? i) && (i <? Z.of_nat len) then Ok (Z.to_nat i)
  else if (- Z.of_nat len <=? i) && (i <? 0) then Ok (Z.to_nat (i + Z.of_nat len))
  else Raise IndexError.

Fixpoint list_set {A : Type} (l : list A) (i : nat) (v : A) : list A :=
  match l, i with
  | [], _ => []
  | _ :: t, O => v :: t
  | h :: t, S j => h :: list_set t j v
  end.

(** The cell at row [r], column [c], for indices already in range. *)
Definition cell (b : list (list Z)) (r c : nat) : Z := nth c (nth r b []) 0.

Definition set_cell (b : list (list Z)) (r c : nat) (v : Z) : list (list Z) :=
  list_set b r (list_set (nth r b []) c v).

(** [board[row][col]]. *)
Definition getitem2 (b : list (list Z)) (row col : Z) : result Z :=
  r <- index (length b) row ;;
  c <- index (length (nth r b [])) col ;;
  Ok (cell b r c).

(** [board[row][col] = v], on a copy. *)
Definition setitem2 (b : list (list Z)) (row col : Z) (v : Z)
  : result (list (list Z)) :=
  r <- index (length b) row ;;
  c <- index (length (nth r b [])) col ;;
  Ok (set_cell b r c v).

(** [board.sum(axis=1)]. *)
Definition sum_axis1 (b : list (list Z)) : list Z := map zsum b.

(** [board[:, c]]. *)
Definition column (b : list (list Z)) (c : nat) : list Z :=
  map (fun row => nth c row 0) b.

Definition ncols (b : list (list Z)) : nat := length (hd [] b).

(** [board.sum(axis=0)]. *)
Definition sum_axis0 (b : list (list Z)) : list Z :=
  map (fun c => zsum (column b c)) (seq 0 (ncols b)).

(** [np.trace(board)]. *)
Definition trace (b : list (list Z)) : Z :=
  zsum (map (fun i => cell b i i) (seq 0 (Nat.min (length b) (ncols b)))).

(** [np.fliplr(board)]. *)
Definition fliplr (b : list (list Z)) : list (list Z) := map (@rev Z) b.

(** [np.where(a == 0)[0]] for a 1-d array whose first index is [i]. *)
Fixpoint where_zero_from (i : nat) (a : list Z) : list nat :=
  match a with
  | [] => []
  | x :: t => (if x =? 0 then [i] else []) ++ where_zero_from (S i) t
  end.
Definition where_zero (a : list Z) : list nat := where_zero_from 0 a.

(** [np.argwhere(board == 0)], in row-major order. *)
Fixpoint argwhere_zero_from (r : nat) (b : list (list Z)) : list (nat * nat) :=
  match b with
  | [] => []
  | row :: t => map (fun c => (r, c)) (where_zero row) ++ argwhere_zero_from (S r) t
  end.
Definition argwhere_zero (b : list (list Z)) : list (nat * nat) :=
  argwhere_zero_from 0 b.

(** [np.any(board == 0)]. *)
Definition any_zero (b : list (list Z)) : bool :=
  existsb (existsb (Z.eqb 0)) b.

(** [board[r0:r0+h, c0:c0+w]]. *)
Definition window (b : list (list Z)) (r0 c0 h w : nat) : list (list Z) :=
  map (fun row => firstn w (skipn c0 row)) (firstn h (skipn r0 b)).

(** [np.arange(lo, hi)] for integers. *)
Definition arange (lo hi : Z) : list Z :=
  map (fun k => lo + Z.of_nat k) (seq 0 (Z.to_nat (hi - lo))).

(** [np.argmax] of a boolean array: the first [True], or [0]. *)
Fixpoint argmax (a : list bool) : nat :=
  match a with
  | [] => 0
  | true :: _ => 0
  | false :: t => if existsb (fun x => x) t then S (argmax t) else 0
  end.

(** The ranges of numpy's int64 and uint64. *)
Definition int64_min : Z := -9223372036854775808.
Definition int64_max : Z := 9223372036854775807.
Definition uint64_max : Z := 18446744073709551615.

(** The dtype that [np.array] gives to a list of Python integers: int64
    when every element fits int64, uint64 when every element is above
    int64 and fits uint64, float64 when elements of both kinds meet and
    for the empty list, Python objects when an element fits neither. *)
Inductive dtype : Type :=
| int64
| uint64
| float64
| object.

Definition array_dtype (l : list Z) : dtype :=
  match l with
  | [] => float64
  | _ =>
      if existsb (fun x => (x <? int64_min) || (uint64_max <? x)) l then object
      else if forallb (fun x => x <=? int64_max) l then int64
      else if forallb (fun x => int64_max <? x) l then uint64
      else float64
  end.

(** The wrap-around of int64 arithmetic. *)
Definition wrap_int64 (z : Z) : Z :=
  (z - int64_min) mod (uint64_max + 1) + int64_min.

(** [a - b] on two elements of an array of dtype [t]. *)
Definition subtract (t : dtype) (a b : Z) : Z :=
  match t with
  | int64 => wrap_int64 (a - b)
  | uint64 => (a - b) mod (uint64_max + 1)
  | _ => a - b
  end.
End np.

(** ** halving_game.py *)

Module HalvingGame.
Definition State : Type := Z * Z.
Definition Action : Type := String.string.

Definition initial_state (starting_number : Z) : State := (starting_number, 1).

Definition is_terminal (state : State) : bool :=
  let '(number, _) := state in number =? 0.

Definition actions (state : State) : list Action :=
  if is_terminal state then [] else ["subtract"%string; "halve"%string].

Definition next (state : State) (action : Action) : result State :=
  let '(number, player) := state in
  if String.eqb action "subtract" then Ok (number - 1, - player)
  else if String.eqb action "halve" then Ok (number / 2, - player)
  else Raise ValueError.

Definition utility (state : State) (player : Z) : Z :=
  if negb (is_terminal state) then 0
  else
    let '(_, last_player) := state in
    let previous_player := - last_player in
    if player =? previous_player then 1 else -1.

Definition player (state : State) : Z := snd state.

Definition game (starting_number : Z) : Game State Action :=
  Build_Game State Action (initial_state starting_number) actions next is_terminal utility player String.eqb.
End HalvingGame.

(** ** tictactoe_game.py *)

Module TicTacToeGame.
Definition Board : Type := list (list Z).
Definition State : Type := Board * Z.
Definition Action : Type := Z * Z.

Definition initial_state : State := (np.zeros 3 3, 1).

Definition _check_winner (board : Board) : option Z :=
  let lines :=
    np.sum_axis1 board ++ np.sum_axis0 board
      ++ [np.trace board] ++ [np.trace (np.fliplr board)] in
  if existsb (Z.eqb 3) lines then Some 1
  else if existsb (Z.eqb (-3)) lines then Some (-1)
  else None.

Definition is_terminal (state : State) : bool :=
  let '(board, _) := state in
  match _check_winner board with
  | Some _ => true
  | None => negb (np.any_zero board)
  end.

Definition actions (state : State) : list Action :=
  let '(board, _) := state in
  if is_terminal state then []
  else map (fun rc => (Z.of_nat (fst rc), Z.of_nat (snd rc)))
           (np.argwhere_zero board).

Definition next (state : State) (action : Action) : result State :=
  let '(board, player) := state in
  let '(row, col) := action in
  x <- np.getitem2 board row col ;;
  if negb (x =? 0) then Raise ValueError
  else
    new_board <- np.setitem2 board row col player ;;
    Ok (new_board, - player).

Definition utility (state : State) (player : Z) : Z :=
  if negb (is_terminal state) then 0
  else
    let '(board, _) := state in
    match _check_winner board with
    | Some winner => if winner =? player then 1 else -1
    | None => 0
    end.

Definition player (state : State) : Z := snd state.

Definition action_eqb (a b : Action) : bool :=
  (fst a =? fst b) && (snd a =? snd b).

Definition game : Game State Action :=
  Build_Game State Action initial_state actions next is_terminal utility player action_eqb.
End TicTacToeGame.

(** ** nim_game.py

    The state holds Python integers, and [next], [is_terminal] and
    [utility] compute on them.  [actions] goes through numpy: the source
    evaluates [np.arange(1, pile_size + 1)] on int64, which is the
    arithmetic of [Z] for pile sizes up to [np.int64_max - 1]; above,
    [pile_size + 1] wraps or [np.array] leaves int64.  [actions] below
    lists the legal actions, every count from [1] to the pile size, which
    is what the source returns in that range; the theorems on which
    actions are listed, on the search and on termination assume pile
    sizes from [0] to [np.int64_max - 1].  [get_nim_sum] and
    [get_optimal_move] follow the dtype of [np.array(piles)]. *)

Module NimGame.
Definition State : Type := list Z * Z.
Definition Action : Type := Z * Z.

Definition initial_state (initial_piles : list Z) : State := (initial_piles, 1).

(** The actions of the piles from index [i] on: for each non-empty pile,
    in index order, every removal count from [1] to its size. *)
Fixpoint actions_from (i : nat) (piles : list Z) : list Action :=
  match piles with
  | [] => []
  | pile_size :: rest =>
      (if 0 <? pile_size
       then map (fun k => (Z.of_nat i, k)) (np.arange 1 (pile_size + 1))
       else [])
        ++ actions_from (S i) rest
  end.

Definition actions (state : State) : list Action :=
  let '(piles, _) := state in actions_from 0 piles.

Definition next (state : State) (action : Action) : result State :=
  let '(piles, player) := state in
  let '(pile_idx, objects_to_remove) := action in
  if (pile_idx <? 0) || (Z.of_nat (length piles) <=? pile_idx) then
    Raise ValueError
  else
    let pile := nth (Z.to_nat pile_idx) piles 0 in
    if (objects_to_remove <? 1) || (pile <? objects_to_remove) then
      Raise ValueError
    else
      Ok (np.list_set piles (Z.to_nat pile_idx) (pile - objects_to_remove),
          - player).

Definition is_terminal (state : State) : bool :=
  let '(piles, _) := state in forallb (fun pile => pile =? 0) piles.

(** The source returns the floats [1.0], [-1.0], [0.0]; they compare as
    the integers do. *)
Definition utility (state : State) (player : Z) : Z :=
  if negb (is_terminal state) then 0
  else
    let '(_, current_player) := state in
    let previous_player := - current_player in
    if player =? previous_player then 1 else -1.

Definition player (state : State) : Z := snd state.

(** [np.bitwise_xor.reduce(np.array(piles))].  [bitwise_xor] is not
    defined on float64, the dtype of [np.array([])] and of an array in
    which a value above int64 meets a value of int64; on the other dtypes
    it is the XOR of [Z]. *)
Definition get_nim_sum (state : State) : result Z :=
  let '(piles, _) := state in
  match np.array_dtype piles with
  | np.float64 => Raise TypeError
  | _ => Ok (fold_left Z.lxor piles 0)
  end.

Definition get_optimal_move (state : State) : result (option Action) :=
  let '(piles, _) := state in
  nim_sum <- get_nim_sum state ;;
  if nim_sum =? 0 then Ok None
  else
    let targets := map (fun p => Z.lxor p nim_sum) piles in
    let valid_moves := map (fun p => Z.lxor p nim_sum <? p) piles in
    if existsb (fun x => x) valid_moves then
      let pile_idx := np.argmax valid_moves in
      let target := nth pile_idx targets 0 in
      let objects_to_remove :=
        np.subtract (np.array_dtype piles) (nth pile_idx piles 0) target in
      Ok (Some (Z.of_nat pile_idx, objects_to_remove))
    else Ok None.

Definition action_eqb (a b : Action) : bool :=
  (fst a =? fst b) && (snd a =? snd b).

Definition game (initial_piles : list Z) : Game State Action :=
  Build_Game State Action (initial_state initial_piles) actions next is_terminal utility player action_eqb.
End NimGame.

(** ** connectfour_game.py *)

Module ConnectFourGame.
Definition Board : Type := list (list Z).
Definition State : Type := Board * Z.
Definition Action : Type := Z.

(** The check of [__init__]: a size other than 4 or 5 raises. *)
Definition check_board_size (board_size : Z) : result Z :=
  if (board_size =? 4) || (board_size =? 5) then Ok board_size
  else Raise ValueError.

Definition _check_4x4_winner (board_4x4 : Board) : option Z :=
  let lines :=
    np.sum_axis1 board_4x4 ++ np.sum_axis0 board_4x4
      ++ [np.trace board_4x4] ++ [np.trace (np.fliplr board_4x4)] in
  if existsb (Z.eqb 4) lines then Some 1
  else if existsb (Z.eqb (-4)) lines then Some (-1)
  else None.

(** The two nested [for] loops over the offsets of the 4x4 windows: the
    first window with a winner decides. *)
Fixpoint first_winner (board : Board) (offsets : list (nat * nat)) : option Z :=
  match offsets with
  | [] => None
  | (row_offset, col_offset) :: rest =>
      match _check_4x4_winner (np.window board row_offset col_offset 4 4) with
      | Some winner => Some winner
      | None => first_winner board rest
      end
  end.

Definition window_offsets : list (nat * nat) :=
  flat_map (fun row_offset => map (fun col_offset => (row_offset, col_offset)) (seq 0 2))
           (seq 0 2).

Section WithBoardSize.
Variable board_size : Z.

Definition initial_state : State :=
  (np.zeros (Z.to_nat board_size) (Z.to_nat board_size), 1).

Definition _check_winner (board : Board) : option Z :=
  if board_size =? 4 then _check_4x4_winner board
  else if board_size =? 5 then first_winner board window_offsets
  else None.

Definition is_terminal (state : State) : bool :=
  let '(board, _) := state in
  match _check_winner board with
  | Some _ => true
  | None => negb (np.any_zero board)
  end.

(** [board[0, :]] is the top row; the board always has one. *)
Definition actions (state : State) : list Action :=
  let '(board, _) := state in
  if is_terminal state then []
  else map Z.of_nat (np.where_zero (nth 0 board [])).

Definition next (state : State) (action : Action) : result State :=
  let '(board, player) := state in
  if (action <? 0) || (board_size <=? action) then Raise ValueError
  else
    top <- np.getitem2 board 0 action ;;
    if negb (top =? 0) then Raise ValueError
    else
      let column := np.column board (Z.to_nat action) in
      let empty_positions := np.where_zero column in
      let new_board :=
        match rev empty_positions with
        | [] => board
        | last_empty :: _ => np.set_cell board last_empty (Z.to_nat action) player
        end in
      Ok (new_board, - player).

Definition utility (state : State) (player : Z) : Z :=
  if negb (is_terminal state) then 0
  else
    let '(board, _) := state in
    match _check_winner board with
    | Some winner => if winner =? player then 1 else -1
    | None => 0
    end.

Definition player (state : State) : Z := snd state.

Definition game : Game State Action :=
  Build_Game State Action initial_state actions next is_terminal utility player Z.eqb.
End WithBoardSize.
End ConnectFourGame.

(** ** Specification vocabulary *)

(** What a search with window [(alpha, beta)] may return when the exact
    value is [v]: the exact value inside the window, and a value on the
    same side outside of it. *)
Definition window_ok (alpha beta v v' : value) : Prop :=
  (vle v alpha = true -> vle v' alpha = true) /\
  (vle beta v = true -> vle beta v' = true) /\
  (vlt alpha v = true -> vlt v beta = true -> v' = v).

(** [a] is the first entry of [avs], in list order, whose value is the
    largest: every entry before it is strictly smaller, none after it is
    larger. *)
Definition is_first_max {Action : Type} (avs : list (Action * value))
    (a : Action) : Prop :=
  exists l1 v l2,
    avs = l1 ++ (a, v) :: l2 /\
    (forall x, In x l1 -> vlt (snd x) v = true) /\
    (forall x, In x l2 -> vle (snd x) v = true).

(** The incumbent of [choose_action] after scanning the valued actions
    [avs], starting from [(best_action, best_value)]. *)
Fixpoint scan {Action : Type} (best_action : option Action) (best_value : value)
    (avs : list (Action * value)) : option Action :=
  match avs with
  | [] => best_action
  | (a, v) :: rest =>
      if vlt best_value v then scan (Some a) v rest
      else scan best_action best_value rest
  end.

(** [avs] pairs each action of [acts] with the value that [_minimax]
    returns on the copy of [game] after that move. *)
Definition searched_values {State Action : Type} (G : Game State Action)
    (self : MinimaxAgent) (fuel : nat) (game : Session State)
    (acts : list Action) (avs : list (Action * value)) : Prop :=
  Forall2 (fun a av =>
             fst av = a /\
             exists game_copy s',
               move G (copy game) a = (game_copy, Ok s') /\
               _minimax G self fuel game_copy 0 false NegInf PosInf
               = Some (Ok (snd av)))
          acts avs.

(** What the search and the termination argument need of a game variant:
    an invariant of its states and a measure that every legal move
    decreases. *)
Record WellBehaved {State Action : Type} (G : Game State Action) : Type := {
  inv : State -> Prop;
  measure : State -> nat;
  wb_eqb : forall a b, action_eqb G a b = true <-> a = b;
  wb_init : inv (initial_state G);
  wb_step : forall s a,
      inv s -> In a (actions G s) ->
      exists s', next G s a = Ok s' /\ inv s' /\ (measure s' < measure s)%nat;
  wb_live : forall s, inv s -> is_terminal G s = false -> actions G s <> [];
  wb_dead : forall s, is_terminal G s = true -> actions G s = []
}.
Arguments inv {State Action G} _ _.
Arguments measure {State Action G} _ _.
Arguments wb_eqb {State Action G} _ _ _.
Arguments wb_init {State Action G} _.
Arguments wb_step {State Action G} _ _ _ _ _.
Arguments wb_live {State Action G} _ _ _ _.
Arguments wb_dead {State Action G} _ _ _.

(** ** Boards and lines *)

(** [b] has [n] rows of [m] cells. *)
Definition shape (n m : nat) (b : list (list Z)) : Prop :=
  length b = n /\ Forall (fun row => length row = m) b.

(** Every cell is empty ([0]) or owned by a player ([1], [-1]). *)
Definition cells_ok (b : list (list Z)) : Prop :=
  Forall (Forall (fun x => x = 0 \/ x = 1 \/ x = -1)) b.

(** Columns are filled from the bottom: above an empty cell, cells are
    empty. *)
Definition gravity (b : list (list Z)) : Prop :=
  forall r c, (S r < length b)%nat -> np.cell b (S r) c = 0 -> np.cell b r c = 0.

Definition horizontal (len r c : nat) : list (nat * nat) :=
  map (fun k => (r, c + k)%nat) (seq 0 len).
Definition vertical (len r c : nat) : list (nat * nat) :=
  map (fun k => (r + k, c)%nat) (seq 0 len).
Definition diagonal (len r c : nat) : list (nat * nat) :=
  map (fun k => (r + k, c + k)%nat) (seq 0 len).
Definition antidiagonal (len r c : nat) : list (nat * nat) :=
  map (fun k => (r + k, c + (len - 1 - k))%nat) (seq 0 len).

Definition starts (rows cols : nat) : list (nat * nat) :=
  flat_map (fun r => map (pair r) (seq 0 cols)) (seq 0 rows).

(** All the lines of [len] cells on an [n] x [n] board: rows, columns,
    diagonals and anti-diagonals. *)
Definition lines (n len : nat) : list (list (nat * nat)) :=
  map (fun rc => horizontal len (fst rc) (snd rc)) (starts n (n + 1 - len))
  ++ map (fun rc => vertical len (fst rc) (snd rc)) (starts (n + 1 - len) n)
  ++ map (fun rc => diagonal len (fst rc) (snd rc)) (starts (n + 1 - len) (n + 1 - len))
  ++ map (fun rc => antidiagonal len (fst rc) (snd rc)) (starts (n + 1 - len) (n + 1 - len)).

(** Player [p] owns every cell of [line]. *)
Definition occupies (b : list (list Z)) (p : Z) (line : list (nat * nat)) : bool :=
  forallb (fun rc => np.cell b (fst rc) (snd rc) =? p) line.

(** Player [p] fully occupies some line of [len] cells of the [n] x [n]
    board [b]. *)
Definition has_line (n len : nat) (b : list (list Z)) (p : Z) : bool :=
  existsb (occupies b p) (lines n len).

Definition line_sum (b : list (list Z)) (line : list (nat * nat)) : Z :=
  np.zsum (map (fun rc => np.cell b (fst rc) (snd rc)) line).

(** The number of empty cells. *)
Definition empty_cells (b : list (list Z)) : nat := length (np.argwhere_zero b).

(** The winner read off a list of line sums, for lines of [L] cells. *)
Definition sum_winner (L : Z) (sums : list Z) : option Z :=
  if existsb (Z.eqb L) sums then Some 1
  else if existsb (Z.eqb (- L)) sums then Some (-1)
  else None.

(** The winner read off the occupied lines. *)
Definition winner_by_lines (n len : nat) (b : list (list Z)) : option Z :=
  if has_line n len b 1 then Some 1
  else if has_line n len b (-1) then Some (-1)
  else None.

(** The line [line] of a window, in the coordinates of the board. *)
Definition shift (off : nat * nat) (line : list (nat * nat)) : list (nat * nat) :=
  map (fun rc => (fst off + fst rc, snd off + snd rc)%nat) line.

(** ** Invariants and measures of the four variants *)

(** Halving: the number never goes below zero. *)
Definition halving_inv (s : HalvingGame.State) : Prop := 0 <= fst s.
Definition halving_measure (s : HalvingGame.State) : nat := Z.to_nat (fst s).

(** Tic-Tac-Toe: a 3x3 board of [{-1, 0, 1}]; the player to move is [1] or
    [-1] and owns no complete line (the game would have ended before). *)
Definition ttt_inv (s : TicTacToeGame.State) : Prop :=
  shape 3 3 (fst s) /\ cells_ok (fst s) /\ (snd s = 1 \/ snd s = -1)
  /\ has_line 3 3 (fst s) (snd s) = false.
Definition ttt_measure (s : TicTacToeGame.State) : nat := empty_cells (fst s).

(** Nim: no pile is negative. *)
Definition nim_inv (s : NimGame.State) : Prop := Forall (fun pile => 0 <= pile) (fst s).
Definition nim_measure (s : NimGame.State) : nat := Z.to_nat (np.zsum (fst s)).

(** Connect Four on an [n] x [n] board: as Tic-Tac-Toe, with columns filled
    from the bottom. *)
Definition c4_inv (n : nat) (s : ConnectFourGame.State) : Prop :=
  shape n n (fst s) /\ cells_ok (fst s) /\ (snd s = 1 \/ snd s = -1)
  /\ gravity (fst s) /\ has_line n 4 (fst s) (snd s) = false.
Definition c4_measure (s : ConnectFourGame.State) : nat := empty_cells (fst s).

(** ** The properties of a variant that the theorems state *)

Section Properties.
Context {State Action : Type} (G : Game State Action) (mu : State -> nat).

(** Pruning does not change the move: at every reachable non-terminal
    state, [choose_action] and plain minimax return the same action, for
    every agent and every fuel that covers the measure. *)
Definition pruning_preserves_choice : Prop :=
  forall (self : MinimaxAgent) (g : Session State),
    reachable G (state g) -> is_terminal G (state g) = false ->
    exists a,
      In a (actions G (state g)) /\
      forall fuel, (mu (state g) <= fuel)%nat ->
        choose_action G self fuel g = Some (Ok (Some a)) /\
        unpruned_choice G self fuel (state g) = Some (Ok (Some a)).

(** [choose_action] returns the first action of largest minimax value:
    [avs] pairs the legal actions, in the order of [actions()], with the
    minimax values of their successors as plain minimax computes them
    ([action_values], which does not call [_minimax]); these are the
    values that the search returns on the copies ([searched_values]), and
    the action returned is the first whose value is the largest.  A
    single legal action is returned whatever the search would do. *)
Definition chooses_first_optimal : Prop :=
  forall (self : MinimaxAgent) (g : Session State),
    reachable G (state g) -> actions G (state g) <> [] ->
    (exists a avs,
       In a (actions G (state g)) /\
       map fst avs = actions G (state g) /\
       is_first_max avs a /\
       forall fuel, (mu (state g) <= fuel)%nat ->
         action_values G self fuel (state g) (actions G (state g))
         = Some (Ok avs) /\
         searched_values G self fuel g (actions G (state g)) avs /\
         choose_action G self fuel g = Some (Ok (Some a)))
    /\
    (forall x, actions G (state g) = [x] ->
       forall search, choose_action_with G search g = Some (Ok (Some x))).

(** Every legal move decreases the measure, so a play has at most as
    many moves as the measure of its first state, itself at most
    [total]; a play that cannot go on has reached a terminal state, a
    state that is not terminal has a legal move, and a driver that keeps
    applying legal actions, however chosen, ends the game within the
    measure of the state it starts from. *)
Definition bounded_play (total : nat) : Prop :=
  mu (initial_state G) = total /\
  (forall g a g' s',
      reachable G (state g) -> move G g a = (g', Ok s') ->
      (mu (state g') < mu (state g))%nat) /\
  (forall g acts g',
      reachable G (state g) -> play G g acts = (g', Ok tt) ->
      (length acts + mu (state g') <= mu (state g))%nat
      /\ (mu (state g) <= total)%nat
      /\ reachable G (state g')) /\
  (forall g,
      reachable G (state g) ->
      (forall a, exists e, snd (move G g a) = Raise e) ->
      is_terminal G (state g) = true) /\
  (forall g,
      reachable G (state g) -> is_terminal G (state g) = false ->
      exists a g' s', move G g a = (g', Ok s')) /\
  (forall (pick : Session State -> Action) g,
      reachable G (state g) ->
      (forall g', reachable G (state g') -> is_terminal G (state g') = false ->
                  In (pick g') (actions G (state g'))) ->
      is_game_over G (drive G pick (mu (state g)) g) = true).

(** [move] raises [ValueError] exactly on the actions outside
    [actions(state)], and then leaves the object as it was; a legal
    action installs the successor state and its player. *)
Definition move_checked (P : State -> Prop) : Prop :=
  forall (g : Session State) (a : Action),
    P (state g) ->
    (~ In a (actions G (state g)) -> move G g a = (g, Raise ValueError)) /\
    (In a (actions G (state g)) ->
     exists s', next G (state g) a = Ok s' /\
                move G g a = ({| state := s'; current_player := player G s' |}, Ok s')).
End Properties.

(** Antisymmetry of the utility on the terminal states that satisfy [P]. *)
Definition utility_antisymmetric {State Action : Type} (G : Game State Action)
    (P : State -> Prop) : Prop :=
  forall s, P s -> is_terminal G s = true ->
            utility G s 1 = - utility G s (-1).

(** No draws: at a terminal state the player who moved last, the opposite
    of the player to act, has utility [1] and the player to act [-1]. *)
Definition last_mover_wins {State Action : Type} (G : Game State Action)
    (P : State -> Prop) : Prop :=
  forall s, P s -> is_terminal G s = true ->
            utility G s (- player G s) = 1 /\ utility G s (player G s) = -1.

(** The player to act is [1] or [-1]. *)
Definition two_players {State Action : Type} (G : Game State Action) (s : State) : Prop :=
  player G s = 1 \/ player G s = -1.

(** [utility] returns [0] at every state that is not terminal. *)
Definition utility_zero_off_terminal {State Action : Type} (G : Game State Action) : Prop :=
  forall s p, is_terminal G s = false -> utility G s p = 0.

(** Win detection is exact: on the board of every reachable state,
    [check] reports player [q] exactly when [q] owns a complete line of
    [len] cells, and then the state is terminal with utility [1] for [q]
    and [-1] for the opponent. *)
Definition win_detection_exact {Action : Type}
    (G : Game (list (list Z) * Z) Action)
    (check : list (list Z) -> option Z) (n len : nat) : Prop :=
  forall s q,
    reachable G s -> q = 1 \/ q = -1 ->
    (check (fst s) = Some q <-> has_line n len (fst s) q = true)
    /\ (has_line n len (fst s) q = true ->
        is_terminal G s = true /\ utility G s q = 1 /\ utility G s (- q) = -1).

(** [next] raises [ValueError] on every action outside [actions(state)],
    for the states that satisfy [P] and the actions that satisfy
    [in_range]. *)
Definition next_rejects {State Action : Type} (G : Game State Action)
    (P : State -> Prop) (in_range : Action -> Prop) : Prop :=
  forall s a, P s -> in_range a -> ~ In a (actions G s) ->
              next G s a = Raise ValueError.

(** ** Further properties of a variant *)

(** [actions] is empty exactly at the terminal states. *)
Definition actions_empty_iff_terminal {State Action : Type}
    (G : Game State Action) : Prop :=
  forall s, reachable G s -> (actions G s = [] <-> is_terminal G s = true).

(** Turns alternate: after a play of [k] legal moves from a new game, the
    field [current_player] is the player of the state, and it is [1] when
    [k] is even and [-1] when [k] is odd. *)
Definition turns_alternate {State Action : Type} (G : Game State Action) : Prop :=
  forall acts g',
    play G (new_game G) acts = (g', Ok tt) ->
    current_player g' = player G (state g')
    /\ current_player g' = (if Nat.even (length acts) then 1 else -1).

(** [np.sum(board)]. *)
Definition board_sum (b : list (list Z)) : Z := np.zsum (map np.zsum b).

(** [get_winner] in a game without draws: [None] while the game runs,
    else the opponent of the player to act.  After a successful [move]
    that ends the game, this is the player who made that move; in a game
    that is over from the start nobody has moved, and the winner named is
    [-1], the opponent of the first player. *)
Definition winner_opposes_player_to_act {State Action : Type}
    (G : Game State Action) : Prop :=
  (forall g : Session State,
      reachable G (state g) ->
      get_winner G g
      = if is_terminal G (state g) then Some (- player G (state g)) else None)
  /\ (forall (g : Session State) a g' s',
         reachable G (state g) -> current_player g = player G (state g) ->
         move G g a = (g', Ok s') -> is_game_over G g' = true ->
         get_winner G g' = Some (current_player g))
  /\ (is_terminal G (initial_state G) = true ->
      get_winner G (new_game G) = Some (-1)).

(** [get_winner] on a board game with lines of [len] cells: a player
    exactly when that player owns a line, [0] exactly when nobody owns a
    line and no cell is empty, [None] exactly when the game is not over. *)
Definition winner_by_board {Action : Type} (G : Game (list (list Z) * Z) Action)
    (n len : nat) : Prop :=
  forall g : Session (list (list Z) * Z),
    reachable G (state g) ->
    (forall q, q = 1 \/ q = -1 ->
               (get_winner G g = Some q <-> has_line n len (fst (state g)) q = true))
    /\ (get_winner G g = Some 0
        <-> has_line n len (fst (state g)) 1 = false
            /\ has_line n len (fst (state g)) (-1) = false
            /\ np.any_zero (fst (state g)) = false)
    /\ (get_winner G g = None <-> is_terminal G (state g) = false).

(** The pieces on the board match the turn: equal numbers when [1] is to
    move, one more piece of [1] when [-1] is to move. *)
Definition pieces_match_turn {Action : Type} (G : Game (list (list Z) * Z) Action) : Prop :=
  forall s, reachable G s ->
            (snd s = 1 /\ board_sum (fst s) = 0)
            \/ (snd s = -1 /\ board_sum (fst s) = 1).

(** Connect Four pieces fall: reachable boards have no piece above an empty
    cell, and a legal [next] puts the piece of the player to move on the
    lowest empty cell of the chosen column, changes no other cell and
    passes the turn. *)
Definition pieces_fall (n : nat) : Prop :=
  let G := ConnectFourGame.game (Z.of_nat n) in
  (forall s, reachable G s -> gravity (fst s))
  /\ (forall b p a s',
         reachable G (b, p) -> In a (actions G (b, p)) -> next G (b, p) a = Ok s' ->
         exists e col,
           a = Z.of_nat col /\ (e < n)%nat /\ (col < n)%nat
           /\ np.cell b e col = 0
           /\ (forall r, (e < r < n)%nat -> np.cell b r col <> 0)
           /\ snd s' = - p
           /\ forall r c,
               np.cell (fst s') r c
               = if ((r =? e) && (c =? col))%nat then p else np.cell b r c).

(** The legal Connect Four actions are the columns with an empty cell. *)
Definition columns_with_room (n : nat) : Prop :=
  let G := ConnectFourGame.game (Z.of_nat n) in
  forall b p a,
    reachable G (b, p) -> is_terminal G (b, p) = false ->
    (In a (actions G (b, p))
     <-> exists col r, a = Z.of_nat col /\ (col < n)%nat /\ (r < n)%nat
                       /\ np.cell b r col = 0).

(** The values that the search returns at the reachable states: for the
    agents that satisfy [agent_ok], every fuel that covers the measure,
    every ply and side, [_minimax] with the full window returns a number
    that satisfies [P]. *)
Definition search_value_in {State Action : Type} (G : Game State Action)
    (mu : State -> nat) (agent_ok : MinimaxAgent -> Prop) (P : Z -> Prop) : Prop :=
  forall (self : MinimaxAgent) (g : Session State) depth mx fuel,
    agent_ok self -> reachable G (state g) -> (mu (state g) <= fuel)%nat ->
    exists z, _minimax G self fuel g depth mx NegInf PosInf = Some (Ok (Fin z))
              /\ P z.

(** The agent has no depth bound: [max_depth] is [None] or [0]. *)
Definition unbounded_depth (self : MinimaxAgent) : Prop :=
  max_depth self = None \/ max_depth self = Some 0.

(** ** human_agent.py: class [HumanAgent] *)

Module HumanAgent.
(** The [while True] loop of [_choose_generic_action].  Each element of
    [inputs] is one evaluation of [int(input(...))]: [Some n] when it
    returns [n], [None] when it raises [ValueError], which the loop
    catches.  The result is [None] when the inputs run out before a
    choice is accepted. *)
Fixpoint _choose_generic_action {A : Type} (actions : list A)
    (inputs : list (option Z)) : option A :=
  match inputs with
  | [] => None
  | None :: rest => _choose_generic_action actions rest
  | Some n :: rest =>
      let choice := n - 1 in
      if (0 <=? choice) && (choice <? Z.of_nat (length actions)) then
        nth_error actions (Z.to_nat choice)
      else _choose_generic_action actions rest
  end.

(** [_choose_halving_action] and [_choose_tictactoe_action] print other
    prompts and run the same loop. *)
Definition _choose_halving_action {A : Type} (actions : list A)
    (inputs : list (option Z)) : option A :=
  _choose_generic_action actions inputs.

Definition _choose_tictactoe_action {A : Type} (actions : list A)
    (inputs : list (option Z)) : option A :=
  _choose_generic_action actions inputs.

(** The class of the game that [choose_action] tests by name. *)
Inductive game_class : Type :=
| HalvingGameClass
| TicTacToeGameClass
| OtherGameClass.

(** [HumanAgent.choose_action]: [Some None] is Python's [None], returned
    when there is no action. *)
Definition choose_action {State Action : Type} (G : Game State Action)
    (cls : game_class) (game : Session State) (inputs : list (option Z))
  : option (option Action) :=
  match actions G (state game) with
  | [] => Some None
  | acts =>
      option_map Some
        match cls with
        | HalvingGameClass => _choose_halving_action acts inputs
        | TicTacToeGameClass => _choose_tictactoe_action acts inputs
        | OtherGameClass => _choose_generic_action acts inputs
        end
  end.
End HumanAgent.

(** ** main.py *)

Module Main.
(** An entry of [session["agents"]]: [None] for a human player, else the
    agent object. *)
Inductive agent_entry : Type :=
| NoAgent
| Random (player_id : Z)
| Minimax (agent : MinimaxAgent).

(** [_create_agent]. *)
Definition _create_agent (agent_type : String.string) (player_id : Z)
  : agent_entry :=
  if String.eqb agent_type "random" then Random player_id
  else if String.eqb agent_type "minimax" then
    Minimax {| player_id := player_id; max_depth := None |}
  else NoAgent.

(** The dictionary [{1: ..., -1: ...}] of a session. *)
Record agents_dict : Type := {
  agent_1 : agent_entry;
  agent_m1 : agent_entry
}.

(** [session["agents"][key]]: [None] when the key is missing, where
    Python raises [KeyError]. *)
Definition agents_getitem (agents : agents_dict) (key : Z) : option agent_entry :=
  if key =? 1 then Some (agent_1 agents)
  else if key =? -1 then Some (agent_m1 agents)
  else None.

(** What a call of [_auto_play_ai_moves] does. *)
Inductive auto_play_result (State : Type) : Type :=
| Returned (game : Session State)
| Raised (e : exn)
| RaisedKeyError.
Arguments Returned {State} game.
Arguments Raised {State} e.
Arguments RaisedKeyError {State}.

(** Python's truth value of an action: a string is true unless empty, a
    pair is true, an integer is true unless [0]. *)
Definition truth_str (a : String.string) : bool := negb (String.eqb a "").
Definition truth_pair (a : Z * Z) : bool := true.
Definition truth_int (a : Z) : bool := negb (a =? 0).

Section AutoPlay.
Context {State Action : Type} (G : Game State Action).
(** [bool(action)] for the actions of the game. *)
Variable truth : Action -> bool.
(** [RandomAgent.choose_action]: the class is not among the sources at
    hand, so its choice at the [k]-th remaining round is left open. *)
Variable random_choice : nat -> Session State -> option Action.
(** The recursion budget of each search. *)
Variable fuel : nat.

(** The [while] loop of [_auto_play_ai_moves], at most [rounds] times
    around; [None] when a budget of the model runs out. *)
Fixpoint _auto_play_ai_moves (agents : agents_dict) (rounds : nat)
    (game : Session State) : option (auto_play_result State) :=
  match rounds with
  | O => None
  | S rounds' =>
      if is_game_over G game then Some (Returned game)
      else
        match agents_getitem agents (current_player game) with
        | None => Some RaisedKeyError
        | Some NoAgent => Some (Returned game)
        | Some current_agent =>
            let chosen :=
              match current_agent with
              | Minimax agent => choose_action G agent fuel game
              | _ => Some (Ok (random_choice rounds' game))
              end in
            match chosen with
            | None => None
            | Some (Raise e) => Some (Raised e)
            | Some (Ok None) => Some (Returned game)
            | Some (Ok (Some ai_action)) =>
                if truth ai_action then
                  match move G game ai_action with
                  | (_, Raise e) => Some (Raised e)
                  | (game', Ok _) => _auto_play_ai_moves agents rounds' game'
                  end
                else Some (Returned game)
            end
        end
  end.
End AutoPlay.

(** [new_nim_game], up to the call of [NimGame]: [tokens] holds, for each
    non-blank piece of the form field, what [int] makes of it ([None]
    when it raises [ValueError]).  The result is the argument of
    [NimGame], [None] for the default. *)
Fixpoint parse_ints (tokens : list (option Z)) : option (list Z) :=
  match tokens with
  | [] => Some []
  | None :: _ => None
  | Some n :: rest =>
      match parse_ints rest with
      | Some l => Some (n :: l)
      | None => None
      end
  end.

Definition new_nim_piles (tokens : list (option Z)) : option (list Z) :=
  match parse_ints tokens with
  | None => None
  | Some pile_sizes =>
      match filter (fun p => 0 <? p) pile_sizes with
      | [] => None
      | pile_sizes' => Some pile_sizes'
      end
  end.

(** [NimGame.__init__]: the initial piles. *)
Definition nim_initial_piles (piles : option (list Z)) : list Z :=
  match piles with
  | None => [1; 3; 5; 7]
  | Some piles => piles
  end.

Definition new_nim_game (tokens : list (option Z)) : Game NimGame.State NimGame.Action :=
  NimGame.game (nim_initial_piles (new_nim_piles tokens)).
End Main.

(** With minimax agents on both sides, auto-play ends the game: from every
    reachable state, with budgets that cover the measure, the call
    returns a session whose game is over. *)
Definition auto_play_finishes {State Action : Type} (G : Game State Action)
    (truth : Action -> bool) (mu : State -> nat) : Prop :=
  forall (a1 a2 : MinimaxAgent) random_choice (g : Session State) fuel rounds,
    reachable G (state g) -> current_player g = player G (state g) ->
    (mu (state g) <= fuel)%nat -> (mu (state g) < rounds)%nat ->
    exists g',
      Main._auto_play_ai_moves G truth random_choice fuel
        {| Main.agent_1 := Main.Minimax a1; Main.agent_m1 := Main.Minimax a2 |}
        rounds g
      = Some (Main.Returned g')
      /\ is_game_over G g' = true /\ reachable G (state g').

(** What the human agent returns is legal: it is the action whose number
    is the first input between [1] and the number of actions, and [move]
    accepts it. *)
Definition human_choice_legal {State Action : Type} (G : Game State Action) : Prop :=
  forall cls (g : Session State) inputs a,
    reachable G (state g) ->
    HumanAgent.choose_action G cls g inputs = Some (Some a) ->
    (exists skipped n rest,
        inputs = skipped ++ Some n :: rest
        /\ (forall m, In (Some m) skipped ->
                      ~ 1 <= m <= Z.of_nat (length (actions G (state g))))
        /\ 1 <= n <= Z.of_nat (length (actions G (state g)))
        /\ nth_error (actions G (state g)) (Z.to_nat (n - 1)) = Some a)
    /\ exists s', move G g a
                  = ({| state := s'; current_player := player G s' |}, Ok s').

(* ================================================================== *)
(** * Part II. Properties                                              *)
(* ================================================================== *)

(** ** The order on search values *)

(** Replace the comparison [x <=? y] by its value, in both cases. *)
Ltac split_leb x y :=
  let E := fresh "E" in
  let Eb := fresh "Eb" in
  destruct (Z_le_gt_dec x y) as [E|E];
  [pose proof (proj2 (Z.leb_le x y) E) as Eb
  |pose proof (proj2 (Z.leb_gt x y) (Z.gt_lt _ _ E)) as Eb];
  rewrite Eb in *; clear Eb; simpl in *.

(** Case analysis on every search value in the context, then linear
    arithmetic on what is left of the comparisons. *)
Ltac value_cases :=
  repeat match goal with
         | v : value |- _ => destruct v
         end;
  unfold vmax, vmin, veqb, vlt, vle in *; simpl in *;
  try discriminate; try congruence;
  repeat match goal with
         | H : context [Z.leb ?x ?y] |- _ => split_leb x y
         | |- context [Z.leb ?x ?y] => split_leb x y
         end;
  try discriminate; try congruence; try lia;
  repeat match goal with
         | H : Fin _ = Fin _ |- _ => injection H as H
         end;
  try (f_equal; lia); try lia.

Lemma vle_refl (a : value) : vle a a = true.
Proof. value_cases. Qed.

Lemma vle_trans (a b c : value) :
  vle a b = true -> vle b c = true -> vle a c = true.
Proof. intros; value_cases. Qed.

Lemma vle_antisym (a b : value) :
  vle a b = true -> vle b a = true -> a = b.
Proof. intros; value_cases. Qed.

Lemma veqb_eq (a b : value) : veqb a b = true <-> a = b.
Proof.
  split.
  - intros H. unfold veqb in H. apply andb_true_iff in H as [H1 H2].
    now apply vle_antisym.
  - intros ->. unfold veqb. now rewrite vle_refl.
Qed.

Lemma vlt_NegInf_Fin (z : Z) : vlt NegInf (Fin z) = true.
Proof. reflexivity. Qed.

Lemma vmax_assoc (a b c : value) : vmax (vmax a b) c = vmax a (vmax b c).
Proof. value_cases. Qed.

Lemma vmin_assoc (a b c : value) : vmin (vmin a b) c = vmin a (vmin b c).
Proof. value_cases. Qed.

Lemma vmax_NegInf_r (a : value) : vmax a NegInf = a.
Proof. value_cases. Qed.

Lemma vmin_PosInf_r (a : value) : vmin a PosInf = a.
Proof. value_cases. Qed.

Lemma vmax_lub (a b c : value) :
  vle a c = true -> vle b c = true -> vle (vmax a b) c = true.
Proof. intros; value_cases. Qed.

Lemma vmax_left (a b : value) : vle b a = true -> vmax a b = a.
Proof. intros; value_cases. Qed.

Lemma vmax_right (a b : value) : vlt a b = true -> vmax a b = b.
Proof. intros; value_cases. Qed.

Lemma vlt_irrefl (a : value) : vlt a a = false.
Proof. value_cases. Qed.

Lemma vmax_Fin (x y : Z) : vmax (Fin x) (Fin y) = Fin (Z.max x y).
Proof. value_cases. Qed.

Lemma vmin_Fin (x y : Z) : vmin (Fin x) (Fin y) = Fin (Z.min x y).
Proof. value_cases. Qed.

Lemma window_ok_full (v v' : value) : window_ok NegInf PosInf v v' -> v' = v.
Proof.
  intros (H1 & H2 & H3). destruct v; simpl in *.
  - specialize (H1 eq_refl). destruct v'; simpl in *; congruence.
  - now apply H3.
  - specialize (H2 eq_refl). destruct v'; simpl in *; congruence.
Qed.

(** Order facts behind one iteration of the pruning loops. *)

Lemma max_break (alpha beta va va' : value) :
  vlt alpha beta = true -> window_ok alpha beta va va' ->
  vle beta (vmax alpha va') = true ->
  vle beta va = true /\ vle beta va' = true.
Proof.
  intros Hab (H1 & H2 & H3) Hb.
  assert (Hva' : vle beta va' = true) by value_cases.
  split; [|exact Hva'].
  destruct (vle beta va) eqn:E; [reflexivity|].
  destruct (vle va alpha) eqn:E1.
  - specialize (H1 eq_refl). clear H2 H3. value_cases.
  - assert (va' = va) by (apply H3; unfold vlt; [rewrite E1|rewrite E]; reflexivity).
    subst. congruence.
Qed.

Lemma max_break_ok (alpha0 beta v m va' : value) :
  vlt alpha0 beta = true -> vle beta va' = true -> vle beta v = true ->
  window_ok alpha0 beta v (vmax m va').
Proof. intros. unfold window_ok. repeat split; intros; value_cases. Qed.

Lemma max_continue (alpha beta va va' : value) :
  vlt alpha beta = true -> window_ok alpha beta va va' ->
  vle beta (vmax alpha va') = false ->
  vmax alpha va' = vmax alpha va.
Proof.
  intros Hab (H1 & H2 & H3) Hb.
  destruct (vle va alpha) eqn:E1.
  - specialize (H1 eq_refl). clear H2 H3. value_cases.
  - destruct (vle beta va) eqn:E2.
    + specialize (H2 eq_refl). clear H1 H3. value_cases.
    + assert (va' = va) by (apply H3; unfold vlt; [rewrite E1|rewrite E2]; reflexivity).
      now subst.
Qed.

Lemma max_done (alpha0 beta M m : value) :
  vmax alpha0 m = vmax alpha0 M -> vlt (vmax alpha0 m) beta = true ->
  window_ok alpha0 beta M m.
Proof. intros. unfold window_ok. repeat split; intros; value_cases. Qed.

Lemma min_break (alpha beta va va' : value) :
  vlt alpha beta = true -> window_ok alpha beta va va' ->
  vle (vmin beta va') alpha = true ->
  vle va alpha = true /\ vle va' alpha = true.
Proof.
  intros Hab (H1 & H2 & H3) Hb.
  assert (Hva' : vle va' alpha = true) by value_cases.
  split; [|exact Hva'].
  destruct (vle va alpha) eqn:E; [reflexivity|].
  destruct (vle beta va) eqn:E1.
  - specialize (H2 eq_refl). clear H1 H3. value_cases.
  - assert (va' = va) by (apply H3; unfold vlt; [rewrite E|rewrite E1]; reflexivity).
    subst. congruence.
Qed.

Lemma min_break_ok (alpha beta0 v m va' : value) :
  vlt alpha beta0 = true -> vle va' alpha = true -> vle v alpha = true ->
  window_ok alpha beta0 v (vmin m va').
Proof. intros. unfold window_ok. repeat split; intros; value_cases. Qed.

Lemma min_continue (alpha beta va va' : value) :
  vlt alpha beta = true -> window_ok alpha beta va va' ->
  vle (vmin beta va') alpha = false ->
  vmin beta va' = vmin beta va.
Proof.
  intros Hab (H1 & H2 & H3) Hb.
  destruct (vle beta va) eqn:E1.
  - specialize (H2 eq_refl). clear H1 H3. value_cases.
  - destruct (vle va alpha) eqn:E2.
    + specialize (H1 eq_refl). clear H2 H3. value_cases.
    + assert (va' = va) by (apply H3; unfold vlt; [rewrite E2|rewrite E1]; reflexivity).
      now subst.
Qed.

Lemma min_done (alpha beta0 M m : value) :
  vmin beta0 m = vmin beta0 M -> vlt alpha (vmin beta0 m) = true ->
  window_ok alpha beta0 M m.
Proof. intros. unfold window_ok. repeat split; intros; value_cases. Qed.

(** ** Alpha-beta pruning computes the minimax value *)

Section SearchTheory.
Context {State Action : Type} (G : Game State Action) (self : MinimaxAgent).
Hypothesis eqb_refl : forall a, action_eqb G a a = true.

Lemma action_in_In (a : Action) (l : list Action) :
  In a l -> action_in G a l = true.
Proof.
  intros H. unfold action_in. apply existsb_exists.
  exists a. split; [exact H | apply eqb_refl].
Qed.

Lemma move_legal (g : Session State) (a : Action) (s' : State) :
  In a (actions G (state g)) -> next G (state g) a = Ok s' ->
  move G g a = ({| state := s'; current_player := player G s' |}, Ok s').
Proof.
  intros Hin Hn. unfold move.
  rewrite (action_in_In _ _ Hin). simpl. now rewrite Hn.
Qed.

Lemma move_legal_raise (g : Session State) (a : Action) (e : exn) :
  In a (actions G (state g)) -> next G (state g) a = Raise e ->
  move G g a = (g, Raise e).
Proof.
  intros Hin Hn. unfold move.
  rewrite (action_in_In _ _ Hin). simpl. now rewrite Hn.
Qed.

Lemma fold_max_ge rec s acts M v :
  fold_children G rec vmax s acts M = Some (Ok v) -> vle M v = true.
Proof.
  revert M. induction acts as [|a rest IH]; intros M H; simpl in H.
  - injection H as <-. apply vle_refl.
  - destruct (next G s a) as [s'|e]; [|discriminate].
    destruct (rec s') as [[va|e]|]; try discriminate.
    apply IH in H. clear IH. value_cases.
Qed.

Lemma fold_min_le rec s acts M v :
  fold_children G rec vmin s acts M = Some (Ok v) -> vle v M = true.
Proof.
  revert M. induction acts as [|a rest IH]; intros M H; simpl in H.
  - injection H as <-. apply vle_refl.
  - destruct (next G s a) as [s'|e]; [|discriminate].
    destruct (rec s') as [[va|e]|]; try discriminate.
    apply IH in H. clear IH. value_cases.
Qed.

Section Loops.
Variable rec_ab : Session State -> value -> value -> option (result value).
Variable rec_ref : State -> option (result value).
Hypothesis rec_sound :
  forall g v alpha beta,
    rec_ref (state g) = Some (Ok v) -> vlt alpha beta = true ->
    exists v', rec_ab g alpha beta = Some (Ok v') /\ window_ok alpha beta v v'.

Lemma max_loop_sound (game : Session State) (acts : list Action) :
  (forall a, In a acts -> In a (actions G (state game))) ->
  forall M m alpha0 beta v,
    vlt (vmax alpha0 m) beta = true ->
    vmax alpha0 m = vmax alpha0 M ->
    fold_children G rec_ref vmax (state game) acts M = Some (Ok v) ->
    exists v',
      max_loop G rec_ab game acts m (vmax alpha0 m) beta = Some (Ok v')
      /\ window_ok alpha0 beta v v'.
Proof.
  induction acts as [|a rest IH]; intros Hin M m alpha0 beta v Hlt Heq Hf;
    simpl in Hf |- *.
  - injection Hf as <-. exists m. split; [reflexivity|].
    now apply max_done.
  - destruct (next G (state game) a) as [s'|e] eqn:Hn; [|discriminate].
    destruct (rec_ref s') as [[va|e]|] eqn:Hr; try discriminate.
    unfold copy.
    rewrite (move_legal game a s' (Hin a (or_introl eq_refl)) Hn).
    destruct (rec_sound {| state := s'; current_player := player G s' |}
                        va (vmax alpha0 m) beta Hr Hlt) as (va' & Hab & Hw).
    rewrite Hab.
    destruct (vle beta (vmax (vmax alpha0 m) va')) eqn:Hb.
    + exists (vmax m va'). split; [reflexivity|].
      destruct (max_break _ _ _ _ Hlt Hw Hb) as [Hbva Hbva'].
      apply max_break_ok; [|exact Hbva'|].
      * clear - Hlt. value_cases.
      * apply fold_max_ge in Hf. clear - Hf Hbva. value_cases.
    + pose proof (max_continue _ _ _ _ Hlt Hw Hb) as Hc.
      rewrite vmax_assoc in *.
      apply (IH (fun x Hx => Hin x (or_intror Hx)) (vmax M va)).
      * unfold vlt. now rewrite Hb.
      * rewrite Hc, Heq. apply vmax_assoc.
      * exact Hf.
Qed.

Lemma min_loop_sound (game : Session State) (acts : list Action) :
  (forall a, In a acts -> In a (actions G (state game))) ->
  forall M m alpha beta0 v,
    vlt alpha (vmin beta0 m) = true ->
    vmin beta0 m = vmin beta0 M ->
    fold_children G rec_ref vmin (state game) acts M = Some (Ok v) ->
    exists v',
      min_loop G rec_ab game acts m alpha (vmin beta0 m) = Some (Ok v')
      /\ window_ok alpha beta0 v v'.
Proof.
  induction acts as [|a rest IH]; intros Hin M m alpha beta0 v Hlt Heq Hf;
    simpl in Hf |- *.
  - injection Hf as <-. exists m. split; [reflexivity|].
    now apply min_done.
  - destruct (next G (state game) a) as [s'|e] eqn:Hn; [|discriminate].
    destruct (rec_ref s') as [[va|e]|] eqn:Hr; try discriminate.
    unfold copy.
    rewrite (move_legal game a s' (Hin a (or_introl eq_refl)) Hn).
    destruct (rec_sound {| state := s'; current_player := player G s' |}
                        va alpha (vmin beta0 m) Hr Hlt) as (va' & Hab & Hw).
    rewrite Hab.
    destruct (vle (vmin (vmin beta0 m) va') alpha) eqn:Hb.
    + exists (vmin m va'). split; [reflexivity|].
      destruct (min_break _ _ _ _ Hlt Hw Hb) as [Hbva Hbva'].
      apply min_break_ok; [|exact Hbva'|].
      * clear - Hlt. value_cases.
      * apply fold_min_le in Hf. clear - Hf Hbva. value_cases.
    + pose proof (min_continue _ _ _ _ Hlt Hw Hb) as Hc.
      rewrite vmin_assoc in *.
      apply (IH (fun x Hx => Hin x (or_intror Hx)) (vmin M va)).
      * unfold vlt. now rewrite Hb.
      * rewrite Hc, Heq. apply vmin_assoc.
      * exact Hf.
Qed.
End Loops.

(** With any non-empty window, [_minimax] returns whenever plain minimax
    does, and its result is on the same side of the window. *)
Lemma minimax_sound (fuel : nat) :
  forall (g : Session State) depth mx alpha beta v,
    vlt alpha beta = true ->
    minimax_value G self fuel (state g) depth mx = Some (Ok v) ->
    exists v', _minimax G self fuel g depth mx alpha beta = Some (Ok v')
               /\ window_ok alpha beta v v'.
Proof.
  induction fuel as [|fuel IH]; intros g depth mx alpha beta v Hlt Hv;
    simpl in Hv |- *; unfold is_game_over;
    destruct (is_terminal G (state g) || depth_cutoff self depth) eqn:Hbase.
  - injection Hv as <-. eexists. split; [reflexivity|].
    unfold window_ok. repeat split; auto.
  - discriminate.
  - injection Hv as <-. eexists. split; [reflexivity|].
    unfold window_ok. repeat split; auto.
  - destruct mx.
    + pose proof (max_loop_sound
                    (fun g a b => _minimax G self fuel g (depth + 1) false a b)
                    (fun s' => minimax_value G self fuel s' (depth + 1) false)
                    (fun g v a b Hr Hl => IH g (depth + 1) false a b v Hl Hr)
                    g (actions G (state g)) (fun a Ha => Ha)
                    NegInf NegInf alpha beta v) as L.
      rewrite vmax_NegInf_r in L. now apply L.
    + pose proof (min_loop_sound
                    (fun g a b => _minimax G self fuel g (depth + 1) true a b)
                    (fun s' => minimax_value G self fuel s' (depth + 1) true)
                    (fun g v a b Hr Hl => IH g (depth + 1) true a b v Hl Hr)
                    g (actions G (state g)) (fun a Ha => Ha)
                    PosInf PosInf alpha beta v) as L.
      rewrite vmin_PosInf_r in L. now apply L.
Qed.

(** With the full window the two agree exactly. *)
Lemma minimax_full_window (fuel : nat) (g : Session State) depth mx v :
  minimax_value G self fuel (state g) depth mx = Some (Ok v) ->
  _minimax G self fuel g depth mx NegInf PosInf = Some (Ok v).
Proof.
  intros H.
  destruct (minimax_sound fuel g depth mx NegInf PosInf v eq_refl H)
    as (v' & Hv' & Hw).
  apply window_ok_full in Hw. now subst.
Qed.
End SearchTheory.

(** ** Search on well-behaved games *)

Section FuelFacts.
Context {State Action : Type} (G : Game State Action) (self : MinimaxAgent).

Lemma minimax_value_unfold (fuel : nat) (s : State) depth mx :
  minimax_value G self fuel s depth mx =
  if is_terminal G s || depth_cutoff self depth then
    Some (Ok (Fin (utility G s (player_id self))))
  else
    match fuel with
    | O => None
    | S fuel' =>
        if mx then
          fold_children G (fun s' => minimax_value G self fuel' s' (depth + 1) false)
                        vmax s (actions G s) NegInf
        else
          fold_children G (fun s' => minimax_value G self fuel' s' (depth + 1) true)
                        vmin s (actions G s) PosInf
    end.
Proof. destruct fuel; reflexivity. Qed.

Lemma fold_children_mono (rec1 rec2 : State -> option (result value)) pick s :
  (forall s' r, rec1 s' = Some r -> rec2 s' = Some r) ->
  forall acts acc r,
    fold_children G rec1 pick s acts acc = Some r ->
    fold_children G rec2 pick s acts acc = Some r.
Proof.
  intros Hrec acts. induction acts as [|a rest IH]; intros acc r H; simpl in *.
  - exact H.
  - destruct (next G s a) as [s'|e]; [|exact H].
    destruct (rec1 s') as [r1|] eqn:E1; [|discriminate].
    rewrite (Hrec _ _ E1). destruct r1; [now apply IH | exact H].
Qed.

(** More fuel never changes a result. *)
Lemma minimax_value_mono (fuel : nat) :
  forall s depth mx r,
    minimax_value G self fuel s depth mx = Some r ->
    minimax_value G self (S fuel) s depth mx = Some r.
Proof.
  induction fuel as [|fuel IH]; intros s depth mx r H;
    rewrite minimax_value_unfold in H; rewrite minimax_value_unfold;
    destruct (is_terminal G s || depth_cutoff self depth); try exact H.
  - discriminate.
  - destruct mx; eapply fold_children_mono; try exact H;
      intros; now apply IH.
Qed.

Lemma minimax_value_more (fuel k : nat) s depth mx r :
  minimax_value G self fuel s depth mx = Some r ->
  minimax_value G self (k + fuel) s depth mx = Some r.
Proof.
  intros H. induction k as [|k IH]; [exact H|].
  simpl. now apply minimax_value_mono.
Qed.

Lemma fold_children_fin (rec : State -> option (result value)) pick s :
  (forall x z, exists z', pick (Fin x) (Fin z) = Fin z') ->
  forall acts,
    (forall a, In a acts ->
               exists s' z, next G s a = Ok s' /\ rec s' = Some (Ok (Fin z))) ->
    forall x, exists z, fold_children G rec pick s acts (Fin x) = Some (Ok (Fin z)).
Proof.
  intros Hpick acts. induction acts as [|a rest IH]; intros Hall x; simpl.
  - now exists x.
  - destruct (Hall a (or_introl eq_refl)) as (s' & z & -> & ->).
    destruct (Hpick x z) as (z' & ->).
    apply IH. intros b Hb. apply Hall. now right.
Qed.
End FuelFacts.

Section WellBehavedTheory.
Context {State Action : Type} (G : Game State Action) (self : MinimaxAgent).
Variable W : WellBehaved G.

Lemma eqb_refl_of_wb (a : Action) : action_eqb G a a = true.
Proof. now apply (wb_eqb W). Qed.

Lemma reachable_inv (s : State) : reachable G s -> inv W s.
Proof.
  induction 1 as [|s a s' _ IH Hin Hn].
  - apply wb_init.
  - destruct (wb_step W s a IH Hin) as (s'' & Hn' & Hi & _).
    rewrite Hn in Hn'. injection Hn' as ->. exact Hi.
Qed.

(** Plain minimax returns a finite value once the fuel covers the
    measure of the state. *)
Lemma minimax_value_total (fuel : nat) :
  forall s depth mx,
    inv W s -> (measure W s <= fuel)%nat ->
    exists z, minimax_value G self fuel s depth mx = Some (Ok (Fin z)).
Proof.
  induction fuel as [|fuel IH]; intros s depth mx Hi Hm;
    rewrite minimax_value_unfold;
    destruct (is_terminal G s || depth_cutoff self depth) eqn:Hbase;
    try (eexists; reflexivity).
  - apply orb_false_iff in Hbase as [Ht _].
    pose proof (wb_live W s Hi Ht) as Hl.
    destruct (actions G s) as [|a l] eqn:Ea; [congruence|].
    destruct (wb_step W s a Hi) as (s' & _ & _ & Hlt); [rewrite Ea; now left|lia].
  - apply orb_false_iff in Hbase as [Ht _].
    pose proof (wb_live W s Hi Ht) as Hl.
    assert (Hchild : forall mx' a, In a (actions G s) ->
              exists s' z, next G s a = Ok s' /\
                minimax_value G self fuel s' (depth + 1) mx' = Some (Ok (Fin z))).
    { intros mx' a Ha. destruct (wb_step W s a Hi Ha) as (s' & Hn & Hi' & Hlt).
      destruct (IH s' (depth + 1) mx' Hi') as (z & Hz); [lia|].
      now exists s', z. }
    destruct (actions G s) as [|a l] eqn:Ea; [congruence|].
    destruct mx; simpl.
    + destruct (Hchild false a (or_introl eq_refl)) as (s' & z & -> & ->).
      simpl. apply fold_children_fin.
      * intros x y. exists (Z.max x y). apply vmax_Fin.
      * intros b Hb. apply Hchild. now right.
    + destruct (Hchild true a (or_introl eq_refl)) as (s' & z & -> & ->).
      simpl. apply fold_children_fin.
      * intros x y. exists (Z.min x y). apply vmin_Fin.
      * intros b Hb. apply Hchild. now right.
Qed.

(** Beyond the measure, the fuel does not matter. *)
Lemma minimax_value_stable (fuel : nat) s depth mx :
  inv W s -> (measure W s <= fuel)%nat ->
  minimax_value G self fuel s depth mx
  = minimax_value G self (measure W s) s depth mx.
Proof.
  intros Hi Hm.
  destruct (minimax_value_total (measure W s) s depth mx Hi (le_n _)) as (z & Hz).
  rewrite Hz.
  replace fuel with ((fuel - measure W s) + measure W s)%nat by lia.
  now apply minimax_value_more.
Qed.
End WellBehavedTheory.

(** ** The top-level choice *)

Section FirstMax.
Context {Action : Type}.
Implicit Types (avs : list (Action * value)) (a : Action) (v : value).

Lemma scan_first_max avs :
  forall a0 v0, exists a,
    scan (Some a0) v0 avs = Some a /\ is_first_max ((a0, v0) :: avs) a.
Proof.
  induction avs as [|[b w] rest IH]; intros a0 v0; simpl.
  - exists a0. split; [reflexivity|].
    exists [], v0, []. repeat split; intros x [].
  - destruct (vlt v0 w) eqn:E.
    + destruct (IH b w) as (a & Hs & l1 & v & l2 & Hd & H1 & H2).
      exists a. split; [exact Hs|].
      exists ((a0, v0) :: l1), v, l2. repeat split.
      * simpl. now rewrite Hd.
      * intros x [<-|Hx]; [|now apply H1]. simpl.
        destruct l1 as [|y l1]; simpl in Hd.
        -- inversion Hd; subst. exact E.
        -- inversion Hd; subst. specialize (H1 (b, w) (or_introl eq_refl)).
           simpl in H1. clear - E H1. value_cases.
      * exact H2.
    + destruct (IH a0 v0) as (a & Hs & l1 & v & l2 & Hd & H1 & H2).
      exists a. split; [exact Hs|].
      destruct l1 as [|y l1]; simpl in Hd.
      * inversion Hd; subst.
        exists [], v, ((b, w) :: l2). repeat split.
        -- intros x [].
        -- intros x [<-|Hx]; [|now apply H2]. simpl.
           clear - E. value_cases.
      * inversion Hd; subst.
        exists ((a0, v0) :: (b, w) :: l1), v, l2. repeat split.
        -- intros x [<-|[<-|Hx]].
           ++ apply (H1 (a0, v0)). now left.
           ++ specialize (H1 (a0, v0) (or_introl eq_refl)). simpl in *.
              clear - E H1. value_cases.
           ++ apply H1. now right.
        -- exact H2.
Qed.

Lemma fold_max_le avs v :
  (forall x, In x avs -> vle (snd x) v = true) ->
  vle (fold_right vmax NegInf (map snd avs)) v = true.
Proof.
  induction avs as [|x rest IH]; intros H; simpl.
  - reflexivity.
  - assert (H1 := H x (or_introl eq_refl)).
    assert (H2 := IH (fun y Hy => H y (or_intror Hy))).
    now apply vmax_lub.
Qed.

Lemma first_optimal_first_max avs a :
  is_first_max avs a -> first_optimal avs = Some a.
Proof.
  intros (l1 & v & l2 & -> & H1 & H2). unfold first_optimal.
  assert (Hbest : fold_right vmax NegInf (map snd (l1 ++ (a, v) :: l2)) = v).
  { clear - H1 H2. induction l1 as [|x l1 IH]; simpl.
    - now apply vmax_left, fold_max_le.
    - rewrite IH by (intros y Hy; apply H1; now right).
      apply vmax_right, H1. now left. }
  rewrite Hbest. clear Hbest H2.
  induction l1 as [|x l1 IH]; simpl.
  - assert (E : veqb v v = true) by now apply veqb_eq.
    now rewrite E.
  - assert (E : veqb (snd x) v = false).
    { specialize (H1 x (or_introl eq_refl)).
      destruct (veqb (snd x) v) eqn:E; [|reflexivity].
      apply veqb_eq in E. rewrite E, vlt_irrefl in H1. discriminate. }
    rewrite E. apply IH. intros y Hy. apply H1. now right.
Qed.

(** Two first maxima of one list are the same entry. *)
Lemma is_first_max_unique avs a a' :
  is_first_max avs a -> is_first_max avs a' -> a = a'.
Proof.
  intros H H'. apply first_optimal_first_max in H, H'. congruence.
Qed.
End FirstMax.

Section ChooseAction.
Context {State Action : Type} (G : Game State Action) (self : MinimaxAgent).
Variable W : WellBehaved G.

Lemma best_loop_scan (fuel : nat) (g : Session State) (acts : list Action) :
  (forall a, In a acts -> In a (actions G (state g))) ->
  forall avs best_action best_value,
    action_values G self fuel (state g) acts = Some (Ok avs) ->
    best_loop G (fun g' => _minimax G self fuel g' 0 false NegInf PosInf)
              g acts best_action best_value
    = Some (Ok (scan best_action best_value avs))
    /\ searched_values G self fuel g acts avs.
Proof.
  induction acts as [|a rest IH]; intros Hin avs ba bv Hav; simpl in Hav |- *.
  - injection Hav as <-. split; [reflexivity | constructor].
  - destruct (next G (state g) a) as [s'|e] eqn:Hn; [|discriminate].
    destruct (minimax_value G self fuel s' 0 false) as [[v|e]|] eqn:Hv;
      try discriminate.
    destruct (action_values G self fuel (state g) rest) as [[l|e]|] eqn:Hl;
      try discriminate.
    injection Hav as <-.
    pose proof (move_legal G (eqb_refl_of_wb G W) g a s'
                  (Hin a (or_introl eq_refl)) Hn) as Hm.
    pose proof (minimax_full_window G self (eqb_refl_of_wb G W) fuel
                  {| state := s'; current_player := player G s' |}
                  0 false v Hv) as Hab.
    unfold copy. rewrite Hm, Hab. simpl.
    assert (Hin' : forall b, In b rest -> In b (actions G (state g)))
      by (intros b Hb; apply Hin; now right).
    assert (Hsv : searched_values G self fuel g (a :: rest) ((a, v) :: l)).
    { constructor.
      - split; [reflexivity|]. eexists _, s'. split; [exact Hm | exact Hab].
      - now apply (IH Hin' l ba bv). }
    destruct (vlt bv v); (split; [now apply IH | exact Hsv]).
Qed.

Lemma action_values_total (fuel : nat) (s : State) (acts : list Action) :
  inv W s -> (measure W s <= fuel)%nat ->
  (forall a, In a acts -> In a (actions G s)) ->
  exists avs,
    action_values G self fuel s acts = Some (Ok avs)
    /\ map fst avs = acts
    /\ (forall x, In x avs -> exists z, snd x = Fin z).
Proof.
  intros Hi Hm. induction acts as [|a rest IH]; intros Hin; simpl.
  - exists []. repeat split. intros x [].
  - destruct (wb_step W s a Hi (Hin a (or_introl eq_refl))) as (s' & Hn & Hi' & Hlt).
    rewrite Hn.
    destruct (minimax_value_total G self W fuel s' 0 false Hi') as (z & Hz); [lia|].
    rewrite Hz.
    destruct IH as (l & Hl & Hf & Hfin); [intros b Hb; apply Hin; now right|].
    rewrite Hl. exists ((a, Fin z) :: l). repeat split.
    + simpl. now rewrite Hf.
    + intros x [<-|Hx]; [now exists z | now apply Hfin].
Qed.

Lemma action_values_stable (fuel : nat) (s : State) (acts : list Action) :
  inv W s -> (measure W s <= fuel)%nat ->
  (forall a, In a acts -> In a (actions G s)) ->
  action_values G self fuel s acts = action_values G self (measure W s) s acts.
Proof.
  intros Hi Hm. induction acts as [|a rest IH]; intros Hin; simpl.
  - reflexivity.
  - destruct (wb_step W s a Hi (Hin a (or_introl eq_refl))) as (s' & Hn & Hi' & Hlt).
    rewrite Hn.
    rewrite (minimax_value_stable G self W fuel s') by (auto; lia).
    rewrite (minimax_value_stable G self W (measure W s) s') by (auto; lia).
    rewrite IH by (intros b Hb; apply Hin; now right).
    reflexivity.
Qed.

(** [choose_action] on a well-behaved game: it returns the first action
    of largest value, which is also the choice of plain minimax, and
    the fuel does not matter once it covers the measure. *)
Lemma choose_action_correct (g : Session State) :
  inv W (state g) -> actions G (state g) <> [] ->
  exists a avs,
    In a (actions G (state g)) /\
    map fst avs = actions G (state g) /\
    is_first_max avs a /\
    forall fuel, (measure W (state g) <= fuel)%nat ->
      choose_action G self fuel g = Some (Ok (Some a)) /\
      unpruned_choice G self fuel (state g) = Some (Ok (Some a)) /\
      action_values G self fuel (state g) (actions G (state g)) = Some (Ok avs) /\
      searched_values G self fuel g (actions G (state g)) avs.
Proof.
  intros Hi Hne.
  destruct (action_values_total (measure W (state g)) (state g)
              (actions G (state g)) Hi (le_n _) (fun a H => H))
    as (avs & Hav & Hfst & Hfin).
  destruct avs as [|[a1 v1] rest].
  { simpl in Hfst. congruence. }
  destruct (Hfin (a1, v1) (or_introl eq_refl)) as (z1 & Hz1). simpl in Hz1. subst v1.
  destruct (scan_first_max rest a1 (Fin z1)) as (a & Hscan & Hfm).
  assert (Hscan0 : scan None NegInf ((a1, Fin z1) :: rest) = Some a)
    by (simpl; exact Hscan).
  exists a, ((a1, Fin z1) :: rest).
  split; [|split; [exact Hfst|split; [exact Hfm|]]].
  - rewrite <- Hfst. destruct Hfm as (l1 & v & l2 & -> & _).
    rewrite map_app. apply in_or_app. right. now left.
  - intros fuel Hfuel.
    assert (Hav' : action_values G self fuel (state g) (actions G (state g))
                   = Some (Ok ((a1, Fin z1) :: rest)))
      by (rewrite action_values_stable; auto).
    destruct (best_loop_scan fuel g (actions G (state g)) (fun a H => H)
                _ None NegInf Hav') as [Hbl Hsv].
    rewrite Hscan0 in Hbl.
    split; [|split; [|split; [exact Hav' | exact Hsv]]].
    + unfold choose_action, choose_action_with.
      destruct (actions G (state g)) as [|x [|y r]] eqn:Ea.
      * congruence.
      * destruct rest; [|discriminate]. simpl in Hfst, Hscan.
        congruence.
      * exact Hbl.
    + unfold unpruned_choice. rewrite Hav'.
      now rewrite (first_optimal_first_max _ _ Hfm).
Qed.
End ChooseAction.

(** ** Facts about the array operations *)

Section ArrayFacts.
Lemma length_list_set {A : Type} (l : list A) (i : nat) (v : A) :
  length (np.list_set l i v) = length l.
Proof.
  revert i. induction l as [|h t IH]; intros [|i]; simpl; auto.
Qed.

Lemma nth_list_set {A : Type} (l : list A) (i j : nat) (v d : A) :
  (i < length l)%nat ->
  nth j (np.list_set l i v) d = if (j =? i)%nat then v else nth j l d.
Proof.
  revert i j. induction l as [|h t IH]; intros i j Hi; simpl in Hi; [lia|].
  destruct i as [|i], j as [|j]; simpl; auto.
  apply IH. lia.
Qed.

Lemma cell_set_cell (b : list (list Z)) (r c r' c' : nat) (v : Z) :
  (r < length b)%nat -> (c < length (nth r b []))%nat ->
  np.cell (np.set_cell b r c v) r' c'
  = if ((r' =? r) && (c' =? c))%nat then v else np.cell b r' c'.
Proof.
  intros Hr Hc. unfold np.cell, np.set_cell.
  rewrite nth_list_set by exact Hr.
  destruct (Nat.eqb_spec r' r) as [->|Hne]; simpl; [|reflexivity].
  now rewrite nth_list_set by exact Hc.
Qed.

Lemma Forall_list_set {A : Type} (P : A -> Prop) (l : list A) (i : nat) (v : A) :
  Forall P l -> P v -> Forall P (np.list_set l i v).
Proof.
  intros Hl Hv. revert i. induction Hl as [|h t Hh Ht IH]; intros [|i]; simpl;
    constructor; auto.
Qed.

Lemma Forall_nth_default {A : Type} (P : A -> Prop) (l : list A) (i : nat) (d : A) :
  Forall P l -> P d -> P (nth i l d).
Proof.
  intros Hl Hd. revert i. induction Hl as [|h t Hh Ht IH]; intros [|i]; simpl; auto.
Qed.

Lemma list_set_overflow {A : Type} (l : list A) (i : nat) (v : A) :
  (length l <= i)%nat -> np.list_set l i v = l.
Proof.
  revert i. induction l as [|h t IH]; intros [|i] H; simpl in *; auto; [lia|].
  f_equal. apply IH. lia.
Qed.

Lemma shape_set_cell (n m : nat) (b : list (list Z)) (r c : nat) (v : Z) :
  shape n m b -> shape n m (np.set_cell b r c v).
Proof.
  intros [Hn Hm]. unfold np.set_cell.
  destruct (Nat.lt_ge_cases r (length b)) as [Hr|Hr].
  - split; [now rewrite length_list_set|].
    apply Forall_list_set; [exact Hm|]. rewrite length_list_set.
    rewrite Forall_forall in Hm. apply Hm. now apply nth_In.
  - rewrite list_set_overflow by exact Hr. now split.
Qed.

Lemma cells_ok_set_cell (b : list (list Z)) (r c : nat) (v : Z) :
  cells_ok b -> v = 0 \/ v = 1 \/ v = -1 -> cells_ok (np.set_cell b r c v).
Proof.
  intros Hb Hv. unfold np.set_cell, cells_ok.
  apply Forall_list_set; [exact Hb|].
  apply Forall_list_set; [|exact Hv].
  apply Forall_nth_default; [exact Hb | constructor].
Qed.

Lemma cells_ok_cell (b : list (list Z)) (r c : nat) :
  cells_ok b -> -1 <= np.cell b r c <= 1.
Proof.
  intros Hb. unfold np.cell.
  assert (H : (fun x => x = 0 \/ x = 1 \/ x = -1) (nth c (nth r b []) 0)).
  { apply Forall_nth_default; [|now left].
    apply (Forall_nth_default (Forall (fun x => x = 0 \/ x = 1 \/ x = -1)));
      [exact Hb | constructor]. }
  simpl in H. lia.
Qed.

(** *** Empty positions *)

Lemma where_zero_from_length (i j : nat) (a : list Z) :
  length (np.where_zero_from i a) = length (np.where_zero_from j a).
Proof.
  revert i j. induction a as [|x t IH]; intros i j; simpl; [reflexivity|].
  rewrite !length_app, (IH (S i) (S j)). now destruct (x =? 0).
Qed.

Lemma where_zero_from_In (i c : nat) (a : list Z) :
  In c (np.where_zero_from i a)
  <-> (i <= c)%nat /\ (c - i < length a)%nat /\ nth (c - i) a 0 = 0.
Proof.
  revert i. induction a as [|x t IH]; intros i; simpl.
  - split; [intros [] | intros (_ & H & _); lia].
  - rewrite in_app_iff, IH. split.
    + intros [H|(H1 & H2 & H3)].
      * destruct (Z.eqb_spec x 0) as [->|]; [|destruct H].
        destruct H as [<-|[]]. rewrite Nat.sub_diag. repeat split; lia.
      * replace (c - i)%nat with (S (c - S i)) by lia.
        repeat split; try lia; try exact H3.
    + intros (H1 & H2 & H3).
      destruct (Nat.eq_dec c i) as [->|Hne].
      * left. rewrite Nat.sub_diag in H3. subst x. now left.
      * right. replace (c - i)%nat with (S (c - S i)) in H2, H3 by lia.
        repeat split; try lia; try exact H3.
Qed.

Lemma where_zero_In (c : nat) (a : list Z) :
  In c (np.where_zero a) <-> (c < length a)%nat /\ nth c a 0 = 0.
Proof.
  unfold np.where_zero. rewrite where_zero_from_In, Nat.sub_0_r.
  split; [intros (_ & H); exact H | intros H; split; [lia | exact H]].
Qed.

Lemma where_zero_set (a : list Z) (c i : nat) (v : Z) :
  (c < length a)%nat -> nth c a 0 = 0 -> v <> 0 ->
  S (length (np.where_zero_from i (np.list_set a c v)))
  = length (np.where_zero_from i a).
Proof.
  revert c i. induction a as [|x t IH]; intros c i Hc Hz Hv; simpl in *; [lia|].
  destruct c as [|c]; simpl.
  - subst x. simpl. destruct (Z.eqb_spec v 0); [contradiction|reflexivity].
  - rewrite !length_app, <- (IH c (S i)) by (auto; lia). lia.
Qed.

Lemma argwhere_zero_from_length (i j : nat) (b : list (list Z)) :
  length (np.argwhere_zero_from i b) = length (np.argwhere_zero_from j b).
Proof.
  revert i j. induction b as [|row t IH]; intros i j; simpl; [reflexivity|].
  rewrite !length_app, !length_map, (IH (S i) (S j)). reflexivity.
Qed.

Lemma argwhere_zero_from_In (i r c : nat) (b : list (list Z)) :
  In (r, c) (np.argwhere_zero_from i b)
  <-> (i <= r)%nat /\ (r - i < length b)%nat
      /\ (c < length (nth (r - i) b []))%nat /\ np.cell b (r - i) c = 0.
Proof.
  unfold np.cell.
  revert i. induction b as [|row t IH]; intros i; simpl.
  - split; [intros [] | intros (_ & H & _); lia].
  - rewrite in_app_iff, IH, in_map_iff. split.
    + intros [(x & Hx & Hin)|(H1 & H2 & H3 & H4)].
      * injection Hx as <- <-. apply where_zero_In in Hin.
        rewrite Nat.sub_diag. repeat split; try lia; apply Hin.
      * replace (r - i)%nat with (S (r - S i)) by lia.
        repeat split; try lia; assumption.
    + intros (H1 & H2 & H3 & H4).
      destruct (Nat.eq_dec r i) as [->|Hne].
      * left. exists c. split; [reflexivity|]. rewrite Nat.sub_diag in *.
        apply where_zero_In. now split.
      * right. replace (r - i)%nat with (S (r - S i)) in H2, H3, H4 by lia.
        repeat split; try lia; assumption.
Qed.

Lemma argwhere_zero_In (r c : nat) (b : list (list Z)) :
  In (r, c) (np.argwhere_zero b)
  <-> (r < length b)%nat /\ (c < length (nth r b []))%nat /\ np.cell b r c = 0.
Proof.
  unfold np.argwhere_zero. rewrite argwhere_zero_from_In, Nat.sub_0_r.
  split; [intros (_ & H); exact H | intros H; split; [lia | exact H]].
Qed.

Lemma argwhere_zero_set (b : list (list Z)) (r c i : nat) (v : Z) :
  (r < length b)%nat -> (c < length (nth r b []))%nat ->
  np.cell b r c = 0 -> v <> 0 ->
  S (length (np.argwhere_zero_from i (np.set_cell b r c v)))
  = length (np.argwhere_zero_from i b).
Proof.
  unfold np.cell, np.set_cell.
  revert r i. induction b as [|row t IH]; intros r i Hr Hc Hz Hv; simpl in *; [lia|].
  destruct r as [|r]; simpl.
  - rewrite !length_app, !length_map. unfold np.where_zero.
    rewrite <- (where_zero_set row c 0 v) by assumption. lia.
  - rewrite !length_app, <- (IH r (S i)) by (auto; lia). lia.
Qed.

Lemma empty_cells_set_cell (b : list (list Z)) (r c : nat) (v : Z) :
  (r < length b)%nat -> (c < length (nth r b []))%nat ->
  np.cell b r c = 0 -> v <> 0 ->
  (empty_cells (np.set_cell b r c v) < empty_cells b)%nat.
Proof.
  intros. unfold empty_cells, np.argwhere_zero.
  rewrite <- (argwhere_zero_set b r c 0 v) by assumption. lia.
Qed.

Lemma any_zero_argwhere (b : list (list Z)) :
  np.any_zero b = true -> np.argwhere_zero b <> [].
Proof.
  unfold np.any_zero. intros H.
  apply existsb_exists in H as (row & Hrow & H).
  apply existsb_exists in H as (x & Hx & E). apply Z.eqb_eq in E. subst x.
  destruct (In_nth _ _ [] Hrow) as (r & Hr & <-).
  destruct (In_nth _ _ 0 Hx) as (c & Hc & Ec).
  assert (Hin : In (r, c) (np.argwhere_zero b))
    by (apply argwhere_zero_In; repeat split; assumption).
  intros E. rewrite E in Hin. destruct Hin.
Qed.

Lemma index_of_nat (len i : nat) :
  (i < len)%nat -> np.index len (Z.of_nat i) = Ok i.
Proof.
  intros H. unfold np.index.
  destruct (Z.leb_spec 0 (Z.of_nat i)); [|lia].
  destruct (Z.ltb_spec (Z.of_nat i) (Z.of_nat len)); [|lia].
  simpl. now rewrite Nat2Z.id.
Qed.
End ArrayFacts.

(** ** Line sums detect exactly the fully occupied lines *)

Section LineSums.
Lemma zsum_bounds (l : list Z) :
  Forall (fun x => -1 <= x <= 1) l ->
  - Z.of_nat (length l) <= np.zsum l <= Z.of_nat (length l).
Proof.
  induction 1 as [|x t Hx Ht IH]; simpl np.zsum; simpl length; lia.
Qed.

(** A list of [L] cells from [{-1, 0, 1}] sums to [p * L] exactly when
    all of them are [p]. *)
Lemma zsum_all (p : Z) (l : list Z) :
  p = 1 \/ p = -1 ->
  Forall (fun x => -1 <= x <= 1) l ->
  (np.zsum l = p * Z.of_nat (length l) <-> Forall (fun x => x = p) l).
Proof.
  intros Hp. induction 1 as [|x t Hx Ht IH].
  - simpl. split; [constructor | lia].
  - pose proof (zsum_bounds t Ht) as Hb.
    simpl np.zsum. simpl length. rewrite Nat2Z.inj_succ. split.
    + intros Hs. assert (x = p /\ np.zsum t = p * Z.of_nat (length t)) as [-> Ht']
        by (destruct Hp; subst p; lia).
      constructor; [reflexivity | now apply IH].
    + intros Hall. inversion Hall as [|? ? -> Hall']; subst.
      apply IH in Hall'. lia.
Qed.

Lemma occupies_line_sum (b : list (list Z)) (p : Z) (line : list (nat * nat)) :
  cells_ok b -> p = 1 \/ p = -1 ->
  (p * Z.of_nat (length line) =? line_sum b line) = occupies b p line.
Proof.
  intros Hb Hp. unfold line_sum, occupies.
  assert (Hcells : Forall (fun x => -1 <= x <= 1)
                          (map (fun rc => np.cell b (fst rc) (snd rc)) line)).
  { apply Forall_forall. intros x Hx. apply in_map_iff in Hx as (rc & <- & _).
    now apply cells_ok_cell. }
  pose proof (zsum_all p _ Hp Hcells) as Hz. rewrite length_map in Hz.
  destruct (forallb _ line) eqn:E.
  - apply Z.eqb_eq. symmetry. apply Hz. apply Forall_forall.
    intros x Hx. apply in_map_iff in Hx as (rc & <- & Hrc).
    rewrite forallb_forall in E. apply Z.eqb_eq. now apply E.
  - apply Z.eqb_neq. intros Hs. symmetry in Hs. apply Hz in Hs.
    assert (forallb (fun rc => np.cell b (fst rc) (snd rc) =? p) line = true);
      [|congruence].
    apply forallb_forall. intros rc Hrc. apply Z.eqb_eq.
    rewrite Forall_forall in Hs. apply Hs. apply in_map_iff. now exists rc.
Qed.

Lemma lines_length (n len : nat) (line : list (nat * nat)) :
  In line (lines n len) -> length line = len.
Proof.
  unfold lines. rewrite !in_app_iff, !in_map_iff.
  intros [H|[H|[H|H]]]; destruct H as (rc & <- & _);
    unfold horizontal, vertical, diagonal, antidiagonal;
    now rewrite length_map, length_seq.
Qed.

Lemma existsb_map_ext {A B : Type} (f : B -> bool) (g : A -> B) (h : A -> bool)
    (l : list A) :
  (forall x, In x l -> f (g x) = h x) ->
  existsb f (map g l) = existsb h l.
Proof.
  induction l as [|x t IH]; intros H; simpl; [reflexivity|].
  rewrite H by now left. f_equal. apply IH. intros y Hy. apply H. now right.
Qed.

(** On a board of cells from [{-1, 0, 1}], reading the winner off the
    sums of a family of lines of [len] cells is reading it off the
    occupied lines. *)
Lemma sum_winner_lines (len : nat) (b : list (list Z)) (ls : list (list (nat * nat))) :
  cells_ok b -> (forall line, In line ls -> length line = len) ->
  sum_winner (Z.of_nat len) (map (line_sum b) ls)
  = if existsb (occupies b 1) ls then Some 1
    else if existsb (occupies b (-1)) ls then Some (-1)
    else None.
Proof.
  intros Hb Hlen. unfold sum_winner.
  rewrite (existsb_map_ext _ _ (occupies b 1)).
  2:{ intros line Hl. rewrite <- (occupies_line_sum b 1 line Hb) by now left.
      rewrite (Hlen line Hl). f_equal; try lia. }
  rewrite (existsb_map_ext _ _ (occupies b (-1))).
  2:{ intros line Hl. rewrite <- (occupies_line_sum b (-1) line Hb) by now right.
      rewrite (Hlen line Hl). f_equal; try lia. }
  reflexivity.
Qed.

(** The shape of a board gives its cells names. *)
Lemma shape_3_3 (b : list (list Z)) :
  shape 3 3 b ->
  exists a0 a1 a2 b0 b1 b2 c0 c1 c2,
    b = [[a0; a1; a2]; [b0; b1; b2]; [c0; c1; c2]].
Proof.
  intros [Hn Hm].
  destruct b as [|r0 [|r1 [|r2 [|? ?]]]]; try discriminate.
  inversion Hm as [|? ? H0 Hm1]; subst. inversion Hm1 as [|? ? H1 Hm2]; subst.
  inversion Hm2 as [|? ? H2 _]; subst.
  destruct r0 as [|? [|? [|? [|? ?]]]]; try discriminate.
  destruct r1 as [|? [|? [|? [|? ?]]]]; try discriminate.
  destruct r2 as [|? [|? [|? [|? ?]]]]; try discriminate.
  repeat eexists.
Qed.

Lemma shape_4_4 (b : list (list Z)) :
  shape 4 4 b ->
  exists a0 a1 a2 a3 b0 b1 b2 b3 c0 c1 c2 c3 d0 d1 d2 d3,
    b = [[a0; a1; a2; a3]; [b0; b1; b2; b3]; [c0; c1; c2; c3]; [d0; d1; d2; d3]].
Proof.
  intros [Hn Hm].
  destruct b as [|r0 [|r1 [|r2 [|r3 [|? ?]]]]]; try discriminate.
  inversion Hm as [|? ? H0 Hm1]; subst. inversion Hm1 as [|? ? H1 Hm2]; subst.
  inversion Hm2 as [|? ? H2 Hm3]; subst. inversion Hm3 as [|? ? H3 _]; subst.
  destruct r0 as [|? [|? [|? [|? [|? ?]]]]]; try discriminate.
  destruct r1 as [|? [|? [|? [|? [|? ?]]]]]; try discriminate.
  destruct r2 as [|? [|? [|? [|? [|? ?]]]]]; try discriminate.
  destruct r3 as [|? [|? [|? [|? [|? ?]]]]]; try discriminate.
  repeat eexists.
Qed.

(** The sums that numpy computes on a square board are the sums of its
    lines, in the order of [lines]. *)
Lemma square_sums_3 (b : list (list Z)) :
  shape 3 3 b ->
  np.sum_axis1 b ++ np.sum_axis0 b ++ [np.trace b] ++ [np.trace (np.fliplr b)]
  = map (line_sum b) (lines 3 3).
Proof.
  intros H. destruct (shape_3_3 b H)
    as (a0 & a1 & a2 & b0 & b1 & b2 & c0 & c1 & c2 & ->).
  reflexivity.
Qed.

Lemma square_sums_4 (b : list (list Z)) :
  shape 4 4 b ->
  np.sum_axis1 b ++ np.sum_axis0 b ++ [np.trace b] ++ [np.trace (np.fliplr b)]
  = map (line_sum b) (lines 4 4).
Proof.
  intros H. destruct (shape_4_4 b H)
    as (a0 & a1 & a2 & a3 & b0 & b1 & b2 & b3 & c0 & c1 & c2 & c3
        & d0 & d1 & d2 & d3 & ->).
  reflexivity.
Qed.

Lemma ttt_check_winner_lines (b : list (list Z)) :
  shape 3 3 b -> cells_ok b ->
  TicTacToeGame._check_winner b = winner_by_lines 3 3 b.
Proof.
  intros Hs Hc. unfold TicTacToeGame._check_winner.
  rewrite (square_sums_3 b Hs).
  exact (sum_winner_lines 3 b (lines 3 3) Hc (lines_length 3 3)).
Qed.

Lemma c4_check_4x4_winner_lines (b : list (list Z)) :
  shape 4 4 b -> cells_ok b ->
  ConnectFourGame._check_4x4_winner b = winner_by_lines 4 4 b.
Proof.
  intros Hs Hc. unfold ConnectFourGame._check_4x4_winner.
  rewrite (square_sums_4 b Hs).
  exact (sum_winner_lines 4 b (lines 4 4) Hc (lines_length 4 4)).
Qed.
End LineSums.

(** ** The four variants are well behaved *)

Section BoardMoves.
Lemma occupies_set_cell_other (b : list (list Z)) (r c : nat) (p q : Z)
    (line : list (nat * nat)) :
  (r < length b)%nat -> (c < length (nth r b []))%nat -> p <> q ->
  occupies (np.set_cell b r c p) q line = true -> occupies b q line = true.
Proof.
  intros Hr Hc Hpq H. unfold occupies in *. rewrite forallb_forall in *.
  intros rc Hrc. specialize (H rc Hrc).
  rewrite cell_set_cell in H by assumption.
  destruct ((fst rc =? r) && (snd rc =? c))%nat; [|exact H].
  apply Z.eqb_eq in H. contradiction.
Qed.

Lemma has_line_set_cell_other (n len : nat) (b : list (list Z)) (r c : nat) (p q : Z) :
  (r < length b)%nat -> (c < length (nth r b []))%nat -> p <> q ->
  has_line n len b q = false ->
  has_line n len (np.set_cell b r c p) q = false.
Proof.
  intros Hr Hc Hpq H.
  destruct (has_line n len (np.set_cell b r c p) q) eqn:E; [|reflexivity].
  unfold has_line in *. apply existsb_exists in E as (line & Hl & Ho).
  apply occupies_set_cell_other in Ho; try assumption.
  assert (existsb (occupies b q) (lines n len) = true)
    by (apply existsb_exists; now exists line).
  congruence.
Qed.

Lemma winner_by_lines_None (n len : nat) (b : list (list Z)) :
  winner_by_lines n len b = None ->
  has_line n len b 1 = false /\ has_line n len b (-1) = false.
Proof.
  unfold winner_by_lines.
  destruct (has_line n len b 1), (has_line n len b (-1)); intros; try discriminate.
  now split.
Qed.

Lemma pair_eqb_eq (a b : Z * Z) :
  (fst a =? fst b) && (snd a =? snd b) = true <-> a = b.
Proof.
  destruct a as [a1 a2], b as [b1 b2]. simpl.
  rewrite andb_true_iff, !Z.eqb_eq. split.
  - now intros [-> ->].
  - intros E. injection E as -> ->. now split.
Qed.
End BoardMoves.

Section TicTacToeFacts.
Import TicTacToeGame.

Lemma ttt_not_terminal (b : Board) (p : Z) :
  shape 3 3 b -> cells_ok b -> is_terminal (b, p) = false ->
  has_line 3 3 b 1 = false /\ has_line 3 3 b (-1) = false
  /\ np.any_zero b = true.
Proof.
  intros Hs Hc Ht. unfold is_terminal in Ht.
  rewrite (ttt_check_winner_lines b Hs Hc) in Ht.
  destruct (winner_by_lines 3 3 b) eqn:E; [discriminate|].
  apply winner_by_lines_None in E as [E1 E2].
  apply negb_false_iff in Ht. now repeat split.
Qed.

Lemma ttt_actions_In (s : State) (a : Action) :
  In a (actions s) ->
  is_terminal s = false /\
  exists r c, a = (Z.of_nat r, Z.of_nat c) /\
    (r < length (fst s))%nat /\ (c < length (nth r (fst s) []))%nat /\
    np.cell (fst s) r c = 0.
Proof.
  destruct s as [b p]. unfold actions.
  destruct (is_terminal (b, p)) eqn:Ht; [intros []|].
  intros H. split; [reflexivity|].
  apply in_map_iff in H as ([r c] & <- & Hin).
  apply argwhere_zero_In in Hin. exists r, c. simpl. now split.
Qed.

Lemma ttt_next_legal (b : Board) (p : Z) (r c : nat) :
  (r < length b)%nat -> (c < length (nth r b []))%nat -> np.cell b r c = 0 ->
  next (b, p) (Z.of_nat r, Z.of_nat c) = Ok (np.set_cell b r c p, - p).
Proof.
  intros Hr Hc Hz. unfold next, np.getitem2, np.setitem2.
  rewrite (index_of_nat _ _ Hr). simpl.
  rewrite (index_of_nat _ _ Hc). simpl.
  rewrite Hz. simpl.
  reflexivity.
Qed.

Lemma ttt_step (s : State) (a : Action) :
  ttt_inv s -> In a (actions s) ->
  exists s', next s a = Ok s' /\ ttt_inv s' /\ (ttt_measure s' < ttt_measure s)%nat.
Proof.
  destruct s as [b p]. intros (Hs & Hc & Hp & Hl) Hin. cbn [fst snd] in *.
  apply ttt_actions_In in Hin as (Ht & r & c & -> & Hr & Hcc & Hz).
  cbn [fst snd] in *.
  destruct (ttt_not_terminal b p Hs Hc Ht) as (H1 & H2 & _).
  exists (np.set_cell b r c p, - p). split; [now apply ttt_next_legal|].
  split.
  - unfold ttt_inv; cbn [fst snd].
    split; [now apply shape_set_cell|].
    split; [apply cells_ok_set_cell; [exact Hc | lia]|].
    split; [lia|].
    apply has_line_set_cell_other; try assumption; [lia|].
      destruct Hp as [-> | ->]; assumption.
  - unfold ttt_measure; cbn [fst snd]. apply empty_cells_set_cell; try assumption. lia.
Qed.

Lemma ttt_init : ttt_inv initial_state.
Proof.
  unfold ttt_inv, initial_state; cbn [fst snd].
  split; [split; [reflexivity | repeat constructor]|].
  split; [repeat constructor; now left|].
  split; [now left | reflexivity].
Qed.

Lemma ttt_live (s : State) :
  ttt_inv s -> is_terminal s = false -> actions s <> [].
Proof.
  destruct s as [b p]. intros (Hs & Hc & _) Ht. cbn [fst snd] in *.
  destruct (ttt_not_terminal b p Hs Hc Ht) as (_ & _ & Hz).
  unfold actions. rewrite Ht.
  apply any_zero_argwhere in Hz.
  destruct (np.argwhere_zero b); [congruence | discriminate].
Qed.

Lemma ttt_dead (s : State) : is_terminal s = true -> actions s = [].
Proof. destruct s as [b p]. intros Ht. unfold actions. now rewrite Ht. Qed.

Definition ttt_wb : WellBehaved game :=
  Build_WellBehaved _ _ game ttt_inv ttt_measure
    pair_eqb_eq ttt_init ttt_step ttt_live ttt_dead.
End TicTacToeFacts.

Section HalvingFacts.
Import HalvingGame.

Lemma halving_actions_In (s : State) (a : Action) :
  In a (actions s) ->
  fst s <> 0 /\ (a = "subtract"%string \/ a = "halve"%string).
Proof.
  destruct s as [n p]. unfold actions, is_terminal. cbn [fst].
  destruct (Z.eqb_spec n 0) as [->|Hn]; [intros []|].
  intros [<-|[<-|[]]]; auto.
Qed.

Lemma halving_step (s : State) (a : Action) :
  halving_inv s -> In a (actions s) ->
  exists s', next s a = Ok s' /\ halving_inv s'
             /\ (halving_measure s' < halving_measure s)%nat.
Proof.
  destruct s as [n p]. unfold halving_inv, halving_measure. cbn [fst].
  intros Hn Hin. apply halving_actions_In in Hin as [Hne [-> | ->]];
    cbn [fst] in Hne.
  - exists (n - 1, - p). cbn [fst]. repeat split; [lia | lia].
  - exists (n / 2, - p). cbn [fst].
    assert (0 <= n / 2) by (apply Z.div_pos; lia).
    assert (n / 2 < n) by (apply Z.div_lt; lia).
    repeat split; [lia | lia].
Qed.

Lemma halving_live (s : State) :
  halving_inv s -> is_terminal s = false -> actions s <> [].
Proof. intros _ Ht. unfold actions. rewrite Ht. discriminate. Qed.

Lemma halving_dead (s : State) : is_terminal s = true -> actions s = [].
Proof. intros Ht. unfold actions. now rewrite Ht. Qed.

Definition halving_wb (starting_number : Z) (H : 0 <= starting_number)
  : WellBehaved (game starting_number) :=
  Build_WellBehaved _ _ (game starting_number) halving_inv halving_measure
    String.eqb_eq H halving_step halving_live halving_dead.
End HalvingFacts.

Section NimFacts.
Import NimGame.

Lemma arange_In (lo hi k : Z) : In k (np.arange lo hi) <-> lo <= k < hi.
Proof.
  unfold np.arange. rewrite in_map_iff. split.
  - intros (i & <- & Hi). apply in_seq in Hi. lia.
  - intros H. exists (Z.to_nat (k - lo)). split; [lia|]. apply in_seq. lia.
Qed.

Lemma actions_from_In (j : nat) (piles : list Z) (i k : Z) :
  In (i, k) (actions_from j piles)
  <-> exists idx, i = Z.of_nat (j + idx) /\ (idx < length piles)%nat
                  /\ 1 <= k <= nth idx piles 0.
Proof.
  revert j. induction piles as [|pile rest IH]; intros j; simpl.
  - split; [intros [] | intros (idx & _ & H & _); lia].
  - rewrite in_app_iff, IH. split.
    + intros [H|(idx & -> & Hi & Hk)].
      * destruct (0 <? pile); [|destruct H].
        apply in_map_iff in H as (k' & E & Hk'). injection E as <- <-.
        apply arange_In in Hk'. exists 0%nat. rewrite Nat.add_0_r.
        repeat split; lia.
      * exists (S idx). repeat split; try lia; try exact (proj2 Hk).
    + intros (idx & -> & Hi & Hk). destruct idx as [|idx].
      * left. destruct (Z.ltb_spec 0 pile); [|lia].
        apply in_map_iff. exists k. rewrite Nat.add_0_r. split; [reflexivity|].
        apply arange_In. lia.
      * right. exists idx. repeat split; try lia; try exact (proj2 Hk).
Qed.

Lemma nim_actions_In (s : State) (i k : Z) :
  In (i, k) (actions s)
  <-> 0 <= i < Z.of_nat (length (fst s))
      /\ 1 <= k <= nth (Z.to_nat i) (fst s) 0.
Proof.
  destruct s as [piles p]. unfold actions. cbn [fst].
  rewrite actions_from_In. split.
  - intros (idx & -> & Hi & Hk). simpl. rewrite Nat2Z.id. split; [lia | exact Hk].
  - intros [Hi Hk]. exists (Z.to_nat i). repeat split; try lia; try exact (proj2 Hk).
Qed.

Lemma zsum_list_set (l : list Z) (i : nat) (v : Z) :
  (i < length l)%nat ->
  np.zsum (np.list_set l i v) = np.zsum l - nth i l 0 + v.
Proof.
  revert i. induction l as [|x t IH]; intros [|i] Hi; simpl in *; try lia.
  rewrite IH by lia. lia.
Qed.

Lemma zsum_nonneg (l : list Z) : Forall (fun x => 0 <= x) l -> 0 <= np.zsum l.
Proof. induction 1; simpl; lia. Qed.

Lemma zsum_ge_nth (l : list Z) (i : nat) :
  Forall (fun x => 0 <= x) l -> nth i l 0 <= np.zsum l.
Proof.
  intros H. revert i. induction H as [|x t Hx Ht IH]; intros [|i]; simpl; try lia.
  - pose proof (zsum_nonneg t Ht). lia.
  - specialize (IH i). lia.
Qed.

Lemma nim_next_legal (piles : list Z) (p i k : Z) :
  0 <= i < Z.of_nat (length piles) -> 1 <= k <= nth (Z.to_nat i) piles 0 ->
  next (piles, p) (i, k)
  = Ok (np.list_set piles (Z.to_nat i) (nth (Z.to_nat i) piles 0 - k), - p).
Proof.
  intros Hi Hk. unfold next.
  destruct (Z.ltb_spec i 0); [lia|].
  destruct (Z.leb_spec (Z.of_nat (length piles)) i); [lia|]. simpl.
  destruct (Z.ltb_spec k 1); [lia|].
  destruct (Z.ltb_spec (nth (Z.to_nat i) piles 0) k); [lia|]. reflexivity.
Qed.

Lemma nim_step (s : State) (a : Action) :
  nim_inv s -> In a (actions s) ->
  exists s', next s a = Ok s' /\ nim_inv s' /\ (nim_measure s' < nim_measure s)%nat.
Proof.
  destruct s as [piles p], a as [i k]. unfold nim_inv, nim_measure.
  intros Hinv Hin. apply nim_actions_In in Hin as [Hi Hk]. cbn [fst] in *.
  eexists. split; [now apply nim_next_legal|]. cbn [fst]. split.
  - apply Forall_list_set; [exact Hinv|].
    remember (nth (Z.to_nat i) piles 0) as x. lia.
  - rewrite zsum_list_set by lia.
    pose proof (zsum_ge_nth piles (Z.to_nat i) Hinv).
    remember (nth (Z.to_nat i) piles 0) as x. lia.
Qed.

Lemma nim_live (s : State) :
  nim_inv s -> is_terminal s = false -> actions s <> [].
Proof.
  destruct s as [piles p]. unfold nim_inv, is_terminal. cbn [fst].
  intros Hinv Ht.
  assert (Hex : exists x, In x piles /\ x <> 0).
  { clear Hinv. induction piles as [|x t IH]; simpl in Ht; [discriminate|].
    destruct (Z.eqb_spec x 0) as [->|Hx].
    - destruct (IH Ht) as (y & Hy & Hne). exists y. split; [now right | exact Hne].
    - exists x. split; [now left | exact Hx]. }
  destruct Hex as (x & Hx & Hne).
  destruct (In_nth _ _ 0 Hx) as (idx & Hidx & E).
  rewrite Forall_forall in Hinv. specialize (Hinv x Hx).
  assert (Hin : In (Z.of_nat idx, 1) (actions (piles, p))).
  { apply nim_actions_In. cbn [fst]. rewrite Nat2Z.id, E. lia. }
  intros Hnil. rewrite Hnil in Hin. destruct Hin.
Qed.

Lemma nim_dead (s : State) : is_terminal s = true -> actions s = [].
Proof.
  destruct s as [piles p]. unfold is_terminal, actions.
  generalize 0%nat. induction piles as [|x t IH]; intros j Ht; simpl in *.
  - reflexivity.
  - apply andb_true_iff in Ht as [Hx Ht]. apply Z.eqb_eq in Hx. subst x.
    simpl. now apply IH.
Qed.

Definition nim_wb (initial_piles : list Z)
    (H : Forall (fun pile => 0 <= pile) initial_piles)
  : WellBehaved (game initial_piles) :=
  Build_WellBehaved _ _ (game initial_piles) nim_inv nim_measure
    pair_eqb_eq H nim_step nim_live nim_dead.
End NimFacts.

Section ConnectFourBoards.
Lemma where_zero_from_last (a : list Z) :
  forall i l e,
    np.where_zero_from i a = l ++ [e] ->
    forall x, In x (l ++ [e]) -> (x <= e)%nat.
Proof.
  induction a as [|y t IH]; intros i l e E x Hx; simpl in E.
  - destruct l; discriminate.
  - destruct (np.where_zero_from (S i) t) as [|z zs] eqn:Et.
    + rewrite app_nil_r in E. destruct (y =? 0).
      * destruct l as [|? [|? ?]]; try discriminate.
        injection E as <-. destruct Hx as [<-|[]]. lia.
      * destruct l; discriminate.
    + destruct (exists_last (l := z :: zs)) as (l' & e' & El); [discriminate|].
      rewrite El in *.
      assert (He : e' = e /\ l = (if y =? 0 then [i] else []) ++ l').
      { rewrite app_assoc in E. apply app_inj_tail in E as [E1 E2]. now split. }
      destruct He as [-> ->].
      assert (Hge : (S i <= e)%nat).
      { apply (where_zero_from_In (S i) e t). rewrite Et.
        apply in_or_app. right. now left. }
      rewrite <- app_assoc in Hx. apply in_app_or in Hx as [Hx|Hx].
      * destruct (y =? 0); [|destruct Hx]. destruct Hx as [<-|[]]. lia.
      * now apply (IH (S i) l' e Et).
Qed.

(** The last empty position of a column is an empty position, and the
    largest. *)
Lemma where_zero_rev (a : list Z) (e : nat) (rest : list nat) :
  rev (np.where_zero a) = e :: rest ->
  (e < length a)%nat /\ nth e a 0 = 0 /\
  forall x, (x < length a)%nat -> nth x a 0 = 0 -> (x <= e)%nat.
Proof.
  intros E.
  assert (E' : np.where_zero a = rev rest ++ [e]).
  { rewrite <- (rev_involutive (np.where_zero a)), E. reflexivity. }
  assert (Hin : In e (np.where_zero a))
    by (rewrite E'; apply in_or_app; right; now left).
  apply where_zero_In in Hin as [H1 H2]. repeat split; try assumption.
  intros x Hx Hz.
  apply (where_zero_from_last a 0 (rev rest) e E').
  rewrite <- E'. apply where_zero_In. now split.
Qed.

Lemma nth_column (b : list (list Z)) (r c : nat) :
  nth r (np.column b c) 0 = np.cell b r c.
Proof.
  unfold np.column, np.cell.
  rewrite <- (map_nth (fun row => nth c row 0) b [] r).
  now destruct c.
Qed.

Lemma length_column (b : list (list Z)) (c : nat) :
  length (np.column b c) = length b.
Proof. apply length_map. Qed.

Lemma shape_row (n m : nat) (b : list (list Z)) (r : nat) :
  shape n m b -> (r < n)%nat -> length (nth r b []) = m.
Proof.
  intros [Hn Hm] Hr. rewrite Forall_forall in Hm. apply Hm, nth_In. lia.
Qed.

Lemma gravity_top (b : list (list Z)) (r c : nat) :
  gravity b -> (r < length b)%nat -> np.cell b r c = 0 -> np.cell b 0 c = 0.
Proof.
  intros Hg. induction r as [|r IH]; intros Hr Hz; [exact Hz|].
  apply IH; [lia|]. now apply Hg.
Qed.

Lemma cell_zeros (n m r c : nat) : np.cell (np.zeros n m) r c = 0.
Proof.
  unfold np.cell, np.zeros.
  assert (Hrow : forall k, nth c (repeat 0 k) 0 = 0).
  { intros k. revert c. induction k; intros [|c]; simpl; auto. }
  revert r. induction n as [|n IH]; intros [|r]; simpl; auto; now destruct c.
Qed.

Lemma any_zero_cell (b : list (list Z)) :
  np.any_zero b = true ->
  exists r c, (r < length b)%nat /\ (c < length (nth r b []))%nat
              /\ np.cell b r c = 0.
Proof.
  intros H. pose proof (any_zero_argwhere b H) as Hne.
  destruct (np.argwhere_zero b) as [|[r c] l] eqn:E; [congruence|].
  exists r, c. apply argwhere_zero_In. rewrite E. now left.
Qed.

Lemma Forall_firstn {A : Type} (P : A -> Prop) (k : nat) (l : list A) :
  Forall P l -> Forall P (firstn k l).
Proof.
  intros H. revert k. induction H; intros [|k]; simpl; constructor; auto.
Qed.

Lemma Forall_skipn {A : Type} (P : A -> Prop) (k : nat) (l : list A) :
  Forall P l -> Forall P (skipn k l).
Proof.
  intros H. revert k. induction H; intros [|k]; simpl; auto.
Qed.

Lemma cells_ok_window (b : list (list Z)) (r0 c0 h w : nat) :
  cells_ok b -> cells_ok (np.window b r0 c0 h w).
Proof.
  intros Hb. unfold cells_ok, np.window.
  apply Forall_forall. intros row Hrow.
  apply in_map_iff in Hrow as (row' & <- & Hin).
  apply Forall_firstn, Forall_skipn.
  assert (H : Forall (Forall (fun x => x = 0 \/ x = 1 \/ x = -1))
                     (firstn h (skipn r0 b)))
    by now apply Forall_firstn, Forall_skipn.
  rewrite Forall_forall in H. now apply H.
Qed.

Lemma shape_5_5 (b : list (list Z)) :
  shape 5 5 b ->
  exists a0 a1 a2 a3 a4 b0 b1 b2 b3 b4 c0 c1 c2 c3 c4
         d0 d1 d2 d3 d4 e0 e1 e2 e3 e4,
    b = [[a0; a1; a2; a3; a4]; [b0; b1; b2; b3; b4]; [c0; c1; c2; c3; c4];
         [d0; d1; d2; d3; d4]; [e0; e1; e2; e3; e4]].
Proof.
  intros [Hn Hm].
  destruct b as [|r0 [|r1 [|r2 [|r3 [|r4 [|? ?]]]]]]; try discriminate.
  inversion Hm as [|? ? H0 Hm1]; subst. inversion Hm1 as [|? ? H1 Hm2]; subst.
  inversion Hm2 as [|? ? H2 Hm3]; subst. inversion Hm3 as [|? ? H3 Hm4]; subst.
  inversion Hm4 as [|? ? H4 _]; subst.
  destruct r0 as [|? [|? [|? [|? [|? [|? ?]]]]]]; try discriminate.
  destruct r1 as [|? [|? [|? [|? [|? [|? ?]]]]]]; try discriminate.
  destruct r2 as [|? [|? [|? [|? [|? [|? ?]]]]]]; try discriminate.
  destruct r3 as [|? [|? [|? [|? [|? [|? ?]]]]]]; try discriminate.
  destruct r4 as [|? [|? [|? [|? [|? [|? ?]]]]]]; try discriminate.
  repeat eexists.
Qed.

Lemma window_shape (b : list (list Z)) (off : nat * nat) :
  shape 5 5 b -> In off ConnectFourGame.window_offsets ->
  shape 4 4 (np.window b (fst off) (snd off) 4 4).
Proof.
  intros Hs Hoff. destruct (shape_5_5 b Hs)
    as (a0 & a1 & a2 & a3 & a4 & b0 & b1 & b2 & b3 & b4 & c0 & c1 & c2 & c3 & c4
        & d0 & d1 & d2 & d3 & d4 & e0 & e1 & e2 & e3 & e4 & ->).
  simpl in Hoff. destruct Hoff as [<-|[<-|[<-|[<-|[]]]]];
    (split; [reflexivity | repeat constructor]).
Qed.

(** A line of a window is occupied exactly when the same cells of the
    board are. *)
Lemma window_has_line (b : list (list Z)) (p : Z) (off : nat * nat) :
  shape 5 5 b -> In off ConnectFourGame.window_offsets ->
  has_line 4 4 (np.window b (fst off) (snd off) 4 4) p
  = existsb (occupies b p) (map (shift off) (lines 4 4)).
Proof.
  intros Hs Hoff. destruct (shape_5_5 b Hs)
    as (a0 & a1 & a2 & a3 & a4 & b0 & b1 & b2 & b3 & b4 & c0 & c1 & c2 & c3 & c4
        & d0 & d1 & d2 & d3 & d4 & e0 & e1 & e2 & e3 & e4 & ->).
  simpl in Hoff. destruct Hoff as [<-|[<-|[<-|[<-|[]]]]]; reflexivity.
Qed.
End ConnectFourBoards.

Section ConnectFourWinner.
Import ConnectFourGame.

Lemma existsb_incl {A : Type} (f : A -> bool) (l1 l2 : list A) :
  incl l1 l2 -> existsb f l1 = true -> existsb f l2 = true.
Proof.
  intros Hi H. apply existsb_exists in H as (x & Hx & Hf).
  apply existsb_exists. exists x. split; [now apply Hi | exact Hf].
Qed.

Lemma existsb_same {A : Type} (f : A -> bool) (l1 l2 : list A) :
  incl l1 l2 -> incl l2 l1 -> existsb f l1 = existsb f l2.
Proof.
  intros H12 H21.
  destruct (existsb f l1) eqn:E1, (existsb f l2) eqn:E2; try reflexivity.
  - apply (existsb_incl f l1 l2 H12) in E1. congruence.
  - apply (existsb_incl f l2 l1 H21) in E2. congruence.
Qed.

Lemma existsb_flat_map {A B : Type} (f : B -> bool) (g : A -> list B) (l : list A) :
  existsb f (flat_map g l) = existsb (fun x => existsb f (g x)) l.
Proof.
  induction l as [|x t IH]; simpl; [reflexivity|].
  now rewrite existsb_app, IH.
Qed.

Ltac find_in_list := repeat first [left; reflexivity | right].

(** The lines of four cells of the 5x5 board are the lines of its four
    4x4 windows. *)
Lemma lines_5_windows :
  let windows := flat_map (fun off => map (shift off) (lines 4 4)) window_offsets in
  incl (lines 5 4) windows /\ incl windows (lines 5 4).
Proof.
  split.
  - repeat (apply incl_cons; [find_in_list|]). apply incl_nil_l.
  - repeat (apply incl_cons; [find_in_list|]). apply incl_nil_l.
Qed.

Lemma existsb_ext_in {A : Type} (f g : A -> bool) (l : list A) :
  (forall x, In x l -> f x = g x) -> existsb f l = existsb g l.
Proof.
  induction l as [|x t IH]; intros H; simpl; [reflexivity|].
  rewrite H by now left. f_equal. apply IH. intros y Hy. apply H. now right.
Qed.

Lemma has_line_5_windows (b : Board) (p : Z) :
  shape 5 5 b ->
  has_line 5 4 b p
  = existsb (fun off => has_line 4 4 (np.window b (fst off) (snd off) 4 4) p)
            window_offsets.
Proof.
  intros Hs. unfold has_line at 1.
  destruct lines_5_windows as [H1 H2].
  rewrite (existsb_same _ _ _ H1 H2), existsb_flat_map.
  apply existsb_ext_in. intros off Hoff. symmetry.
  now apply window_has_line.
Qed.

Lemma first_winner_lines (b : Board) :
  shape 5 5 b -> cells_ok b ->
  has_line 5 4 b 1 && has_line 5 4 b (-1) = false ->
  first_winner b window_offsets = winner_by_lines 5 4 b.
Proof.
  intros Hs Hc Hone.
  assert (Hw : forall off, In off window_offsets ->
             _check_4x4_winner (np.window b (fst off) (snd off) 4 4)
             = winner_by_lines 4 4 (np.window b (fst off) (snd off) 4 4)).
  { intros off Hoff. apply c4_check_4x4_winner_lines.
    - now apply window_shape.
    - now apply cells_ok_window. }
  unfold winner_by_lines at 1.
  rewrite (has_line_5_windows b 1 Hs), (has_line_5_windows b (-1) Hs) in *.
  change window_offsets with [(0, 0); (0, 1); (1, 0); (1, 1)]%nat in *.
  cbn [first_winner existsb fst snd] in *.
  assert (H00 := Hw (0, 0)%nat ltac:(find_in_list)).
  assert (H01 := Hw (0, 1)%nat ltac:(find_in_list)).
  assert (H10 := Hw (1, 0)%nat ltac:(find_in_list)).
  assert (H11 := Hw (1, 1)%nat ltac:(find_in_list)).
  cbn [fst snd] in H00, H01, H10, H11.
  rewrite H00, H01, H10, H11. clear Hw H00 H01 H10 H11.
  unfold winner_by_lines.
  destruct (has_line 4 4 (np.window b 0 0 4 4) 1),
           (has_line 4 4 (np.window b 0 0 4 4) (-1)),
           (has_line 4 4 (np.window b 0 1 4 4) 1),
           (has_line 4 4 (np.window b 0 1 4 4) (-1)),
           (has_line 4 4 (np.window b 1 0 4 4) 1),
           (has_line 4 4 (np.window b 1 0 4 4) (-1)),
           (has_line 4 4 (np.window b 1 1 4 4) 1),
           (has_line 4 4 (np.window b 1 1 4 4) (-1));
    simpl in *; congruence.
Qed.

(** On a well-formed board where at most one player owns a line, the
    winner that the game reports is the owner of a line. *)
Lemma c4_check_winner_lines (n : nat) (b : Board) :
  n = 4%nat \/ n = 5%nat ->
  shape n n b -> cells_ok b ->
  has_line n 4 b 1 && has_line n 4 b (-1) = false ->
  _check_winner (Z.of_nat n) b = winner_by_lines n 4 b.
Proof.
  intros [-> | ->] Hs Hc Hone; unfold _check_winner; simpl.
  - now apply c4_check_4x4_winner_lines.
  - now apply first_winner_lines.
Qed.
End ConnectFourWinner.

Section ConnectFourFacts.
Import ConnectFourGame.
Variable n : nat.
Hypothesis Hn : n = 4%nat \/ n = 5%nat.
Let N : Z := Z.of_nat n.

Lemma c4_one_winner (b : Board) (p : Z) :
  p = 1 \/ p = -1 -> has_line n 4 b p = false ->
  has_line n 4 b 1 && has_line n 4 b (-1) = false.
Proof.
  intros [-> | ->] H; rewrite H; [reflexivity | apply andb_false_r].
Qed.

Lemma c4_not_terminal (b : Board) (p : Z) :
  c4_inv n (b, p) -> is_terminal N (b, p) = false ->
  has_line n 4 b 1 = false /\ has_line n 4 b (-1) = false
  /\ np.any_zero b = true.
Proof.
  intros (Hs & Hc & Hp & _ & Hl) Ht. cbn [fst snd] in *.
  unfold is_terminal in Ht. unfold N in Ht.
  rewrite (c4_check_winner_lines n b Hn Hs Hc (c4_one_winner b p Hp Hl)) in Ht.
  destruct (winner_by_lines n 4 b) eqn:E; [discriminate|].
  apply winner_by_lines_None in E as [E1 E2].
  apply negb_false_iff in Ht. now repeat split.
Qed.

Lemma c4_actions_In (s : State) (a : Action) :
  In a (actions N s) ->
  is_terminal N s = false /\
  exists c, a = Z.of_nat c /\ (c < length (nth 0 (fst s) []))%nat
            /\ np.cell (fst s) 0 c = 0.
Proof.
  destruct s as [b p]. unfold actions.
  destruct (is_terminal N (b, p)) eqn:Ht; [intros []|].
  intros H. split; [reflexivity|].
  apply in_map_iff in H as (c & <- & Hin).
  apply where_zero_In in Hin. exists c. cbn [fst]. now split.
Qed.

Lemma c4_next_legal (b : Board) (p : Z) (c : nat) :
  shape n n b -> (c < n)%nat -> np.cell b 0 c = 0 ->
  exists e,
    next N (b, p) (Z.of_nat c) = Ok (np.set_cell b e c p, - p)
    /\ (e < n)%nat /\ np.cell b e c = 0
    /\ forall r, (r < n)%nat -> np.cell b r c = 0 -> (r <= e)%nat.
Proof.
  intros Hs Hc Hz. pose proof Hs as [Hlen _].
  assert (Hpos : (0 < n)%nat) by (destruct Hn; lia).
  unfold next.
  destruct (Z.ltb_spec (Z.of_nat c) 0); [lia|].
  destruct (Z.leb_spec N (Z.of_nat c)); [unfold N in *; lia|]. simpl orb. cbv iota.
  unfold np.getitem2.
  assert (Hidx : np.index (length b) 0 = Ok 0%nat)
    by (apply (index_of_nat (length b) 0); lia).
  rewrite Hidx. simpl bind.
  rewrite (index_of_nat _ c) by (rewrite (shape_row n n b 0 Hs Hpos); exact Hc).
  simpl bind. rewrite Hz. simpl negb. cbv iota. rewrite Nat2Z.id.
  destruct (rev (np.where_zero (np.column b c))) as [|e rest] eqn:E.
  - exfalso.
    assert (Hin : In 0%nat (np.where_zero (np.column b c))).
    { apply where_zero_In. rewrite length_column, nth_column. split; [lia | exact Hz]. }
    rewrite <- (rev_involutive (np.where_zero (np.column b c))), E in Hin.
    destruct Hin.
  - apply where_zero_rev in E as (He & Hze & Hmax).
    rewrite length_column in He, Hmax. rewrite nth_column in Hze.
    exists e. repeat split; try assumption; try lia.
    intros r Hr Hzr. apply Hmax; [lia|]. now rewrite nth_column.
Qed.

Lemma c4_step (s : State) (a : Action) :
  c4_inv n s -> In a (actions N s) ->
  exists s', next N s a = Ok s' /\ c4_inv n s' /\ (c4_measure s' < c4_measure s)%nat.
Proof.
  destruct s as [b p]. intros Hinv Hin.
  apply c4_actions_In in Hin as (Ht & c & -> & Hc & Hz).
  destruct (c4_not_terminal b p Hinv Ht) as (H1 & H2 & _).
  destruct Hinv as (Hs & Hok & Hp & Hg & Hl). cbn [fst snd] in *.
  assert (Hpos : (0 < n)%nat) by (destruct Hn; lia).
  rewrite (shape_row n n b 0 Hs Hpos) in Hc.
  destruct (c4_next_legal b p c Hs Hc Hz) as (e & Hnext & He & Hze & Hmax).
  pose proof Hs as [Hlen _].
  assert (Hrow : (c < length (nth e b []))%nat)
    by (rewrite (shape_row n n b e Hs He); exact Hc).
  exists (np.set_cell b e c p, - p). split; [exact Hnext|]. split.
  - unfold c4_inv. cbn [fst snd].
    split; [now apply shape_set_cell|].
    split; [apply cells_ok_set_cell; [exact Hok | lia]|].
    split; [lia|].
    split.
    + intros r c' Hr. destruct (shape_set_cell n n b e c p Hs) as [Hlen' _].
      rewrite Hlen' in Hr.
      rewrite !cell_set_cell by (try assumption; lia).
      destruct (Nat.eqb_spec c' c) as [->|Hc'].
      * rewrite !andb_true_r.
        destruct (Nat.eqb_spec (S r) e) as [E|E]; [intros; lia|].
        intros Hz'. assert (S r <= e)%nat by (apply Hmax; [lia | exact Hz']).
        destruct (Nat.eqb_spec r e); [lia|]. apply Hg; [lia | exact Hz'].
      * rewrite !andb_false_r. apply Hg. lia.
    + apply has_line_set_cell_other; try assumption; try lia.
      destruct Hp as [-> | ->]; assumption.
  - unfold c4_measure. cbn [fst]. apply empty_cells_set_cell; try assumption; lia.
Qed.

Lemma c4_init : c4_inv n (initial_state N).
Proof.
  unfold c4_inv, initial_state, N. cbn [fst snd]. rewrite Nat2Z.id.
  split; [|split; [|split; [now left|split]]].
  - unfold shape, np.zeros. split; [apply repeat_length|].
    apply Forall_forall. intros row Hrow. apply repeat_spec in Hrow. subst.
    apply repeat_length.
  - unfold cells_ok, np.zeros. apply Forall_forall. intros row Hrow.
    apply repeat_spec in Hrow. subst. apply Forall_forall. intros x Hx.
    apply repeat_spec in Hx. now left.
  - intros r c _ _. apply cell_zeros.
  - destruct Hn as [-> | ->]; reflexivity.
Qed.

Lemma c4_live (s : State) :
  c4_inv n s -> is_terminal N s = false -> actions N s <> [].
Proof.
  destruct s as [b p]. intros Hinv Ht.
  destruct (c4_not_terminal b p Hinv Ht) as (_ & _ & Hz).
  destruct Hinv as (Hs & _ & _ & Hg & _). cbn [fst snd] in *.
  apply any_zero_cell in Hz as (r & c & Hr & Hc & Hz).
  pose proof Hs as [Hlen _].
  assert (Hpos : (0 < n)%nat) by (destruct Hn; lia).
  assert (Hin : In (Z.of_nat c) (actions N (b, p))).
  { unfold actions. rewrite Ht. apply in_map. apply where_zero_In.
    rewrite (shape_row n n b 0 Hs Hpos).
    rewrite (shape_row n n b r Hs) in Hc by lia.
    split; [exact Hc|]. now apply (gravity_top b r c). }
  intros E. rewrite E in Hin. destruct Hin.
Qed.

Lemma c4_dead (s : State) : is_terminal N s = true -> actions N s = [].
Proof. destruct s as [b p]. intros Ht. unfold actions. now rewrite Ht. Qed.

Definition c4_wb : WellBehaved (game N) :=
  Build_WellBehaved _ _ (game N) (c4_inv n) c4_measure
    Z.eqb_eq c4_init c4_step c4_live c4_dead.
End ConnectFourFacts.

(** ** Plays and moves on well-behaved games *)

Section PlayTheory.
Context {State Action : Type} (G : Game State Action).
Variable W : WellBehaved G.

Lemma action_in_iff (a : Action) (l : list Action) :
  action_in G a l = true <-> In a l.
Proof.
  unfold action_in. rewrite existsb_exists. split.
  - intros (x & Hx & E). apply (wb_eqb W) in E. now subst.
  - intros H. exists a. split; [exact H | now apply (wb_eqb W)].
Qed.

Lemma move_illegal (g : Session State) (a : Action) :
  ~ In a (actions G (state g)) -> move G g a = (g, Raise ValueError).
Proof.
  intros H. unfold move.
  destruct (action_in G a (actions G (state g))) eqn:E; [|reflexivity].
  apply action_in_iff in E. contradiction.
Qed.

Lemma move_ok_inv (g g' : Session State) (a : Action) (s' : State) :
  move G g a = (g', Ok s') ->
  In a (actions G (state g)) /\ next G (state g) a = Ok s' /\ state g' = s'.
Proof.
  unfold move.
  destruct (action_in G a (actions G (state g))) eqn:E; simpl; [|discriminate].
  apply action_in_iff in E.
  destruct (next G (state g) a) as [s''|e] eqn:Hn; [|discriminate].
  intros H. injection H as <- <-. now repeat split.
Qed.

Lemma move_decreases (g g' : Session State) (a : Action) (s' : State) :
  inv W (state g) -> move G g a = (g', Ok s') ->
  inv W (state g') /\ (measure W (state g') < measure W (state g))%nat
  /\ (reachable G (state g) -> reachable G (state g')).
Proof.
  intros Hi Hm. apply move_ok_inv in Hm as (Hin & Hn & ->).
  destruct (wb_step W _ a Hi Hin) as (s'' & Hn' & Hi' & Hlt).
  rewrite Hn in Hn'. injection Hn' as <-.
  repeat split; try assumption.
  intros Hr. now apply (reach_step G (state g) a).
Qed.

Lemma play_bounded (acts : list Action) :
  forall g g',
    inv W (state g) -> play G g acts = (g', Ok tt) ->
    (length acts + measure W (state g') <= measure W (state g))%nat
    /\ (reachable G (state g) -> reachable G (state g')).
Proof.
  induction acts as [|a rest IH]; intros g g' Hi Hp; simpl in Hp.
  - injection Hp as <-. split; [simpl; lia | auto].
  - destruct (move G g a) as [g1 [s1|e]] eqn:Hm; [|discriminate].
    destruct (move_decreases g g1 a s1 Hi Hm) as (Hi1 & Hlt & Hr1).
    destruct (IH g1 g' Hi1 Hp) as [Hb Hr']. split; [simpl; lia | auto].
Qed.

Lemma reachable_measure (s : State) :
  reachable G s -> (measure W s <= measure W (initial_state G))%nat.
Proof.
  induction 1 as [|s a s' Hr IH Hin Hn]; [lia|].
  destruct (wb_step W s a (reachable_inv G W s Hr) Hin) as (s'' & Hn' & _ & Hlt).
  rewrite Hn in Hn'. injection Hn' as <-. lia.
Qed.

Lemma stuck_terminal (g : Session State) :
  inv W (state g) ->
  (forall a, exists e, snd (move G g a) = Raise e) ->
  is_terminal G (state g) = true.
Proof.
  intros Hi Hstuck.
  destruct (is_terminal G (state g)) eqn:Ht; [reflexivity|].
  pose proof (wb_live W _ Hi Ht) as Hl.
  destruct (actions G (state g)) as [|a l] eqn:Ea; [congruence|].
  assert (Hin : In a (actions G (state g))) by (rewrite Ea; now left).
  destruct (wb_step W _ a Hi Hin) as (s' & Hn & _).
  destruct (Hstuck a) as (e & He).
  rewrite (move_legal G (eqb_refl_of_wb G W) g a s' Hin Hn) in He. discriminate.
Qed.

Lemma live_move (g : Session State) :
  inv W (state g) -> is_terminal G (state g) = false ->
  exists a g' s', move G g a = (g', Ok s').
Proof.
  intros Hi Ht. pose proof (wb_live W _ Hi Ht) as Hl.
  destruct (actions G (state g)) as [|a l] eqn:Ea; [congruence|].
  assert (Hin : In a (actions G (state g))) by (rewrite Ea; now left).
  destruct (wb_step W _ a Hi Hin) as (s' & Hn & _).
  exists a. eexists. exists s'.
  exact (move_legal G (eqb_refl_of_wb G W) g a s' Hin Hn).
Qed.

Lemma drive_terminates (pick : Session State -> Action) (n : nat) :
  forall g,
    reachable G (state g) ->
    (forall g', reachable G (state g') -> is_terminal G (state g') = false ->
                In (pick g') (actions G (state g'))) ->
    (measure W (state g) <= n)%nat ->
    is_game_over G (drive G pick n g) = true.
Proof.
  induction n as [|n IH]; intros g Hr Hpick Hm; simpl;
    destruct (is_game_over G g) eqn:Ht; try reflexivity; try exact Ht.
  - unfold is_game_over in Ht.
    pose proof (reachable_inv G W _ Hr) as Hi.
    pose proof (Hpick g Hr Ht) as Hin.
    destruct (wb_step W _ _ Hi Hin) as (s' & _ & _ & Hlt). lia.
  - unfold is_game_over in Ht.
    pose proof (reachable_inv G W _ Hr) as Hi.
    pose proof (Hpick g Hr Ht) as Hin.
    destruct (wb_step W _ _ Hi Hin) as (s' & Hn & _ & Hlt).
    rewrite (move_legal G (eqb_refl_of_wb G W) g _ s' Hin Hn). cbn [fst].
    apply IH; cbn [state]; try assumption; try lia.
    now apply (reach_step G (state g) (pick g)).
Qed.

Lemma wb_bounded_play :
  bounded_play G (measure W) (measure W (initial_state G)).
Proof.
  split; [reflexivity|]. split; [|split; [|split; [|split]]].
  - intros g a g' s' Hr Hm.
    now apply (move_decreases g g' a s' (reachable_inv G W _ Hr) Hm).
  - intros g acts g' Hr Hp.
    destruct (play_bounded acts g g' (reachable_inv G W _ Hr) Hp) as [Hb Hr'].
    split; [exact Hb|]. split; [now apply reachable_measure | auto].
  - intros g Hr. apply stuck_terminal. now apply reachable_inv.
  - intros g Hr. apply live_move. now apply reachable_inv.
  - intros pick g Hr Hpick. now apply drive_terminates.
Qed.

Lemma wb_move_checked : move_checked G (inv W).
Proof.
  intros g a Hi. split.
  - apply move_illegal.
  - intros Hin. destruct (wb_step W _ a Hi Hin) as (s' & Hn & _).
    exists s'. split; [exact Hn|].
    now apply (move_legal G (eqb_refl_of_wb G W)).
Qed.

Lemma wb_pruning_preserves_choice : pruning_preserves_choice G (measure W).
Proof.
  intros self g Hr Ht.
  pose proof (reachable_inv G W _ Hr) as Hi.
  destruct (choose_action_correct G self W g Hi (wb_live W _ Hi Ht))
    as (a & avs & Hin & _ & _ & Hall).
  exists a. split; [exact Hin|]. intros fuel Hf.
  destruct (Hall fuel Hf) as (H1 & H2 & _). now split.
Qed.

Lemma wb_chooses_first_optimal : chooses_first_optimal G (measure W).
Proof.
  intros self g Hr Hne.
  pose proof (reachable_inv G W _ Hr) as Hi. split.
  - destruct (choose_action_correct G self W g Hi Hne)
      as (a & avs & Hin & Hmap & Hfm & Hall).
    exists a, avs. split; [exact Hin|]. split; [exact Hmap|]. split; [exact Hfm|].
    intros fuel Hf. destruct (Hall fuel Hf) as (H1 & _ & H3 & H4).
    split; [exact H3|]. now split.
  - intros x Hx search. unfold choose_action_with. now rewrite Hx.
Qed.
End PlayTheory.

(** ** Concrete runs *)

Example lines_count :
  length (lines 3 3) = 8%nat /\ length (lines 4 4) = 10%nat
  /\ length (lines 5 4) = 28%nat.
Proof. repeat split. Qed.

(** Halving from 15: the first player wins with best play. *)
Example halving_15_value :
  _minimax (HalvingGame.game 15) {| player_id := 1; max_depth := None |}
           15 (new_game (HalvingGame.game 15)) 0 true NegInf PosInf
  = Some (Ok (Fin 1)).
Proof. vm_compute. reflexivity. Qed.

(** Tic-Tac-Toe from the empty board: a draw with best play. *)
Example tictactoe_value :
  _minimax TicTacToeGame.game {| player_id := 1; max_depth := None |}
           9 (new_game TicTacToeGame.game) 0 true NegInf PosInf
  = Some (Ok (Fin 0)).
Proof. vm_compute. reflexivity. Qed.

(** Nim on [[1; 3; 5; 7]]: nim-sum [0], no move recommended. *)
Example nim_1357 :
  NimGame.get_nim_sum ([1; 3; 5; 7], 1) = Ok 0
  /\ NimGame.get_optimal_move ([1; 3; 5; 7], 1) = Ok None.
Proof. split; reflexivity. Qed.

(** Connect Four 4x4 with column 0 filled: the other columns are legal. *)
Example connectfour_full_column :
  actions (ConnectFourGame.game 4)
          ([[1; 0; 0; 0]; [-1; 0; 0; 0]; [1; 0; 0; 0]; [-1; 0; 0; 0]], 1)
  = [1; 2; 3].
Proof. reflexivity. Qed.

(* ================================================================== *)
(** * Part III. Main theorems                                          *)
(* ================================================================== *)

Lemma c4_size_nat (N : Z) :
  N = 4 \/ N = 5 -> exists n, (n = 4 \/ n = 5)%nat /\ N = Z.of_nat n.
Proof.
  intros [-> | ->]; [exists 4%nat | exists 5%nat]; split; auto.
Qed.

(** Piles in the range where numpy's int64 arithmetic is exact are not
    negative. *)
Lemma piles_in_range_nonneg (piles : list Z) :
  Forall (fun pile => 0 <= pile < np.int64_max) piles ->
  Forall (fun pile => 0 <= pile) piles.
Proof.
  intros H. eapply Forall_impl; [|exact H]. simpl. intros; lia.
Qed.

(** C1. At every reachable non-terminal state of the Halving game (with a
    non-negative starting number) and of Tic-Tac-Toe, [choose_action],
    which searches with alpha-beta pruning, returns the action of plain
    unpruned minimax: the first action, in [actions()] order, of maximal
    minimax value.  This holds for every agent (player and depth bound)
    and every recursion budget that covers the measure of the state. *)
Theorem C1_alpha_beta_equivalence :
  (forall starting_number : Z,
      0 <= starting_number ->
      pruning_preserves_choice (HalvingGame.game starting_number) halving_measure)
  /\ pruning_preserves_choice TicTacToeGame.game ttt_measure.
Proof.
  split.
  - intros n0 H. exact (wb_pruning_preserves_choice _ (halving_wb n0 H)).
  - exact (wb_pruning_preserves_choice _ ttt_wb).
Qed.

Lemma C1_alpha_beta_equivalence_witness :
  (0 <= 15 /\
   exists a,
     choose_action (HalvingGame.game 15) {| player_id := 1; max_depth := None |}
                   15 (new_game (HalvingGame.game 15)) = Some (Ok (Some a))
     /\ unpruned_choice (HalvingGame.game 15) {| player_id := 1; max_depth := None |}
                        15 (15, 1) = Some (Ok (Some a)))
  /\ (exists a,
         choose_action TicTacToeGame.game {| player_id := -1; max_depth := Some 3 |}
                       9 (new_game TicTacToeGame.game) = Some (Ok (Some a))
         /\ unpruned_choice TicTacToeGame.game {| player_id := -1; max_depth := Some 3 |}
                            9 TicTacToeGame.initial_state = Some (Ok (Some a))).
Proof.
  split.
  - split; [lia|].
    destruct (proj1 C1_alpha_beta_equivalence 15 ltac:(lia)
                {| player_id := 1; max_depth := None |}
                (new_game (HalvingGame.game 15))
                (reach_init _) eq_refl) as (a & _ & H).
    exists a. apply (H 15%nat). vm_compute. lia.
  - destruct (proj2 C1_alpha_beta_equivalence
                {| player_id := -1; max_depth := Some 3 |}
                (new_game TicTacToeGame.game)
                (reach_init _) eq_refl) as (a & _ & H).
    exists a. apply (H 9%nat). vm_compute. lia.
Defined.

(** C2. In the four variants (Nim with pile sizes from [0] to
    [np.int64_max - 1], the range in which [actions()] lists every legal
    action), at every reachable state with a legal action,
    [choose_action] returns the first action, in [actions()] order, whose
    minimax value is the largest: the values are those of plain minimax
    on the successors, which the search returns unchanged; the values
    before the chosen action are strictly smaller and no later value is
    larger, so equality never replaces the incumbent.  When exactly one
    action is legal it is returned whatever the search would return. *)
Theorem C2_first_optimal_action :
  (forall starting_number : Z,
      0 <= starting_number ->
      chooses_first_optimal (HalvingGame.game starting_number) halving_measure)
  /\ chooses_first_optimal TicTacToeGame.game ttt_measure
  /\ (forall initial_piles : list Z,
         Forall (fun pile => 0 <= pile < np.int64_max) initial_piles ->
         chooses_first_optimal (NimGame.game initial_piles) nim_measure)
  /\ (forall board_size : Z,
         board_size = 4 \/ board_size = 5 ->
         chooses_first_optimal (ConnectFourGame.game board_size) c4_measure).
Proof.
  split; [|split; [|split]].
  - intros n0 H. exact (wb_chooses_first_optimal _ (halving_wb n0 H)).
  - exact (wb_chooses_first_optimal _ ttt_wb).
  - intros piles H.
    exact (wb_chooses_first_optimal _ (nim_wb piles (piles_in_range_nonneg _ H))).
  - intros N H. destruct (c4_size_nat N H) as (n & Hn & ->).
    exact (wb_chooses_first_optimal _ (c4_wb n Hn)).
Qed.

Lemma C2_first_optimal_action_witness :
  (0 <= 15
   /\ exists a avs,
       avs = [("subtract"%string, Fin 1); ("halve"%string, Fin (-1))]
       /\ a = "subtract"%string
       /\ is_first_max avs a
       /\ action_values (HalvingGame.game 15) {| player_id := 1; max_depth := None |}
                        15 (15, 1) ["subtract"%string; "halve"%string]
          = Some (Ok avs)
       /\ choose_action (HalvingGame.game 15) {| player_id := 1; max_depth := None |}
                        15 (new_game (HalvingGame.game 15)) = Some (Ok (Some a)))
  /\ (Forall (fun pile => 0 <= pile < np.int64_max) [1; 2]
      /\ exists a avs,
          avs = [((0, 1), Fin (-1)); ((1, 1), Fin 1); ((1, 2), Fin (-1))]
          /\ a = (1, 1)
          /\ is_first_max avs a
          /\ action_values (NimGame.game [1; 2]) {| player_id := 1; max_depth := None |}
                           3 ([1; 2], 1) (NimGame.actions ([1; 2], 1))
             = Some (Ok avs)
          /\ choose_action (NimGame.game [1; 2]) {| player_id := 1; max_depth := None |}
                           3 (new_game (NimGame.game [1; 2])) = Some (Ok (Some a)))
  /\ (Forall (fun pile => 0 <= pile < np.int64_max) [0; 2]
      /\ forall search,
          choose_action_with (NimGame.game [0; 2]) search
            {| state := ([0; 1], -1); current_player := -1 |}
          = Some (Ok (Some (1, 1))))
  /\ ((4 = 4 \/ 4 = 5)
      /\ exists a avs,
          is_first_max avs a /\
          choose_action (ConnectFourGame.game 4)
                        {| player_id := 1; max_depth := Some 2 |}
                        16 (new_game (ConnectFourGame.game 4)) = Some (Ok (Some a))).
Proof.
  split; [|split; [|split]].
  - split; [lia|].
    destruct (proj1 (proj1 C2_first_optimal_action 15 ltac:(lia)
                {| player_id := 1; max_depth := None |}
                (new_game (HalvingGame.game 15))
                (reach_init _) ltac:(discriminate)))
      as (a & avs & _ & _ & Hfm & H).
    destruct (H 15%nat ltac:(vm_compute; lia)) as (Hav & _ & Hch).
    assert (Eavs : avs = [("subtract"%string, Fin 1); ("halve"%string, Fin (-1))]).
    { pose proof Hav as E. vm_compute in E. now injection E as <-. }
    assert (Ea : a = "subtract"%string).
    { pose proof Hch as E. vm_compute in E. now injection E as <-. }
    exists a, avs. repeat split; assumption.
  - assert (Hp : Forall (fun pile => 0 <= pile < np.int64_max) [1; 2])
      by (repeat constructor; unfold np.int64_max; lia).
    split; [exact Hp|].
    destruct (proj1 (proj1 (proj2 (proj2 C2_first_optimal_action)) [1; 2] Hp
                {| player_id := 1; max_depth := None |}
                (new_game (NimGame.game [1; 2]))
                (reach_init _) ltac:(discriminate)))
      as (a & avs & _ & _ & Hfm & H).
    destruct (H 3%nat ltac:(vm_compute; lia)) as (Hav & _ & Hch).
    assert (Eavs : avs = [((0, 1), Fin (-1)); ((1, 1), Fin 1); ((1, 2), Fin (-1))]).
    { pose proof Hav as E. vm_compute in E. now injection E as <-. }
    assert (Ea : a = (1, 1)).
    { pose proof Hch as E. vm_compute in E. now injection E as <-. }
    exists a, avs. repeat split; assumption.
  - assert (Hp : Forall (fun pile => 0 <= pile < np.int64_max) [0; 2])
      by (repeat constructor; unfold np.int64_max; lia).
    split; [exact Hp|].
    apply (proj2 (proj1 (proj2 (proj2 C2_first_optimal_action)) [0; 2] Hp
                   {| player_id := 1; max_depth := None |}
                   {| state := ([0; 1], -1); current_player := -1 |}
                   (reach_step (NimGame.game [0; 2]) ([0; 2], 1) (1, 1) ([0; 1], -1)
                      (reach_init _) ltac:(vm_compute; tauto) eq_refl)
                   ltac:(discriminate))).
    reflexivity.
  - split; [now left|].
    destruct (proj1 (proj2 (proj2 (proj2 C2_first_optimal_action)) 4 (or_introl eq_refl)
                {| player_id := 1; max_depth := Some 2 |}
                (new_game (ConnectFourGame.game 4))
                (reach_init _) ltac:(discriminate)))
      as (a & avs & _ & _ & Hfm & H).
    exists a, avs. split; [exact Hfm|]. apply (H 16%nat). vm_compute. lia.
Defined.

(** C5. In the four variants (Nim with pile sizes from [0] to
    [np.int64_max - 1], the range in which [actions()] lists every legal
    action) every legal move strictly decreases the
    measure of the state (the number; the empty cells; the pile sum; the
    empty cells), so a play from a reachable state has at most that many
    moves, at most the measure of the initial state (the starting number;
    9; the initial pile sum; the cells of the board); a play that cannot
    be continued has reached a terminal state, and applying legal actions,
    however chosen, ends the game within that many moves. *)
Theorem C5_bounded_termination :
  (forall starting_number : Z,
      0 <= starting_number ->
      bounded_play (HalvingGame.game starting_number) halving_measure
                   (Z.to_nat starting_number))
  /\ bounded_play TicTacToeGame.game ttt_measure 9
  /\ (forall initial_piles : list Z,
         Forall (fun pile => 0 <= pile < np.int64_max) initial_piles ->
         bounded_play (NimGame.game initial_piles) nim_measure
                      (Z.to_nat (np.zsum initial_piles)))
  /\ (forall board_size : Z,
         board_size = 4 \/ board_size = 5 ->
         bounded_play (ConnectFourGame.game board_size) c4_measure
                      (Z.to_nat (board_size * board_size))).
Proof.
  split; [|split; [|split]].
  - intros n0 H. exact (wb_bounded_play _ (halving_wb n0 H)).
  - exact (wb_bounded_play _ ttt_wb).
  - intros piles H.
    exact (wb_bounded_play _ (nim_wb piles (piles_in_range_nonneg _ H))).
  - intros N H. destruct (c4_size_nat N H) as (n & Hn & ->).
    pose proof (wb_bounded_play _ (c4_wb n Hn)) as Hb.
    replace (Z.to_nat (Z.of_nat n * Z.of_nat n))
      with (measure (c4_wb n Hn) (initial_state (ConnectFourGame.game (Z.of_nat n)))).
    + exact Hb.
    + destruct Hn as [-> | ->]; reflexivity.
Qed.

Lemma C5_bounded_termination_witness :
  (0 <= 15
   /\ (2 + halving_measure (7%Z, 1%Z) <= halving_measure (15%Z, 1%Z))%nat)
  /\ (Forall (fun pile => 0 <= pile < np.int64_max) [1; 3; 5; 7]
      /\ (nim_measure ([1; 3; 5; 7]%Z, 1%Z) <= 16)%nat)
  /\ ((5 = 4 \/ 5 = 5)
      /\ c4_measure (ConnectFourGame.initial_state 5) = 25%nat).
Proof.
  split; [|split].
  - split; [lia|].
    destruct (proj1 C5_bounded_termination 15 ltac:(lia)) as (_ & _ & Hplay & _).
    exact (proj1 (Hplay (new_game (HalvingGame.game 15))
                        ["subtract"%string; "halve"%string]
                        {| state := (7, 1); current_player := 1 |}
                        (reach_init _) eq_refl)).
  - assert (Hp : Forall (fun pile => 0 <= pile < np.int64_max) [1; 3; 5; 7])
      by (repeat constructor; unfold np.int64_max; lia).
    split; [exact Hp|].
    destruct (proj1 (proj2 (proj2 C5_bounded_termination)) [1; 3; 5; 7] Hp)
      as (_ & _ & Hplay & _).
    exact (proj1 (proj2 (Hplay (new_game (NimGame.game [1; 3; 5; 7])) []
                               (new_game (NimGame.game [1; 3; 5; 7]))
                               (reach_init _) eq_refl))).
  - split; [now right|].
    exact (proj1 (proj2 (proj2 (proj2 C5_bounded_termination)) 5 (or_intror eq_refl))).
Defined.

Lemma halving_two_players (starting_number : Z) (s : HalvingGame.State) :
  reachable (HalvingGame.game starting_number) s ->
  two_players (HalvingGame.game starting_number) s.
Proof.
  unfold two_players. cbn [player HalvingGame.game].
  induction 1 as [|[n p] a s' _ IH _ Hn]; [now left|].
  cbn [next HalvingGame.game] in Hn. unfold HalvingGame.next in Hn.
  unfold HalvingGame.player in *. cbn [snd] in *.
  destruct (String.eqb a "subtract");
    [|destruct (String.eqb a "halve"); [|discriminate]];
    injection Hn as <-; cbn [snd]; lia.
Qed.

Lemma nim_two_players (initial_piles : list Z) (s : NimGame.State) :
  reachable (NimGame.game initial_piles) s ->
  two_players (NimGame.game initial_piles) s.
Proof.
  unfold two_players. cbn [player NimGame.game].
  induction 1 as [|[l p] [i k] s' _ IH _ Hn]; [now left|].
  cbn [next NimGame.game] in Hn. unfold NimGame.next in Hn.
  unfold NimGame.player in *. cbn [snd] in *.
  destruct ((i <? 0) || (Z.of_nat (length l) <=? i)); [discriminate|].
  destruct ((k <? 1) || (nth (Z.to_nat i) l 0 <? k)); [discriminate|].
  injection Hn as <-; cbn [snd]; lia.
Qed.

(** C6. At every terminal state [utility(s, 1) = - utility(s, -1)] in the
    four variants.  At the reachable terminal states of Halving and Nim
    the two utilities are [1] and [-1] and the win goes to the player who
    moved last, the opposite of the player to act; in Tic-Tac-Toe and
    Connect Four a terminal state without a winner (a draw) has utility
    [0] for both players. *)
Theorem C6_utility_antisymmetry :
  (forall starting_number,
      utility_antisymmetric (HalvingGame.game starting_number)
                            (reachable (HalvingGame.game starting_number))
      /\ last_mover_wins (HalvingGame.game starting_number)
                         (reachable (HalvingGame.game starting_number)))
  /\ (forall initial_piles,
         utility_antisymmetric (NimGame.game initial_piles)
                               (reachable (NimGame.game initial_piles))
         /\ last_mover_wins (NimGame.game initial_piles)
                            (reachable (NimGame.game initial_piles)))
  /\ (utility_antisymmetric TicTacToeGame.game (fun _ => True)
      /\ forall s, TicTacToeGame.is_terminal s = true ->
                   TicTacToeGame._check_winner (fst s) = None ->
                   TicTacToeGame.utility s 1 = 0 /\ TicTacToeGame.utility s (-1) = 0)
  /\ (forall board_size,
         utility_antisymmetric (ConnectFourGame.game board_size) (fun _ => True)
         /\ forall s, ConnectFourGame.is_terminal board_size s = true ->
                      ConnectFourGame._check_winner board_size (fst s) = None ->
                      ConnectFourGame.utility board_size s 1 = 0
                      /\ ConnectFourGame.utility board_size s (-1) = 0).
Proof.
  split; [|split; [|split]].
  - intros n0. split.
    + intros [n p] Hr Ht. destruct (halving_two_players n0 _ Hr) as [Hp|Hp];
        cbn [utility is_terminal player HalvingGame.game HalvingGame.player snd] in *;
        unfold HalvingGame.utility; rewrite Ht; subst p; reflexivity.
    + intros [n p] Hr Ht. destruct (halving_two_players n0 _ Hr) as [Hp|Hp];
        cbn [utility is_terminal player HalvingGame.game HalvingGame.player snd] in *;
        unfold HalvingGame.utility; rewrite Ht; subst p; split; reflexivity.
  - intros piles. split.
    + intros [l p] Hr Ht. destruct (nim_two_players piles _ Hr) as [Hp|Hp];
        cbn [utility is_terminal player NimGame.game NimGame.player snd] in *;
        unfold NimGame.utility; rewrite Ht; subst p; reflexivity.
    + intros [l p] Hr Ht. destruct (nim_two_players piles _ Hr) as [Hp|Hp];
        cbn [utility is_terminal player NimGame.game NimGame.player snd] in *;
        unfold NimGame.utility; rewrite Ht; subst p; split; reflexivity.
  - split.
    + intros [b p] _ Ht. cbn [utility is_terminal TicTacToeGame.game] in *.
      unfold TicTacToeGame.utility.
      rewrite Ht. simpl negb. cbv iota. unfold TicTacToeGame._check_winner.
      destruct (existsb _ _); [reflexivity|]. destruct (existsb _ _); reflexivity.
    + intros [b p] Ht Hw. cbn [fst] in Hw. unfold TicTacToeGame.utility.
      rewrite Ht, Hw. split; reflexivity.
  - intros N. split.
    + intros [b p] _ Ht. cbn [utility is_terminal ConnectFourGame.game] in *.
      unfold ConnectFourGame.utility.
      rewrite Ht. simpl negb. cbv iota.
      assert (Hw : ConnectFourGame._check_winner N b = Some 1
                   \/ ConnectFourGame._check_winner N b = Some (-1)
                   \/ ConnectFourGame._check_winner N b = None).
      { assert (H4 : forall w, ConnectFourGame._check_4x4_winner w = Some 1
                     \/ ConnectFourGame._check_4x4_winner w = Some (-1)
                     \/ ConnectFourGame._check_4x4_winner w = None).
        { intros w. unfold ConnectFourGame._check_4x4_winner.
          destruct (existsb _ _); [auto|]. destruct (existsb _ _); auto. }
        unfold ConnectFourGame._check_winner.
        destruct (N =? 4); [apply H4|]. destruct (N =? 5); [|auto].
        generalize ConnectFourGame.window_offsets.
        intros l. induction l as [|[ro co] l IH]; simpl; [auto|].
        destruct (H4 (np.window b ro co 4 4)) as [E|[E|E]]; rewrite E; auto. }
      destruct Hw as [E|[E|E]]; rewrite E; reflexivity.
    + intros [b p] Ht Hw. cbn [fst] in Hw. unfold ConnectFourGame.utility.
      rewrite Ht, Hw. split; reflexivity.
Qed.

Lemma C6_utility_antisymmetry_witness :
  (reachable (HalvingGame.game 1) (0, -1)
   /\ HalvingGame.is_terminal (0, -1) = true
   /\ HalvingGame.utility (0, -1) 1 = - HalvingGame.utility (0, -1) (-1)
   /\ HalvingGame.utility (0, -1) 1 = 1)
  /\ (TicTacToeGame.is_terminal
        ([[1; -1; 1]; [1; -1; -1]; [-1; 1; 1]], -1) = true
      /\ TicTacToeGame.utility ([[1; -1; 1]; [1; -1; -1]; [-1; 1; 1]], -1) 1 = 0).
Proof.
  split.
  - assert (Hr : reachable (HalvingGame.game 1) (0, -1)).
    { apply (reach_step (HalvingGame.game 1) (1, 1) "subtract"%string).
      - apply (reach_init (HalvingGame.game 1)).
      - now left.
      - reflexivity. }
    split; [exact Hr|]. split; [reflexivity|]. split.
    + exact (proj1 (proj1 C6_utility_antisymmetry 1) (0, -1) Hr eq_refl).
    + exact (proj1 (proj2 (proj1 C6_utility_antisymmetry 1) (0, -1) Hr eq_refl)).
  - split; [reflexivity|].
    exact (proj1 (proj2 (proj1 (proj2 (proj2 C6_utility_antisymmetry)))
                   ([[1; -1; 1]; [1; -1; -1]; [-1; 1; 1]], -1) eq_refl eq_refl)).
Defined.

Lemma move_checked_total {State Action : Type} (G : Game State Action)
    (P : State -> Prop) :
  (forall a b, action_eqb G a b = true <-> a = b) ->
  (forall s a, P s -> In a (actions G s) -> exists s', next G s a = Ok s') ->
  move_checked G P.
Proof.
  intros Heqb Htotal g a HP.
  assert (Hin : action_in G a (actions G (state g)) = true
                <-> In a (actions G (state g))).
  { unfold action_in. rewrite existsb_exists. split.
    - intros (x & Hx & E). apply Heqb in E. now subst.
    - intros H. exists a. split; [exact H | now apply Heqb]. }
  split.
  - intros Hn. unfold move.
    destruct (action_in G a (actions G (state g))); [|reflexivity].
    exfalso. apply Hn, Hin. reflexivity.
  - intros Ha. destruct (Htotal _ a HP Ha) as (s' & Hs').
    exists s'. split; [exact Hs'|]. unfold move.
    rewrite (proj2 Hin Ha), Hs'. reflexivity.
Qed.

(** C7. In the four variants [move] raises [ValueError] exactly when the
    action is not in [actions(state)], and then the object (state and
    current player) is unchanged; a legal action never raises and installs
    the successor state.  In particular a move on an occupied
    Tic-Tac-Toe cell raises and changes nothing. *)
Theorem C7_move_validation :
  (forall starting_number,
      move_checked (HalvingGame.game starting_number) (fun _ => True))
  /\ (move_checked TicTacToeGame.game (fun _ => True)
      /\ forall (g : Session TicTacToeGame.State) (row col : Z),
          0 <= row -> 0 <= col ->
          np.cell (fst (state g)) (Z.to_nat row) (Z.to_nat col) <> 0 ->
          move TicTacToeGame.game g (row, col) = (g, Raise ValueError))
  /\ (forall initial_piles,
         move_checked (NimGame.game initial_piles) (fun _ => True))
  /\ (forall board_size,
         board_size = 4 \/ board_size = 5 ->
         move_checked (ConnectFourGame.game board_size)
                      (fun s => shape (Z.to_nat board_size) (Z.to_nat board_size) (fst s))).
Proof.
  assert (Httt : move_checked TicTacToeGame.game (fun _ => True)).
  { apply move_checked_total; [exact pair_eqb_eq|].
    intros [b p] a _ Hin.
    apply ttt_actions_In in Hin as (_ & r & c & -> & Hr & Hc & Hz).
    eexists. now apply ttt_next_legal. }
  split; [|split; [split|split]].
  - intros n0. apply move_checked_total; [exact String.eqb_eq|].
    intros [n p] a _ Hin.
    apply halving_actions_In in Hin as [_ [-> | ->]]; eexists; reflexivity.
  - exact Httt.
  - intros g row col Hr Hc Hocc.
    apply (proj1 (Httt g (row, col) I)).
    intros Hin. destruct (state g) as [b p].
    apply ttt_actions_In in Hin as (_ & r & c & E & _ & _ & Hz).
    injection E as -> ->. rewrite !Nat2Z.id in Hocc. contradiction.
  - intros piles. apply move_checked_total; [exact pair_eqb_eq|].
    intros [l p] [i k] _ Hin. apply nim_actions_In in Hin as [Hi Hk].
    eexists. now apply nim_next_legal.
  - intros N HN. destruct (c4_size_nat N HN) as (n & Hn & ->).
    rewrite Nat2Z.id.
    apply move_checked_total; [exact Z.eqb_eq|].
    intros [b p] a Hs Hin. cbn [fst] in Hs.
    change (In a (ConnectFourGame.actions (Z.of_nat n) (b, p))) in Hin.
    apply (c4_actions_In n) in Hin as (_ & c & -> & Hc & Hz). cbn [fst] in *.
    assert (Hpos : (0 < n)%nat) by (destruct Hn; lia).
    rewrite (shape_row n n b 0 Hs Hpos) in Hc.
    destruct (c4_next_legal n Hn b p c Hs Hc Hz) as (e & He & _).
    eexists. exact He.
Qed.

Lemma C7_move_validation_witness :
  (0 <= 1 /\ 0 <= 1
   /\ np.cell [[0; 0; 0]; [0; 1; 0]; [0; 0; 0]] (Z.to_nat 1) (Z.to_nat 1) <> 0
   /\ move TicTacToeGame.game
           {| state := ([[0; 0; 0]; [0; 1; 0]; [0; 0; 0]], -1); current_player := -1 |}
           (1, 1)
      = ({| state := ([[0; 0; 0]; [0; 1; 0]; [0; 0; 0]], -1); current_player := -1 |},
         Raise ValueError))
  /\ ((4 = 4 \/ 4 = 5)
      /\ shape (Z.to_nat 4) (Z.to_nat 4) (fst (ConnectFourGame.initial_state 4))
      /\ exists s',
          move (ConnectFourGame.game 4) (new_game (ConnectFourGame.game 4)) 2
          = ({| state := s'; current_player := player (ConnectFourGame.game 4) s' |},
             Ok s')).
Proof.
  split.
  - assert (Hocc : np.cell [[0; 0; 0]; [0; 1; 0]; [0; 0; 0]] (Z.to_nat 1) (Z.to_nat 1) <> 0)
      by (vm_compute; discriminate).
    split; [lia|]. split; [lia|]. split; [exact Hocc|].
    exact (proj2 (proj1 (proj2 C7_move_validation))
                 {| state := ([[0; 0; 0]; [0; 1; 0]; [0; 0; 0]], -1);
                    current_player := -1 |}
                 1 1 ltac:(lia) ltac:(lia) Hocc).
  - assert (Hs : shape (Z.to_nat 4) (Z.to_nat 4) (fst (ConnectFourGame.initial_state 4)))
      by (split; [reflexivity | repeat constructor]).
    split; [now left|]. split; [exact Hs|].
    destruct (proj2 (proj2 (proj2 (proj2 C7_move_validation)) 4 (or_introl eq_refl)
                      (new_game (ConnectFourGame.game 4)) 2 Hs)
                    ltac:(vm_compute; tauto)) as (s' & _ & Hm).
    exists s'. exact Hm.
Defined.

(** C9, counterexample. On a state that is not terminal [utility] does
    not raise; it returns [0], the utility of a draw.  The initial
    Tic-Tac-Toe board and a drawn final board have the same utility. *)
Lemma C9_counterexample :
  TicTacToeGame.is_terminal TicTacToeGame.initial_state = false
  /\ TicTacToeGame.utility TicTacToeGame.initial_state 1 = 0
  /\ TicTacToeGame.is_terminal ([[1; -1; 1]; [1; -1; -1]; [-1; 1; 1]], -1) = true
  /\ TicTacToeGame.utility ([[1; -1; 1]; [1; -1; -1]; [-1; 1; 1]], -1) 1
     = TicTacToeGame.utility TicTacToeGame.initial_state 1.
Proof. repeat split. Qed.

(** C9, corrected. In the four variants [utility] returns [0] at every state
    that is not terminal, for either player, without raising.  In
    Tic-Tac-Toe and Connect Four that is the utility of a draw; in Halving
    and Nim a terminal utility is [1] or [-1], never [0]. *)
Theorem C9_utility_off_terminal :
  (forall starting_number,
      utility_zero_off_terminal (HalvingGame.game starting_number))
  /\ utility_zero_off_terminal TicTacToeGame.game
  /\ (forall initial_piles, utility_zero_off_terminal (NimGame.game initial_piles))
  /\ (forall board_size, utility_zero_off_terminal (ConnectFourGame.game board_size))
  /\ (forall s p, HalvingGame.is_terminal s = true ->
                  HalvingGame.utility s p = 1 \/ HalvingGame.utility s p = -1)
  /\ (forall s p, NimGame.is_terminal s = true ->
                  NimGame.utility s p = 1 \/ NimGame.utility s p = -1).
Proof.
  split; [|split; [|split; [|split; [|split]]]].
  - intros n0 s p Ht. cbn [utility is_terminal HalvingGame.game] in *.
    unfold HalvingGame.utility. now rewrite Ht.
  - intros s p Ht. cbn [utility is_terminal TicTacToeGame.game] in *.
    unfold TicTacToeGame.utility. now rewrite Ht.
  - intros piles s p Ht. cbn [utility is_terminal NimGame.game] in *.
    unfold NimGame.utility. now rewrite Ht.
  - intros N s p Ht. cbn [utility is_terminal ConnectFourGame.game] in *.
    unfold ConnectFourGame.utility. now rewrite Ht.
  - intros [n q] p Ht. unfold HalvingGame.utility. rewrite Ht. simpl.
    destruct (p =? - q); auto.
  - intros [l q] p Ht. unfold NimGame.utility. rewrite Ht. simpl.
    destruct (p =? - q); auto.
Qed.

Lemma C9_utility_off_terminal_witness :
  (HalvingGame.is_terminal (15, 1) = false /\ HalvingGame.utility (15, 1) 1 = 0)
  /\ (ConnectFourGame.is_terminal 5 (ConnectFourGame.initial_state 5) = false
      /\ ConnectFourGame.utility 5 (ConnectFourGame.initial_state 5) (-1) = 0)
  /\ (NimGame.is_terminal ([0; 0], -1) = true
      /\ (NimGame.utility ([0; 0], -1) 1 = 1 \/ NimGame.utility ([0; 0], -1) 1 = -1)).
Proof.
  split; [|split].
  - split; [reflexivity|].
    exact (proj1 C9_utility_off_terminal 15 (15, 1) 1 eq_refl).
  - split; [reflexivity|].
    exact (proj1 (proj2 (proj2 (proj2 C9_utility_off_terminal))) 5
                 (ConnectFourGame.initial_state 5) (-1) eq_refl).
  - split; [reflexivity|].
    exact (proj2 (proj2 (proj2 (proj2 (proj2 C9_utility_off_terminal))))
                 ([0; 0], -1) 1 eq_refl).
Defined.

(** ** The depth bound *)

Section DepthBound.
Context {State Action : Type} (G : Game State Action).

Lemma max_loop_ext (rec1 rec2 : Session State -> value -> value -> option (result value)) :
  (forall g a b, rec1 g a b = rec2 g a b) ->
  forall game acts m alpha beta,
    max_loop G rec1 game acts m alpha beta = max_loop G rec2 game acts m alpha beta.
Proof.
  intros H game acts. induction acts as [|x t IH]; intros m alpha beta; simpl.
  - reflexivity.
  - destruct (move G (copy game) x) as [g' [s'|e]]; [|reflexivity].
    rewrite H. destruct (rec2 g' alpha beta) as [[v|e]|]; try reflexivity.
    destruct (vle beta (vmax alpha v)); [reflexivity | apply IH].
Qed.

Lemma min_loop_ext (rec1 rec2 : Session State -> value -> value -> option (result value)) :
  (forall g a b, rec1 g a b = rec2 g a b) ->
  forall game acts m alpha beta,
    min_loop G rec1 game acts m alpha beta = min_loop G rec2 game acts m alpha beta.
Proof.
  intros H game acts. induction acts as [|x t IH]; intros m alpha beta; simpl.
  - reflexivity.
  - destruct (move G (copy game) x) as [g' [s'|e]]; [|reflexivity].
    rewrite H. destruct (rec2 g' alpha beta) as [[v|e]|]; try reflexivity.
    destruct (vle (vmin beta v) alpha); [reflexivity | apply IH].
Qed.

Lemma best_loop_ext (search1 search2 : Session State -> option (result value)) :
  (forall g, search1 g = search2 g) ->
  forall game acts ba bv,
    best_loop G search1 game acts ba bv = best_loop G search2 game acts ba bv.
Proof.
  intros H game acts. induction acts as [|x t IH]; intros ba bv; simpl.
  - reflexivity.
  - destruct (move G (copy game) x) as [g' [s'|e]]; [|reflexivity].
    rewrite H. destruct (search2 g') as [[v|e]|]; try reflexivity.
    destruct (vlt bv v); apply IH.
Qed.

Lemma minimax_depth_zero (pid : Z) (fuel : nat) :
  forall g depth mx alpha beta,
    _minimax G {| player_id := pid; max_depth := Some 0 |} fuel g depth mx alpha beta
    = _minimax G {| player_id := pid; max_depth := None |} fuel g depth mx alpha beta.
Proof.
  induction fuel as [|fuel IH]; intros g depth mx alpha beta; simpl.
  - reflexivity.
  - change (depth_cutoff {| player_id := pid; max_depth := Some 0 |} depth)
      with (depth_cutoff {| player_id := pid; max_depth := None |} depth).
    destruct (is_game_over G g || _); [reflexivity|].
    destruct mx; [apply max_loop_ext | apply min_loop_ext]; intros; apply IH.
Qed.
Lemma fold_children_ext (rec1 rec2 : State -> option (result value))
    (pick : value -> value -> value) (s : State) :
  (forall s', rec1 s' = rec2 s') ->
  forall acts acc,
    fold_children G rec1 pick s acts acc = fold_children G rec2 pick s acts acc.
Proof.
  intros H acts. induction acts as [|x t IH]; intros acc; simpl.
  - reflexivity.
  - destruct (next G s x) as [s'|e]; [|reflexivity].
    rewrite H. destruct (rec2 s') as [[v|e]|]; try reflexivity. apply IH.
Qed.

(** Without a cutoff, plain minimax is the value of the state when play
    goes on to the end. *)
Lemma minimax_value_unbounded (self : MinimaxAgent) :
  (forall depth, depth_cutoff self depth = false) ->
  forall fuel s depth mx,
    minimax_value G self fuel s depth mx
    = full_value G (player_id self) fuel s mx.
Proof.
  intros Hc. induction fuel as [|fuel IH]; intros s depth mx;
    rewrite minimax_value_unfold, Hc, orb_false_r; simpl;
    destruct (is_terminal G s); try reflexivity.
  destruct mx; apply fold_children_ext; intros; apply IH.
Qed.

Lemma depth_cutoff_zero (pid depth : Z) :
  depth_cutoff {| player_id := pid; max_depth := Some 0 |} depth = false.
Proof. reflexivity. Qed.

Lemma depth_cutoff_none (pid depth : Z) :
  depth_cutoff {| player_id := pid; max_depth := None |} depth = false.
Proof. reflexivity. Qed.

Lemma search_is_full_value (pid : Z) (max_depth : option Z) :
  max_depth = Some 0 \/ max_depth = None ->
  (forall a, action_eqb G a a = true) ->
  forall fuel (g : Session State) depth mx v,
    full_value G pid fuel (state g) mx = Some (Ok v) ->
    _minimax G {| player_id := pid; max_depth := max_depth |} fuel g depth mx
             NegInf PosInf
    = Some (Ok v).
Proof.
  intros Hd Heqb fuel g depth mx v Hv.
  apply (minimax_full_window G _ Heqb).
  rewrite minimax_value_unbounded; [exact Hv|].
  intros d. destruct Hd as [-> | ->]; reflexivity.
Qed.

Lemma full_value_total (W : WellBehaved G) (pid : Z) (fuel : nat) (s : State)
    (mx : bool) :
  inv W s -> (measure W s <= fuel)%nat ->
  exists z, full_value G pid fuel s mx = Some (Ok (Fin z)).
Proof.
  intros Hi Hm.
  destruct (minimax_value_total G {| player_id := pid; max_depth := None |} W
              fuel s 0 mx Hi Hm) as (z & Hz).
  exists z. rewrite <- Hz. symmetry.
  apply (minimax_value_unbounded {| player_id := pid; max_depth := None |}).
  intros d. reflexivity.
Qed.
End DepthBound.



(** ** Win detection *)

Lemma winner_by_lines_iff (n len : nat) (b : list (list Z)) (q : Z) :
  q = 1 \/ q = -1 ->
  has_line n len b 1 && has_line n len b (-1) = false ->
  (winner_by_lines n len b = Some q <-> has_line n len b q = true).
Proof.
  intros Hq Hone. unfold winner_by_lines.
  destruct (has_line n len b 1) eqn:E1, (has_line n len b (-1)) eqn:E2;
    try discriminate; destruct Hq as [-> | ->]; rewrite ?E1, ?E2;
    split; intros H; try reflexivity; try discriminate.
Qed.

(** C3. On every board reachable by legal moves, Tic-Tac-Toe reports
    player [q] as the winner exactly when [q] fully occupies a row, column
    or diagonal of 3 cells, and Connect Four (sizes 4 and 5) exactly when
    [q] fully occupies a line of 4 cells in one of the four directions;
    a winner makes the state terminal, with utility [1] for the winner
    and [-1] for the other player.  On the 5x5 board the lines of 4 cells
    are those of the four 4x4 windows at offsets [{0,1} x {0,1}]. *)
Theorem C3_win_detection :
  win_detection_exact TicTacToeGame.game TicTacToeGame._check_winner 3 3
  /\ (forall board_size,
         board_size = 4 \/ board_size = 5 ->
         win_detection_exact (ConnectFourGame.game board_size)
                             (ConnectFourGame._check_winner board_size)
                             (Z.to_nat board_size) 4)
  /\ (forall s q,
         reachable (ConnectFourGame.game 5) s ->
         has_line 5 4 (fst s) q
         = existsb (fun off => has_line 4 4 (np.window (fst s) (fst off) (snd off) 4 4) q)
                   ConnectFourGame.window_offsets).
Proof.
  split; [|split].
  - intros [b p] q Hr Hq.
    pose proof (reachable_inv _ ttt_wb _ Hr) as (Hs & Hc & Hp & Hl).
    cbn [fst snd] in *.
    assert (Hone : has_line 3 3 b 1 && has_line 3 3 b (-1) = false)
      by (destruct Hp as [-> | ->]; rewrite Hl; [reflexivity | apply andb_false_r]).
    pose proof (ttt_check_winner_lines b Hs Hc) as Hw.
    assert (Hiff : TicTacToeGame._check_winner b = Some q <-> has_line 3 3 b q = true)
      by (rewrite Hw; now apply winner_by_lines_iff).
    split; [exact Hiff|].
    intros Hline. apply Hiff in Hline.
    cbn [is_terminal utility TicTacToeGame.game].
    unfold TicTacToeGame.utility, TicTacToeGame.is_terminal. rewrite Hline.
    simpl negb. cbv iota. rewrite Z.eqb_refl.
    split; [reflexivity|]. split; [reflexivity|].
    destruct Hq as [-> | ->]; reflexivity.
  - intros N HN [b p] q Hr Hq.
    destruct (c4_size_nat N HN) as (n & Hn & ->). rewrite Nat2Z.id.
    pose proof (reachable_inv _ (c4_wb n Hn) _ Hr) as (Hs & Hc & Hp & _ & Hl).
    cbn [fst snd] in *.
    pose proof (c4_one_winner n b p Hp Hl) as Hone.
    pose proof (c4_check_winner_lines n b Hn Hs Hc Hone) as Hw.
    assert (Hiff : ConnectFourGame._check_winner (Z.of_nat n) b = Some q
                   <-> has_line n 4 b q = true)
      by (rewrite Hw; now apply winner_by_lines_iff).
    split; [exact Hiff|].
    intros Hline. apply Hiff in Hline.
    cbn [is_terminal utility ConnectFourGame.game].
    unfold ConnectFourGame.utility, ConnectFourGame.is_terminal. rewrite Hline.
    simpl negb. cbv iota. rewrite Z.eqb_refl.
    split; [reflexivity|]. split; [reflexivity|].
    destruct Hq as [-> | ->]; reflexivity.
  - intros [b p] q Hr.
    pose proof (reachable_inv _ (c4_wb 5 (or_intror eq_refl)) _ Hr) as (Hs & _).
    cbn [fst] in *. now apply has_line_5_windows.
Qed.

Lemma C3_win_detection_witness :
  (4 = 4 \/ 4 = 5)
  /\ reachable (ConnectFourGame.game 4)
               ([[0; 0; 0; 0]; [0; 0; 0; 0]; [0; 0; 0; 0]; [1; 0; 0; 0]], -1)
  /\ (1 = 1 \/ 1 = -1)
  /\ (ConnectFourGame._check_winner 4
        [[0; 0; 0; 0]; [0; 0; 0; 0]; [0; 0; 0; 0]; [1; 0; 0; 0]] = Some 1
      <-> has_line (Z.to_nat 4) 4
            [[0; 0; 0; 0]; [0; 0; 0; 0]; [0; 0; 0; 0]; [1; 0; 0; 0]] 1 = true).
Proof.
  assert (Hr : reachable (ConnectFourGame.game 4)
                 ([[0; 0; 0; 0]; [0; 0; 0; 0]; [0; 0; 0; 0]; [1; 0; 0; 0]], -1)).
  { apply (reach_step (ConnectFourGame.game 4) (ConnectFourGame.initial_state 4) 0).
    - apply (reach_init (ConnectFourGame.game 4)).
    - vm_compute. tauto.
    - reflexivity. }
  split; [now left|]. split; [exact Hr|]. split; [now left|].
  exact (proj1 (proj1 (proj2 C3_win_detection) 4 (or_introl eq_refl) _ 1 Hr
                      (or_introl eq_refl))).
Defined.

(** ** The nim-sum strategy *)

Section NimSum.
Import NimGame.

Lemma fold_lxor_acc (l : list Z) (a : Z) :
  fold_left Z.lxor l a = Z.lxor a (fold_left Z.lxor l 0).
Proof.
  revert a. induction l as [|x t IH]; intros a; simpl.
  - now rewrite Z.lxor_0_r.
  - rewrite (IH (Z.lxor a x)), (IH x). apply Z.lxor_assoc.
Qed.

Lemma fold_lxor_cons (x : Z) (t : list Z) :
  fold_left Z.lxor (x :: t) 0 = Z.lxor x (fold_left Z.lxor t 0).
Proof. simpl. apply fold_lxor_acc. Qed.

Lemma fold_lxor_set (l : list Z) (i : nat) (v : Z) :
  (i < length l)%nat ->
  fold_left Z.lxor (np.list_set l i v) 0
  = Z.lxor (Z.lxor (fold_left Z.lxor l 0) (nth i l 0)) v.
Proof.
  revert i. induction l as [|x t IH]; intros [|i] Hi; simpl length in Hi; try lia.
  - cbn [np.list_set nth]. rewrite !fold_lxor_cons.
    rewrite (Z.lxor_comm x (fold_left Z.lxor t 0)).
    rewrite (Z.lxor_assoc (fold_left Z.lxor t 0) x x).
    rewrite Z.lxor_nilpotent, Z.lxor_0_r.
    apply Z.lxor_comm.
  - cbn [np.list_set nth]. rewrite !fold_lxor_cons, IH by lia.
    now rewrite !Z.lxor_assoc.
Qed.

Lemma fold_lxor_nonneg (l : list Z) :
  Forall (fun x => 0 <= x) l -> 0 <= fold_left Z.lxor l 0.
Proof.
  induction 1 as [|x t Hx Ht IH]; [simpl; lia|].
  rewrite fold_lxor_cons. apply Z.lxor_nonneg. tauto.
Qed.

Lemma fold_lxor_bit (l : list Z) (d : Z) :
  Z.testbit (fold_left Z.lxor l 0) d = true ->
  exists x, In x l /\ Z.testbit x d = true.
Proof.
  induction l as [|x t IH]; intros H.
  - simpl in H. rewrite Z.bits_0 in H. discriminate.
  - rewrite fold_lxor_cons, Z.lxor_spec in H.
    destruct (Z.testbit x d) eqn:E.
    + exists x. split; [now left | exact E].
    + simpl in H. destruct (IH H) as (y & Hy & Hb).
      exists y. split; [now right | exact Hb].
Qed.

Lemma mod_pow2_bit (a d : Z) :
  0 <= d ->
  a mod 2 ^ (d + 1) = a mod 2 ^ d + 2 ^ d * Z.b2z (Z.testbit a d).
Proof.
  intros Hd.
  assert (Hp : 0 < 2 ^ d) by (apply Z.pow_pos_nonneg; lia).
  replace (2 ^ (d + 1)) with (2 ^ d * 2) by (rewrite Z.pow_add_r by lia; lia).
  rewrite Z.rem_mul_r by lia. f_equal. f_equal.
  rewrite Z.testbit_spec' by lia. reflexivity.
Qed.

(** Clearing the highest bit of [x] in [s] makes [s] smaller. *)
Lemma lxor_lt (s x : Z) :
  0 <= s -> 0 < x -> Z.testbit s (Z.log2 x) = true -> Z.lxor s x < s.
Proof.
  intros Hs Hx Hbit.
  set (d := Z.log2 x) in *.
  assert (Hd : 0 <= d) by apply Z.log2_nonneg.
  assert (Hp : 0 < 2 ^ d) by (apply Z.pow_pos_nonneg; lia).
  assert (HP : 2 ^ (d + 1) = 2 ^ d * 2) by (rewrite Z.pow_add_r by lia; lia).
  destruct (Z.log2_spec x Hx) as [_ Hup]. fold d in Hup.
  replace (Z.succ d) with (d + 1) in Hup by lia.
  assert (Hq : Z.lxor s x / 2 ^ (d + 1) = s / 2 ^ (d + 1)).
  { rewrite <- !Z.shiftr_div_pow2 by lia. rewrite Z.shiftr_lxor.
    rewrite (Z.shiftr_div_pow2 x) by lia.
    rewrite (Z.div_small x) by lia. apply Z.lxor_0_r. }
  assert (Hbx : Z.testbit x d = true) by (apply Z.bit_log2; exact Hx).
  pose proof (mod_pow2_bit s d Hd) as Hms.
  pose proof (mod_pow2_bit (Z.lxor s x) d Hd) as Hmt.
  rewrite Z.lxor_spec, Hbit, Hbx in Hmt. rewrite Hbit in Hms. simpl in Hms, Hmt.
  pose proof (Z.mod_pos_bound s (2 ^ d) Hp).
  pose proof (Z.mod_pos_bound (Z.lxor s x) (2 ^ d) Hp).
  rewrite (Z.div_mod s (2 ^ (d + 1))) at 2 by lia.
  rewrite (Z.div_mod (Z.lxor s x) (2 ^ (d + 1))) at 1 by lia.
  rewrite Hq. lia.
Qed.

Lemma argmax_first (a : list bool) :
  existsb (fun x => x) a = true ->
  (np.argmax a < length a)%nat
  /\ nth (np.argmax a) a false = true
  /\ forall j, (j < np.argmax a)%nat -> nth j a false = false.
Proof.
  induction a as [|x t IH]; simpl; [discriminate|].
  destruct x; simpl.
  - intros _. repeat split; [lia | intros j Hj; lia].
  - intros H. rewrite H. destruct (IH H) as (H1 & H2 & H3).
    repeat split; [lia | exact H2 |].
    intros [|j] Hj; [reflexivity | apply H3; lia].
Qed.

Lemma nth_map_lt {A B : Type} (f : A -> B) (l : list A) (i : nat) (da : A) (db : B) :
  (i < length l)%nat -> nth i (map f l) db = f (nth i l da).
Proof.
  revert i. induction l as [|x t IH]; intros [|i] H; simpl in *; try lia; auto.
  apply IH. lia.
Qed.

Lemma array_dtype_int64 (l : list Z) :
  l <> [] -> Forall (fun x => np.int64_min <= x <= np.int64_max) l ->
  np.array_dtype l = np.int64.
Proof.
  intros Hne H. destruct l as [|y t]; [congruence|].
  unfold np.array_dtype.
  replace (existsb (fun x => (x <? np.int64_min) || (np.uint64_max <? x)) (y :: t))
    with false.
  - replace (forallb (fun x => x <=? np.int64_max) (y :: t)) with true;
      [reflexivity|].
    symmetry. apply forallb_forall. intros x Hx.
    rewrite Forall_forall in H. apply Z.leb_le. now apply H.
  - symmetry. apply not_true_is_false. intros E.
    apply existsb_exists in E as (x & Hx & E).
    rewrite Forall_forall in H. specialize (H x Hx).
    unfold np.int64_min, np.int64_max, np.uint64_max in *.
    apply orb_true_iff in E as [E | E];
      [apply Z.ltb_lt in E | apply Z.ltb_lt in E]; lia.
Qed.

Lemma piles_in_range_int64 (l : list Z) :
  Forall (fun pile => 0 <= pile < np.int64_max) l ->
  Forall (fun x => np.int64_min <= x <= np.int64_max) l.
Proof.
  intros H. eapply Forall_impl; [|exact H]. simpl.
  unfold np.int64_min, np.int64_max. intros; lia.
Qed.

Lemma wrap_int64_small (z : Z) :
  np.int64_min <= z <= np.int64_max -> np.wrap_int64 z = z.
Proof.
  unfold np.wrap_int64, np.int64_min, np.int64_max, np.uint64_max. intros H.
  rewrite Z.mod_small; lia.
Qed.

Lemma nim_sum_ok (piles : list Z) (p x : Z) :
  get_nim_sum (piles, p) = Ok x ->
  piles <> [] /\ x = fold_left Z.lxor piles 0.
Proof.
  unfold get_nim_sum. destruct piles as [|y t]; [discriminate|].
  destruct (np.array_dtype (y :: t)); try discriminate;
    intros H; injection H as <-; (split; [discriminate | reflexivity]).
Qed.

Lemma nim_sum_in_range (piles : list Z) (p : Z) :
  piles <> [] -> Forall (fun pile => 0 <= pile < np.int64_max) piles ->
  get_nim_sum (piles, p) = Ok (fold_left Z.lxor piles 0).
Proof.
  intros Hne H. unfold get_nim_sum.
  now rewrite (array_dtype_int64 piles Hne (piles_in_range_int64 _ H)).
Qed.

Lemma nim_sum_set (piles : list Z) (p : Z) (i : nat) (v : Z) :
  Forall (fun pile => 0 <= pile < np.int64_max) piles ->
  0 <= v < np.int64_max ->
  (i < length piles)%nat ->
  get_nim_sum (np.list_set piles i v, p)
  = Ok (Z.lxor (Z.lxor (fold_left Z.lxor piles 0) (nth i piles 0)) v).
Proof.
  intros Hr Hv Hi. rewrite nim_sum_in_range.
  - now rewrite fold_lxor_set.
  - intros E. apply (f_equal (@length Z)) in E.
    rewrite length_list_set in E. simpl in E. lia.
  - now apply Forall_list_set.
Qed.
End NimSum.

(** C4. On a Nim state whose pile sizes lie from [0] to
    [np.int64_max - 1] (so that numpy computes on int64 without
    wrap-around and [actions()] lists every legal action): when the
    nim-sum is not zero, [get_optimal_move] returns the legal action on
    the first pile, in index order, whose target [size XOR nim_sum] is
    below its size, removing [size - target] objects, and [next] on that
    action gives a state of nim-sum [0]; when the nim-sum is [0], it
    returns [None] and every legal move gives a state whose nim-sum is
    not [0].  On the state without piles both functions raise
    [TypeError]. *)
Theorem C4_nim_sum_strategy :
  forall (piles : list Z) (p : Z),
    Forall (fun pile => 0 <= pile < np.int64_max) piles ->
    (forall nim_sum,
        NimGame.get_nim_sum (piles, p) = Ok nim_sum -> nim_sum <> 0 ->
        exists i,
          (i < length piles)%nat /\
          let size := nth i piles 0 in
          let target := Z.lxor size nim_sum in
          target < size /\
          (forall j, (j < i)%nat ->
                     ~ Z.lxor (nth j piles 0) nim_sum < nth j piles 0) /\
          NimGame.get_optimal_move (piles, p) = Ok (Some (Z.of_nat i, size - target)) /\
          In (Z.of_nat i, size - target) (NimGame.actions (piles, p)) /\
          exists s',
            NimGame.next (piles, p) (Z.of_nat i, size - target) = Ok s'
            /\ NimGame.get_nim_sum s' = Ok 0)
    /\ (NimGame.get_nim_sum (piles, p) = Ok 0 ->
        NimGame.get_optimal_move (piles, p) = Ok None
        /\ forall a, In a (NimGame.actions (piles, p)) ->
                     exists s' nim_sum',
                       NimGame.next (piles, p) a = Ok s'
                       /\ NimGame.get_nim_sum s' = Ok nim_sum'
                       /\ nim_sum' <> 0)
    /\ (piles <> [] ->
        NimGame.get_nim_sum (piles, p) = Ok (fold_left Z.lxor piles 0))
    /\ (piles = [] ->
        NimGame.get_nim_sum (piles, p) = Raise TypeError
        /\ NimGame.get_optimal_move (piles, p) = Raise TypeError).
Proof.
  intros piles p Hrange.
  pose proof (piles_in_range_nonneg piles Hrange) as Hpos.
  split; [|split; [|split]].
  - intros x Hsum Hx.
    destruct (nim_sum_ok piles p x Hsum) as [Hne Hfold].
    pose proof (fold_lxor_nonneg piles Hpos) as Hnn. rewrite <- Hfold in Hnn.
    assert (Hxpos : 0 < x) by lia.
    assert (Hbit : Z.testbit x (Z.log2 x) = true) by (apply Z.bit_log2; exact Hxpos).
    rewrite Hfold in Hbit at 1.
    destruct (fold_lxor_bit piles _ Hbit) as (y & Hy & Hyb).
    set (valid_moves := map (fun q => Z.lxor q x <? q) piles).
    assert (Hany : existsb (fun b => b) valid_moves = true).
    { apply existsb_exists. exists (Z.lxor y x <? y). split.
      - unfold valid_moves. now apply (in_map (fun q => Z.lxor q x <? q)).
      - apply Z.ltb_lt. apply lxor_lt; try assumption.
        rewrite Forall_forall in Hpos. now apply Hpos. }
    destruct (argmax_first valid_moves Hany) as (Hlt & Htrue & Hfirst).
    set (i := np.argmax valid_moves) in *.
    assert (Hi : (i < length piles)%nat)
      by (unfold valid_moves in Hlt; now rewrite length_map in Hlt).
    assert (Hsize : 0 <= nth i piles 0 < np.int64_max)
      by (apply (Forall_nth_default (fun q => 0 <= q < np.int64_max));
          [exact Hrange | unfold np.int64_max; lia]).
    assert (Htarget : Z.lxor (nth i piles 0) x < nth i piles 0).
    { unfold valid_moves in Htrue.
      rewrite (nth_map_lt _ piles i 0 false Hi) in Htrue. now apply Z.ltb_lt. }
    assert (Htnn : 0 <= Z.lxor (nth i piles 0) x) by (apply Z.lxor_nonneg; lia).
    exists i. split; [exact Hi|]. cbv zeta.
    split; [exact Htarget|]. split; [|split; [|split]].
    + intros j Hj Hlt'. specialize (Hfirst j Hj). unfold valid_moves in Hfirst.
      rewrite (nth_map_lt _ piles j 0 false) in Hfirst by lia.
      apply Z.ltb_ge in Hfirst. lia.
    + unfold NimGame.get_optimal_move. rewrite Hsum. simpl bind.
      destruct (Z.eqb_spec x 0); [contradiction|].
      fold valid_moves. rewrite Hany. fold i.
      rewrite (nth_map_lt (fun q => Z.lxor q x) piles i 0 0 Hi).
      rewrite (array_dtype_int64 piles Hne (piles_in_range_int64 _ Hrange)).
      unfold np.subtract. rewrite wrap_int64_small; [reflexivity|].
      unfold np.int64_min, np.int64_max in *.
      remember (nth i piles 0) as size. remember (Z.lxor size x) as target. lia.
    + apply nim_actions_In. cbn [fst]. rewrite Nat2Z.id.
      remember (nth i piles 0) as size. lia.
    + eexists. split.
      * apply nim_next_legal; rewrite ?Nat2Z.id;
          remember (nth i piles 0) as size; lia.
      * rewrite Nat2Z.id, nim_sum_set; try assumption.
        -- rewrite <- Hfold. f_equal.
           replace (nth i piles 0 - (nth i piles 0 - Z.lxor (nth i piles 0) x))
             with (Z.lxor (nth i piles 0) x) by lia.
           rewrite (Z.lxor_comm (nth i piles 0) x). apply Z.lxor_nilpotent.
        -- remember (nth i piles 0) as size. remember (Z.lxor size x) as target.
           lia.
  - intros Hsum. split.
    + unfold NimGame.get_optimal_move. rewrite Hsum. reflexivity.
    + intros [i k] Hin.
      destruct (nim_sum_ok piles p 0 Hsum) as [Hne Hfold].
      apply nim_actions_In in Hin as [Hi Hk]. cbn [fst] in *.
      assert (Hsize : 0 <= nth (Z.to_nat i) piles 0 < np.int64_max)
        by (apply (Forall_nth_default (fun q => 0 <= q < np.int64_max));
            [exact Hrange | unfold np.int64_max; lia]).
      eexists. eexists. split; [now apply nim_next_legal|]. split.
      * apply nim_sum_set; [exact Hrange | | lia].
        remember (nth (Z.to_nat i) piles 0) as size. lia.
      * rewrite <- Hfold, Z.lxor_0_l. intros E. apply Z.lxor_eq in E.
        remember (nth (Z.to_nat i) piles 0) as size. lia.
  - intros Hne. now apply nim_sum_in_range.
  - intros ->. split; reflexivity.
Qed.

Lemma C4_nim_sum_strategy_witness :
  Forall (fun pile => 0 <= pile < np.int64_max) [1; 3; 5; 6]
  /\ NimGame.get_nim_sum ([1; 3; 5; 6], 1) = Ok 1
  /\ 1 <> 0
  /\ (exists i,
         NimGame.get_optimal_move ([1; 3; 5; 6], 1)
         = Ok (Some (Z.of_nat i,
                     nth i [1; 3; 5; 6] 0 - Z.lxor (nth i [1; 3; 5; 6] 0) 1)))
  /\ NimGame.get_optimal_move ([1; 3; 5; 6], 1) = Ok (Some (0, 1))
  /\ Forall (fun pile => 0 <= pile < np.int64_max) [1; 3; 5; 7]
  /\ NimGame.get_nim_sum ([1; 3; 5; 7], 1) = Ok 0
  /\ NimGame.get_optimal_move ([1; 3; 5; 7], 1) = Ok None
  /\ NimGame.get_nim_sum ([1; 3; 5; 7], 1) = Ok (fold_left Z.lxor [1; 3; 5; 7] 0)
  /\ NimGame.get_nim_sum ([], 1) = Raise TypeError.
Proof.
  assert (H1 : Forall (fun pile => 0 <= pile < np.int64_max) [1; 3; 5; 6])
    by (repeat constructor; unfold np.int64_max; lia).
  assert (H2 : Forall (fun pile => 0 <= pile < np.int64_max) [1; 3; 5; 7])
    by (repeat constructor; unfold np.int64_max; lia).
  split; [exact H1|]. split; [reflexivity|]. split; [lia|]. split.
  - destruct (proj1 (C4_nim_sum_strategy [1; 3; 5; 6] 1 H1) 1 eq_refl ltac:(lia))
      as (i & _ & _ & _ & Hmove & _).
    exists i. exact Hmove.
  - split; [reflexivity|]. split; [exact H2|]. split; [reflexivity|].
    split; [|split].
    + exact (proj1 (proj1 (proj2 (C4_nim_sum_strategy [1; 3; 5; 7] 1 H2)) eq_refl)).
    + exact (proj1 (proj2 (proj2 (C4_nim_sum_strategy [1; 3; 5; 7] 1 H2)))
                   ltac:(discriminate)).
    + exact (proj1 (proj2 (proj2 (proj2 (C4_nim_sum_strategy [] 1 (Forall_nil _))))
                          eq_refl)).
Defined.

(** ** What [next] rejects *)

Lemma index_in_range (len : nat) (i : Z) :
  0 <= i < Z.of_nat len -> np.index len i = Ok (Z.to_nat i).
Proof.
  intros H. unfold np.index.
  destruct (Z.leb_spec 0 i); [|lia].
  destruct (Z.ltb_spec i (Z.of_nat len)); [|lia]. reflexivity.
Qed.

Lemma ttt_next_occupied (b : TicTacToeGame.Board) (p row col : Z) :
  shape 3 3 b -> 0 <= row < 3 -> 0 <= col < 3 ->
  np.cell b (Z.to_nat row) (Z.to_nat col) <> 0 ->
  TicTacToeGame.next (b, p) (row, col) = Raise ValueError.
Proof.
  intros Hs Hr Hc Hocc. pose proof Hs as [Hlen _].
  unfold TicTacToeGame.next, np.getitem2.
  rewrite index_in_range by lia. simpl bind.
  rewrite index_in_range by (rewrite (shape_row 3 3 b _ Hs); lia). simpl bind.
  destruct (Z.eqb_spec (np.cell b (Z.to_nat row) (Z.to_nat col)) 0);
    [contradiction | reflexivity].
Qed.

Lemma c4_next_out_of_range (N : Z) (s : ConnectFourGame.State) (a : Z) :
  a < 0 \/ N <= a -> ConnectFourGame.next N s a = Raise ValueError.
Proof.
  intros H. destruct s as [b p]. unfold ConnectFourGame.next.
  destruct (Z.ltb_spec a 0); [reflexivity|].
  destruct (Z.leb_spec N a); [reflexivity | lia].
Qed.

Lemma c4_next_full (n : nat) (b : ConnectFourGame.Board) (p a : Z) :
  shape n n b -> 0 <= a < Z.of_nat n ->
  np.cell b 0 (Z.to_nat a) <> 0 ->
  ConnectFourGame.next (Z.of_nat n) (b, p) a = Raise ValueError.
Proof.
  intros Hs Ha Hfull. pose proof Hs as [Hlen _].
  unfold ConnectFourGame.next, np.getitem2.
  destruct (Z.ltb_spec a 0); [lia|].
  destruct (Z.leb_spec (Z.of_nat n) a); [lia|]. simpl orb. cbv iota.
  rewrite (index_in_range (length b) 0) by lia. simpl bind.
  change (Z.to_nat 0) with 0%nat.
  rewrite index_in_range by (rewrite (shape_row n n b 0 Hs); lia). simpl bind.
  destruct (Z.eqb_spec (np.cell b 0 (Z.to_nat a)) 0); [contradiction | reflexivity].
Qed.




(* ================================================================== *)
(** * Part IV. Further properties of the code                          *)
(* ================================================================== *)

(** ** Induction on reachable states, with the invariant at hand *)

Lemma reachable_ind_inv {State Action : Type} (G : Game State Action)
    (W : WellBehaved G) (P : State -> Prop) :
  P (initial_state G) ->
  (forall s a s', reachable G s -> inv W s -> P s -> In a (actions G s) ->
                  next G s a = Ok s' -> P s') ->
  forall s, reachable G s -> P s.
Proof.
  intros Hinit Hstep s Hr. induction Hr as [|s a s' Hr IH Hin Hn].
  - exact Hinit.
  - exact (Hstep s a s' Hr (reachable_inv G W s Hr) IH Hin Hn).
Qed.

Lemma wb_actions_empty_iff_terminal {State Action : Type} (G : Game State Action)
    (W : WellBehaved G) :
  actions_empty_iff_terminal G.
Proof.
  intros s Hr. split.
  - intros He. destruct (is_terminal G s) eqn:Ht; [reflexivity|].
    exfalso. exact (wb_live W s (reachable_inv G W s Hr) Ht He).
  - apply (wb_dead W).
Qed.

(** X1. In the four variants (Nim with pile sizes from [0] to
    [np.int64_max - 1], the range in which [actions()] lists every legal
    action), at every reachable state, [actions] returns the empty list
    exactly when [is_terminal] holds. *)
Theorem X1_actions_empty_iff_terminal :
  (forall starting_number,
      0 <= starting_number ->
      actions_empty_iff_terminal (HalvingGame.game starting_number))
  /\ actions_empty_iff_terminal TicTacToeGame.game
  /\ (forall initial_piles,
         Forall (fun pile => 0 <= pile < np.int64_max) initial_piles ->
         actions_empty_iff_terminal (NimGame.game initial_piles))
  /\ (forall board_size,
         board_size = 4 \/ board_size = 5 ->
         actions_empty_iff_terminal (ConnectFourGame.game board_size)).
Proof.
  split; [|split; [|split]].
  - intros n0 H. exact (wb_actions_empty_iff_terminal _ (halving_wb n0 H)).
  - exact (wb_actions_empty_iff_terminal _ ttt_wb).
  - intros piles H.
    exact (wb_actions_empty_iff_terminal _
             (nim_wb piles (piles_in_range_nonneg _ H))).
  - intros N H. destruct (c4_size_nat N H) as (n & Hn & ->).
    exact (wb_actions_empty_iff_terminal _ (c4_wb n Hn)).
Qed.

Lemma X1_actions_empty_iff_terminal_witness :
  Forall (fun pile => 0 <= pile < np.int64_max) [0; 1]
  /\ reachable (NimGame.game [0; 1]) ([0; 0], -1)
  /\ (actions (NimGame.game [0; 1]) ([0; 0], -1) = []
      <-> is_terminal (NimGame.game [0; 1]) ([0; 0], -1) = true).
Proof.
  assert (Hp : Forall (fun pile => 0 <= pile < np.int64_max) [0; 1])
    by (repeat constructor; unfold np.int64_max; lia).
  assert (Hr : reachable (NimGame.game [0; 1]) ([0; 0], -1)).
  { apply (reach_step (NimGame.game [0; 1]) ([0; 1], 1) (1, 1)).
    - apply (reach_init (NimGame.game [0; 1])).
    - vm_compute. tauto.
    - reflexivity. }
  split; [exact Hp|]. split; [exact Hr|].
  exact (proj1 (proj2 (proj2 X1_actions_empty_iff_terminal)) [0; 1] Hp _ Hr).
Defined.

(** ** Turn order *)

Section TurnOrder.
Context {State Action : Type} (G : Game State Action).
Hypothesis player_init : player G (initial_state G) = 1.
Hypothesis player_next :
  forall s a s', next G s a = Ok s' -> player G s' = - player G s.

Lemma move_ok_next (g g' : Session State) (a : Action) (s' : State) :
  move G g a = (g', Ok s') ->
  next G (state g) a = Ok s'
  /\ g' = {| state := s'; current_player := player G s' |}.
Proof.
  unfold move.
  destruct (negb (action_in G a (actions G (state g)))); [discriminate|].
  destruct (next G (state g) a) as [s''|e]; [|discriminate].
  intros H. injection H as <- <-. now split.
Qed.

Lemma play_alternates (acts : list Action) :
  forall g g',
    current_player g = player G (state g) ->
    play G g acts = (g', Ok tt) ->
    current_player g' = player G (state g')
    /\ current_player g'
       = (if Nat.even (length acts) then current_player g else - current_player g).
Proof.
  induction acts as [|a rest IH]; intros g g' Hc Hp; simpl in Hp.
  - injection Hp as <-. split; [exact Hc | reflexivity].
  - destruct (move G g a) as [g1 [s1|e]] eqn:Hm; [|discriminate].
    apply move_ok_next in Hm as [Hn ->].
    destruct (IH {| state := s1; current_player := player G s1 |} g' eq_refl Hp)
      as [H1 H2].
    split; [exact H1|].
    rewrite H2. cbn [current_player]. rewrite (player_next _ _ _ Hn), <- Hc.
    change (length (a :: rest)) with (S (length rest)).
    rewrite Nat.even_succ, <- Nat.negb_even.
    destruct (Nat.even (length rest)); simpl; lia.
Qed.

Lemma generic_turns_alternate : turns_alternate G.
Proof.
  intros acts g' Hp.
  destruct (play_alternates acts (new_game G) g') as [H1 H2];
    [cbn [new_game current_player state]; now rewrite player_init | exact Hp |].
  split; [exact H1|]. rewrite H2. cbn [new_game current_player].
  unfold initial_player. now destruct (Nat.even (length acts)).
Qed.
End TurnOrder.

Lemma halving_player_next s a s' :
  HalvingGame.next s a = Ok s' -> HalvingGame.player s' = - HalvingGame.player s.
Proof.
  destruct s as [n p]. unfold HalvingGame.next, HalvingGame.player.
  destruct (String.eqb a "subtract");
    [|destruct (String.eqb a "halve"); [|discriminate]];
    intros H; injection H as <-; reflexivity.
Qed.

Lemma ttt_player_next s a s' :
  TicTacToeGame.next s a = Ok s' -> TicTacToeGame.player s' = - TicTacToeGame.player s.
Proof.
  destruct s as [b p], a as [row col]. unfold TicTacToeGame.next, TicTacToeGame.player.
  destruct (np.getitem2 b row col) as [x|e]; [|discriminate]. simpl bind.
  destruct (negb (x =? 0)); [discriminate|].
  destruct (np.setitem2 b row col p) as [b'|e]; [|discriminate]. simpl bind.
  intros H; injection H as <-; reflexivity.
Qed.

Lemma nim_player_next s a s' :
  NimGame.next s a = Ok s' -> NimGame.player s' = - NimGame.player s.
Proof.
  destruct s as [l p], a as [i k]. unfold NimGame.next, NimGame.player.
  destruct ((i <? 0) || (Z.of_nat (length l) <=? i)); [discriminate|].
  destruct ((k <? 1) || (nth (Z.to_nat i) l 0 <? k)); [discriminate|].
  intros H; injection H as <-; reflexivity.
Qed.

Lemma c4_player_next N s a s' :
  ConnectFourGame.next N s a = Ok s' ->
  ConnectFourGame.player s' = - ConnectFourGame.player s.
Proof.
  destruct s as [b p]. unfold ConnectFourGame.next, ConnectFourGame.player.
  destruct ((a <? 0) || (N <=? a)); [discriminate|].
  destruct (np.getitem2 b 0 a) as [x|e]; [|discriminate]. simpl bind.
  destruct (negb (x =? 0)); [discriminate|].
  intros H; injection H as <-; reflexivity.
Qed.

(** X2. In the four variants turns alternate, whatever the configuration:
    after [k] successful calls of [move] on a new game the field
    [current_player] equals [player(state)], and it is [1] for even [k]
    and [-1] for odd [k]. *)
Theorem X2_turns_alternate :
  (forall starting_number, turns_alternate (HalvingGame.game starting_number))
  /\ turns_alternate TicTacToeGame.game
  /\ (forall initial_piles, turns_alternate (NimGame.game initial_piles))
  /\ (forall board_size, turns_alternate (ConnectFourGame.game board_size)).
Proof.
  split; [|split; [|split]].
  - intros n0. apply generic_turns_alternate; [reflexivity|].
    exact halving_player_next.
  - apply generic_turns_alternate; [reflexivity|]. exact ttt_player_next.
  - intros piles. apply generic_turns_alternate; [reflexivity|].
    exact nim_player_next.
  - intros N. apply generic_turns_alternate; [reflexivity|].
    exact (c4_player_next N).
Qed.

Lemma X2_turns_alternate_witness :
  play TicTacToeGame.game (new_game TicTacToeGame.game) [(1, 1); (0, 2); (2, 0)]
  = ({| state := ([[0; 0; -1]; [0; 1; 0]; [1; 0; 0]], -1); current_player := -1 |},
     Ok tt)
  /\ current_player
       {| state := ([[0; 0; -1]; [0; 1; 0]; [1; 0; 0]], -1); current_player := -1 |}
     = (if Nat.even 3 then 1 else -1).
Proof.
  split; [reflexivity|].
  exact (proj2 (proj1 (proj2 X2_turns_alternate) [(1, 1); (0, 2); (2, 0)] _ eq_refl)).
Defined.

(** ** [get_winner] *)

Lemma no_draw_winner_after_move {State Action : Type} (G : Game State Action)
    (g g' : Session State) (a : Action) (s' : State) :
  (forall s b t, next G s b = Ok t -> player G t = - player G s) ->
  (forall s p, is_terminal G s = true ->
               utility G s p = if p =? - player G s then 1 else -1) ->
  player G (state g) = 1 \/ player G (state g) = -1 ->
  current_player g = player G (state g) ->
  move G g a = (g', Ok s') -> is_game_over G g' = true ->
  get_winner G g' = Some (current_player g).
Proof.
  intros Hnext Hutil Hp Hc Hm Hover.
  apply move_ok_next in Hm as [Hn ->].
  unfold get_winner. rewrite Hover. simpl negb. cbv iota.
  unfold is_game_over in Hover. cbn [state] in *.
  rewrite !(Hutil s' _ Hover), (Hnext _ _ _ Hn), Hc.
  destruct Hp as [-> | ->]; reflexivity.
Qed.

Lemma halving_terminal_utility n0 s p :
  is_terminal (HalvingGame.game n0) s = true ->
  utility (HalvingGame.game n0) s p
  = if p =? - player (HalvingGame.game n0) s then 1 else -1.
Proof.
  cbn [is_terminal utility player HalvingGame.game]. intros Ht.
  unfold HalvingGame.utility. rewrite Ht. destruct s as [n q]. reflexivity.
Qed.

Lemma nim_terminal_utility piles s p :
  is_terminal (NimGame.game piles) s = true ->
  utility (NimGame.game piles) s p
  = if p =? - player (NimGame.game piles) s then 1 else -1.
Proof.
  cbn [is_terminal utility player NimGame.game]. intros Ht.
  unfold NimGame.utility. rewrite Ht. destruct s as [l q]. reflexivity.
Qed.

(** X3. In Halving and Nim, at every reachable state, [get_winner] is
    [None] while the game runs and, once it is over, the opponent of the
    player to act; it is never [0].  After a successful [move] that ends
    the game, that is the player who made the move.  In a game that is
    over from the start ([HalvingGame(0)], [NimGame([0, 0])]) nobody has
    moved and [get_winner] returns [-1]. *)
Theorem X3_get_winner_no_draw :
  (forall starting_number,
      winner_opposes_player_to_act (HalvingGame.game starting_number))
  /\ (forall initial_piles,
         winner_opposes_player_to_act (NimGame.game initial_piles)).
Proof.
  split.
  - intros n0. split; [|split].
    + intros g Hr. destruct (halving_two_players n0 _ Hr) as [Hp|Hp];
        unfold get_winner, is_game_over;
        cbn [utility is_terminal player HalvingGame.game] in *;
        destruct (state g) as [n p]; unfold HalvingGame.player in *; cbn [snd] in *;
        subst p; unfold HalvingGame.utility;
        destruct (HalvingGame.is_terminal _); reflexivity.
    + intros g a g' s' Hr Hc Hm Hover.
      apply (no_draw_winner_after_move _ g g' a s'); try assumption.
      * intros s b t. apply halving_player_next.
      * intros s p. apply halving_terminal_utility.
      * exact (halving_two_players n0 _ Hr).
    + intros Ht. unfold get_winner, is_game_over, new_game. cbn [state].
      rewrite Ht. simpl negb. cbv iota.
      rewrite !(halving_terminal_utility n0 _ _ Ht). reflexivity.
  - intros piles. split; [|split].
    + intros g Hr. destruct (nim_two_players piles _ Hr) as [Hp|Hp];
        unfold get_winner, is_game_over;
        cbn [utility is_terminal player NimGame.game] in *;
        destruct (state g) as [l p]; unfold NimGame.player in *; cbn [snd] in *;
        subst p; unfold NimGame.utility;
        destruct (NimGame.is_terminal _); reflexivity.
    + intros g a g' s' Hr Hc Hm Hover.
      apply (no_draw_winner_after_move _ g g' a s'); try assumption.
      * intros s b t. apply nim_player_next.
      * intros s p. apply nim_terminal_utility.
      * exact (nim_two_players piles _ Hr).
    + intros Ht. unfold get_winner, is_game_over, new_game. cbn [state].
      rewrite Ht. simpl negb. cbv iota.
      rewrite !(nim_terminal_utility piles _ _ Ht). reflexivity.
Qed.

Lemma X3_get_winner_no_draw_witness :
  reachable (HalvingGame.game 1) (1, 1)
  /\ move (HalvingGame.game 1) (new_game (HalvingGame.game 1)) "halve"%string
     = ({| state := (0, -1); current_player := -1 |}, Ok (0, -1))
  /\ get_winner (HalvingGame.game 1) {| state := (0, -1); current_player := -1 |}
     = Some 1
  /\ is_terminal (HalvingGame.game 0) (initial_state (HalvingGame.game 0)) = true
  /\ get_winner (HalvingGame.game 0) (new_game (HalvingGame.game 0)) = Some (-1)
  /\ get_winner (NimGame.game [0; 0]) (new_game (NimGame.game [0; 0])) = Some (-1).
Proof.
  assert (Hr : reachable (HalvingGame.game 1) (1, 1))
    by apply (reach_init (HalvingGame.game 1)).
  split; [exact Hr|]. split; [reflexivity|]. split; [|split; [reflexivity|split]].
  - exact (proj1 (proj2 (proj1 X3_get_winner_no_draw 1))
                 (new_game (HalvingGame.game 1)) "halve"%string
                 {| state := (0, -1); current_player := -1 |} (0, -1)
                 Hr eq_refl eq_refl eq_refl).
  - exact (proj2 (proj2 (proj1 X3_get_winner_no_draw 0)) eq_refl).
  - exact (proj2 (proj2 (proj2 X3_get_winner_no_draw [0; 0])) eq_refl).
Defined.

Lemma ttt_winner_cases (b : TicTacToeGame.Board) :
  TicTacToeGame._check_winner b = Some 1
  \/ TicTacToeGame._check_winner b = Some (-1)
  \/ TicTacToeGame._check_winner b = None.
Proof.
  unfold TicTacToeGame._check_winner.
  destruct (existsb _ _); [auto|]. destruct (existsb _ _); auto.
Qed.

Lemma c4_winner_cases (N : Z) (b : ConnectFourGame.Board) :
  ConnectFourGame._check_winner N b = Some 1
  \/ ConnectFourGame._check_winner N b = Some (-1)
  \/ ConnectFourGame._check_winner N b = None.
Proof.
  assert (H4 : forall w, ConnectFourGame._check_4x4_winner w = Some 1
                 \/ ConnectFourGame._check_4x4_winner w = Some (-1)
                 \/ ConnectFourGame._check_4x4_winner w = None).
  { intros w. unfold ConnectFourGame._check_4x4_winner.
    destruct (existsb _ _); [auto|]. destruct (existsb _ _); auto. }
  unfold ConnectFourGame._check_winner.
  destruct (N =? 4); [apply H4|]. destruct (N =? 5); [|auto].
  generalize ConnectFourGame.window_offsets.
  intros l. induction l as [|[ro co] l IH]; simpl; [auto|].
  destruct (H4 (np.window b ro co 4 4)) as [E|[E|E]]; rewrite E; auto.
Qed.

Lemma ttt_get_winner (g : Session TicTacToeGame.State) :
  get_winner TicTacToeGame.game g
  = if TicTacToeGame.is_terminal (state g)
    then match TicTacToeGame._check_winner (fst (state g)) with
         | Some q => Some q
         | None => Some 0
         end
    else None.
Proof.
  unfold get_winner, is_game_over. cbn [utility is_terminal TicTacToeGame.game].
  destruct (state g) as [b p]. cbn [fst].
  destruct (TicTacToeGame.is_terminal (b, p)) eqn:Ht; [|reflexivity].
  unfold TicTacToeGame.utility. rewrite Ht. simpl negb. cbv iota.
  destruct (ttt_winner_cases b) as [E|[E|E]]; rewrite E; reflexivity.
Qed.

Lemma c4_get_winner (N : Z) (g : Session ConnectFourGame.State) :
  get_winner (ConnectFourGame.game N) g
  = if ConnectFourGame.is_terminal N (state g)
    then match ConnectFourGame._check_winner N (fst (state g)) with
         | Some q => Some q
         | None => Some 0
         end
    else None.
Proof.
  unfold get_winner, is_game_over. cbn [utility is_terminal ConnectFourGame.game].
  destruct (state g) as [b p]. cbn [fst].
  destruct (ConnectFourGame.is_terminal N (b, p)) eqn:Ht; [|reflexivity].
  unfold ConnectFourGame.utility. rewrite Ht. simpl negb. cbv iota.
  destruct (c4_winner_cases N b) as [E|[E|E]]; rewrite E; reflexivity.
Qed.

(** What [get_winner] says when the winner is read off the lines and the
    game is over exactly when somebody owns a line or no cell is empty. *)
Lemma winner_by_board_of_lines (n len : nat) (b : list (list Z))
    (terminal : bool) (w r : option Z) :
  has_line n len b 1 && has_line n len b (-1) = false ->
  w = winner_by_lines n len b ->
  terminal = match w with Some _ => true | None => negb (np.any_zero b) end ->
  r = (if terminal then match w with Some q => Some q | None => Some 0 end else None) ->
  (forall q, q = 1 \/ q = -1 -> (r = Some q <-> has_line n len b q = true))
  /\ (r = Some 0
      <-> has_line n len b 1 = false /\ has_line n len b (-1) = false
          /\ np.any_zero b = false)
  /\ (r = None <-> terminal = false).
Proof.
  intros Hone -> -> ->. unfold winner_by_lines.
  destruct (has_line n len b 1) eqn:E1, (has_line n len b (-1)) eqn:E2;
    try discriminate; destruct (np.any_zero b); simpl;
    (split; [intros q [-> | ->]; rewrite ?E1, ?E2|split]);
    split; intros H; try reflexivity; try discriminate; try tauto;
    try (destruct H as (? & ? & ?); discriminate);
    try (repeat split; reflexivity).
Qed.

(** X4. In Tic-Tac-Toe and Connect Four, at every reachable state,
    [get_winner] returns a player exactly when that player owns a complete
    line, [0] exactly when nobody owns a line and the board is full, and
    [None] exactly when the game is not over. *)
Theorem X4_get_winner_board :
  winner_by_board TicTacToeGame.game 3 3
  /\ (forall board_size,
         board_size = 4 \/ board_size = 5 ->
         winner_by_board (ConnectFourGame.game board_size) (Z.to_nat board_size) 4).
Proof.
  split.
  - intros g Hr.
    pose proof (reachable_inv _ ttt_wb _ Hr) as (Hs & Hc & Hp & Hl).
    apply (winner_by_board_of_lines 3 3 (fst (state g))
             (TicTacToeGame.is_terminal (state g))
             (TicTacToeGame._check_winner (fst (state g)))).
    + destruct (state g) as [b p]. cbn [fst snd] in *.
      destruct Hp as [-> | ->]; rewrite Hl; [reflexivity | apply andb_false_r].
    + now apply ttt_check_winner_lines.
    + destruct (state g) as [b p]. reflexivity.
    + apply ttt_get_winner.
  - intros N HN g Hr. destruct (c4_size_nat N HN) as (n & Hn & ->).
    rewrite Nat2Z.id.
    pose proof (reachable_inv _ (c4_wb n Hn) _ Hr) as (Hs & Hc & Hp & _ & Hl).
    pose proof (c4_one_winner n _ _ Hp Hl) as Hone.
    apply (winner_by_board_of_lines n 4 (fst (state g))
             (ConnectFourGame.is_terminal (Z.of_nat n) (state g))
             (ConnectFourGame._check_winner (Z.of_nat n) (fst (state g)))).
    + exact Hone.
    + now apply c4_check_winner_lines.
    + destruct (state g) as [b p]. reflexivity.
    + apply c4_get_winner.
Qed.

Lemma X4_get_winner_board_witness :
  reachable TicTacToeGame.game TicTacToeGame.initial_state
  /\ (get_winner TicTacToeGame.game (new_game TicTacToeGame.game) = None
      <-> is_terminal TicTacToeGame.game TicTacToeGame.initial_state = false)
  /\ (4 = 4 \/ 4 = 5)
  /\ (get_winner (ConnectFourGame.game 4) (new_game (ConnectFourGame.game 4)) = Some 0
      <-> has_line (Z.to_nat 4) 4 (np.zeros 4 4) 1 = false
          /\ has_line (Z.to_nat 4) 4 (np.zeros 4 4) (-1) = false
          /\ np.any_zero (np.zeros 4 4) = false).
Proof.
  split; [apply (reach_init TicTacToeGame.game)|]. split.
  - exact (proj2 (proj2 (proj1 X4_get_winner_board (new_game TicTacToeGame.game)
                          (reach_init TicTacToeGame.game)))).
  - split; [now left|].
    exact (proj1 (proj2 (proj2 X4_get_winner_board 4 (or_introl eq_refl)
                          (new_game (ConnectFourGame.game 4))
                          (reach_init (ConnectFourGame.game 4))))).
Defined.

(** ** Pieces on the board *)

Lemma map_list_set {A B : Type} (f : A -> B) (l : list A) (i : nat) (v : A) :
  map f (np.list_set l i v) = np.list_set (map f l) i (f v).
Proof.
  revert i. induction l as [|x t IH]; intros [|i]; simpl; auto.
  now rewrite IH.
Qed.

Lemma board_sum_set_cell (b : list (list Z)) (r c : nat) (v : Z) :
  (r < length b)%nat -> (c < length (nth r b []))%nat ->
  board_sum (np.set_cell b r c v) = board_sum b - np.cell b r c + v.
Proof.
  intros Hr Hc. unfold board_sum, np.set_cell, np.cell.
  rewrite map_list_set, zsum_list_set by (rewrite length_map; exact Hr).
  rewrite zsum_list_set by exact Hc.
  change 0 with (np.zsum []) at 1. rewrite map_nth. lia.
Qed.

(** X5. In Tic-Tac-Toe and Connect Four the pieces on a reachable board
    match the turn: when [1] is to move the cells sum to [0] (as many
    pieces of each player), when [-1] is to move they sum to [1] (one more
    piece of player [1]). *)
Theorem X5_pieces_match_turn :
  pieces_match_turn TicTacToeGame.game
  /\ (forall board_size,
         board_size = 4 \/ board_size = 5 ->
         pieces_match_turn (ConnectFourGame.game board_size)).
Proof.
  assert (Hstep : forall b p r c,
             (r < length b)%nat -> (c < length (nth r b []))%nat ->
             np.cell b r c = 0 ->
             (p = 1 /\ board_sum b = 0) \/ (p = -1 /\ board_sum b = 1) ->
             (- p = 1 /\ board_sum (np.set_cell b r c p) = 0)
             \/ (- p = -1 /\ board_sum (np.set_cell b r c p) = 1)).
  { intros b p r c Hr Hc Hz H. rewrite board_sum_set_cell by assumption. lia. }
  split.
  - refine (reachable_ind_inv _ ttt_wb
              (fun s => (snd s = 1 /\ board_sum (fst s) = 0)
                        \/ (snd s = -1 /\ board_sum (fst s) = 1)) _ _).
    + left. split; reflexivity.
    + intros [b p] a s' _ _ IH Hin Hn. cbn [fst snd] in IH.
      change (In a (TicTacToeGame.actions (b, p))) in Hin.
      apply ttt_actions_In in Hin as (_ & r & c & -> & Hr & Hc & Hz).
      cbn [fst] in *.
      change (TicTacToeGame.next (b, p) (Z.of_nat r, Z.of_nat c) = Ok s') in Hn.
      rewrite (ttt_next_legal b p r c Hr Hc Hz) in Hn. injection Hn as <-.
      cbn [fst snd]. now apply Hstep.
  - intros N HN. destruct (c4_size_nat N HN) as (n & Hn & ->).
    refine (reachable_ind_inv _ (c4_wb n Hn)
              (fun s => (snd s = 1 /\ board_sum (fst s) = 0)
                        \/ (snd s = -1 /\ board_sum (fst s) = 1)) _ _).
    + left. split; [reflexivity|]. destruct Hn as [-> | ->]; reflexivity.
    + intros [b p] a s' _ Hinv IH Hin Hnext. cbn [fst snd] in IH.
      destruct Hinv as (Hs & _). cbn [fst] in Hs.
      change (In a (ConnectFourGame.actions (Z.of_nat n) (b, p))) in Hin.
      apply (c4_actions_In n) in Hin as (_ & c & -> & Hc & Hz). cbn [fst] in *.
      assert (Hpos : (0 < n)%nat) by (destruct Hn; lia).
      rewrite (shape_row n n b 0 Hs Hpos) in Hc.
      destruct (c4_next_legal n Hn b p c Hs Hc Hz) as (e & He & Hlt & Hze & _).
      change (ConnectFourGame.next (Z.of_nat n) (b, p) (Z.of_nat c) = Ok s') in Hnext.
      rewrite He in Hnext. injection Hnext as <-. cbn [fst snd].
      pose proof Hs as [Hlen _].
      apply Hstep; try assumption; [lia|].
      rewrite (shape_row n n b e Hs Hlt). exact Hc.
Qed.

Lemma X5_pieces_match_turn_witness :
  reachable TicTacToeGame.game ([[0; 0; 0]; [0; 1; 0]; [0; 0; 0]], -1)
  /\ board_sum [[0; 0; 0]; [0; 1; 0]; [0; 0; 0]] = 1.
Proof.
  assert (Hr : reachable TicTacToeGame.game ([[0; 0; 0]; [0; 1; 0]; [0; 0; 0]], -1)).
  { apply (reach_step TicTacToeGame.game TicTacToeGame.initial_state (1, 1)).
    - apply (reach_init TicTacToeGame.game).
    - vm_compute. tauto.
    - reflexivity. }
  split; [exact Hr|].
  destruct (proj1 X5_pieces_match_turn _ Hr) as [[H _]|[_ H]];
    [discriminate H | exact H].
Defined.

(** X6. Connect Four pieces fall (board sizes 4 and 5): no reachable board
    has a piece above an empty cell, and a legal [next] writes the piece of
    the player to move on the lowest empty cell of the column, leaves
    every other cell as it was, and passes the turn. *)
Theorem X6_connectfour_pieces_fall :
  forall n, (n = 4 \/ n = 5)%nat -> pieces_fall n.
Proof.
  intros n Hn. split.
  - intros s Hr.
    now pose proof (reachable_inv _ (c4_wb n Hn) _ Hr) as (_ & _ & _ & Hg & _).
  - intros b p a s' Hr Hin Hnext.
    pose proof (reachable_inv _ (c4_wb n Hn) _ Hr) as (Hs & _). cbn [fst] in Hs.
    change (In a (ConnectFourGame.actions (Z.of_nat n) (b, p))) in Hin.
    apply (c4_actions_In n) in Hin as (_ & c & -> & Hc & Hz). cbn [fst] in *.
    assert (Hpos : (0 < n)%nat) by (destruct Hn; lia).
    rewrite (shape_row n n b 0 Hs Hpos) in Hc.
    destruct (c4_next_legal n Hn b p c Hs Hc Hz) as (e & He & Hlt & Hze & Hmax).
    change (ConnectFourGame.next (Z.of_nat n) (b, p) (Z.of_nat c) = Ok s') in Hnext.
    rewrite He in Hnext. injection Hnext as <-.
    exists e, c. repeat split; try assumption.
    + intros r [Hr1 Hr2] Hzr. specialize (Hmax r Hr2 Hzr). lia.
    + intros r c'. cbn [fst]. pose proof Hs as [Hlen _].
      apply cell_set_cell; [lia|]. rewrite (shape_row n n b e Hs Hlt). exact Hc.
Qed.

Lemma X6_connectfour_pieces_fall_witness :
  (4 = 4 \/ 4 = 5)%nat
  /\ gravity (fst (ConnectFourGame.initial_state 4))
  /\ exists e col,
      2 = Z.of_nat col
      /\ np.cell (np.zeros 4 4) e col = 0
      /\ (forall r, (e < r < 4)%nat -> np.cell (np.zeros 4 4) r col <> 0).
Proof.
  split; [now left|]. split.
  - exact (proj1 (X6_connectfour_pieces_fall 4 (or_introl eq_refl)) _
                 (reach_init (ConnectFourGame.game 4))).
  - destruct (proj2 (X6_connectfour_pieces_fall 4 (or_introl eq_refl))
                    (np.zeros 4 4) 1 2 _
                    (reach_init (ConnectFourGame.game 4))
                    ltac:(vm_compute; tauto) eq_refl)
      as (e & col & H1 & _ & _ & H2 & H3 & _).
    exists e, col. repeat split; assumption.
Defined.

(** X7. At a reachable Connect Four state that is not terminal (board
    sizes 4 and 5), the legal actions are exactly the columns of the board
    that still have an empty cell. *)
Theorem X7_connectfour_columns_with_room :
  forall n, (n = 4 \/ n = 5)%nat -> columns_with_room n.
Proof.
  intros n Hn b p a Hr Ht.
  pose proof (reachable_inv _ (c4_wb n Hn) _ Hr) as (Hs & _ & _ & Hg & _).
  cbn [fst] in *. pose proof Hs as [Hlen _].
  assert (Hpos : (0 < n)%nat) by (destruct Hn; lia).
  change (In a (ConnectFourGame.actions (Z.of_nat n) (b, p))
          <-> exists col r, a = Z.of_nat col /\ (col < n)%nat /\ (r < n)%nat
                            /\ np.cell b r col = 0).
  split.
  - intros Hin. apply (c4_actions_In n) in Hin as (_ & c & -> & Hc & Hz).
    cbn [fst] in *. rewrite (shape_row n n b 0 Hs Hpos) in Hc.
    exists c, 0%nat. repeat split; assumption.
  - intros (col & r & -> & Hc & Hrn & Hz).
    change (ConnectFourGame.is_terminal (Z.of_nat n) (b, p) = false) in Ht.
    unfold ConnectFourGame.actions. rewrite Ht. apply in_map.
    apply where_zero_In. rewrite (shape_row n n b 0 Hs Hpos).
    split; [exact Hc|]. apply (gravity_top b r col Hg); [lia | exact Hz].
Qed.

Lemma X7_connectfour_columns_with_room_witness :
  (4 = 4 \/ 4 = 5)%nat
  /\ reachable (ConnectFourGame.game 4) (ConnectFourGame.initial_state 4)
  /\ is_terminal (ConnectFourGame.game 4) (np.zeros 4 4, 1) = false
  /\ In 3 (actions (ConnectFourGame.game 4) (np.zeros 4 4, 1)).
Proof.
  split; [now left|]. split; [apply (reach_init (ConnectFourGame.game 4))|].
  split; [reflexivity|].
  apply (proj2 (X7_connectfour_columns_with_room 4 (or_introl eq_refl)
                  (np.zeros 4 4) 1 3
                  (reach_init (ConnectFourGame.game 4)) eq_refl)).
  exists 3%nat, 2%nat. repeat split; lia.
Defined.

(** ** The actions and the transition of Nim *)

Lemma NoDup_map_inj {A B : Type} (f : A -> B) (l : list A) :
  (forall x y, f x = f y -> x = y) -> NoDup l -> NoDup (map f l).
Proof.
  intros Hinj. induction 1 as [|x t Hx Ht IH]; simpl; constructor; auto.
  intros Hin. apply in_map_iff in Hin as (y & E & Hy).
  apply Hinj in E. now subst.
Qed.

Lemma length_arange (lo hi : Z) : length (np.arange lo hi) = Z.to_nat (hi - lo).
Proof. unfold np.arange. now rewrite length_map, length_seq. Qed.

Lemma NoDup_arange (lo hi : Z) : NoDup (np.arange lo hi).
Proof.
  unfold np.arange. apply NoDup_map_inj; [intros; lia | apply seq_NoDup].
Qed.

Lemma length_actions_from (piles : list Z) :
  Forall (fun pile => 0 <= pile) piles ->
  forall j, length (NimGame.actions_from j piles) = Z.to_nat (np.zsum piles).
Proof.
  induction 1 as [|x t Hx Ht IH]; intros j; simpl; [reflexivity|].
  pose proof (zsum_nonneg t Ht).
  rewrite length_app, IH. destruct (Z.ltb_spec 0 x).
  - rewrite length_map, length_arange. lia.
  - simpl. lia.
Qed.

Lemma NoDup_actions_from (piles : list Z) :
  forall j, NoDup (NimGame.actions_from j piles).
Proof.
  induction piles as [|x t IH]; intros j; simpl; [constructor|].
  apply NoDup_app.
  - destruct (0 <? x); [|constructor].
    apply NoDup_map_inj; [|apply NoDup_arange].
    intros a b E. now injection E.
  - apply IH.
  - intros [i k] H1 H2.
    destruct (0 <? x); [|destruct H1].
    apply in_map_iff in H1 as (k' & E & _). injection E as <- _.
    apply actions_from_In in H2 as (idx & E & _). lia.
Qed.

(** X8. On a Nim state whose pile sizes lie from [0] to
    [np.int64_max - 1] (where [pile_size + 1] does not wrap in numpy),
    [actions] lists every pair (pile index, count) with
    [1 <= count <= pile size] exactly once: the number of legal actions is
    the total number of objects. *)
Theorem X8_nim_actions_count :
  forall (piles : list Z) (p : Z),
    Forall (fun pile => 0 <= pile < np.int64_max) piles ->
    length (NimGame.actions (piles, p)) = Z.to_nat (np.zsum piles)
    /\ NoDup (NimGame.actions (piles, p))
    /\ forall i k,
        In (i, k) (NimGame.actions (piles, p))
        <-> 0 <= i < Z.of_nat (length piles)
            /\ 1 <= k <= nth (Z.to_nat i) piles 0.
Proof.
  intros piles p H0. pose proof (piles_in_range_nonneg _ H0) as H.
  split; [|split].
  - now apply length_actions_from.
  - apply NoDup_actions_from.
  - intros i k. apply (nim_actions_In (piles, p)).
Qed.

Lemma X8_nim_actions_count_witness :
  Forall (fun pile => 0 <= pile < np.int64_max) [1; 3; 5; 7]
  /\ length (NimGame.actions ([1; 3; 5; 7], 1)) = 16%nat.
Proof.
  assert (Hp : Forall (fun pile => 0 <= pile < np.int64_max) [1; 3; 5; 7])
    by (repeat constructor; unfold np.int64_max; lia).
  split; [exact Hp|].
  exact (proj1 (X8_nim_actions_count [1; 3; 5; 7] 1 Hp)).
Defined.

Lemma nth_list_set_other {A : Type} (l : list A) (i j : nat) (v d : A) :
  i <> j -> nth j (np.list_set l i v) d = nth j l d.
Proof.
  revert i j. induction l as [|x t IH]; intros [|i] [|j] H; simpl; auto;
    try contradiction; try (apply IH; lia).
Qed.

(** X9. When [NimGame.next] returns, the action was in range and it did
    exactly this: the chosen pile lost the given count, every other pile
    and the number of piles are unchanged, the total dropped by the count,
    and the turn passed to the other player. *)
Theorem X9_nim_next_effect :
  forall (piles : list Z) (p i k : Z) (s' : NimGame.State),
    NimGame.next (piles, p) (i, k) = Ok s' ->
    0 <= i < Z.of_nat (length piles)
    /\ 1 <= k <= nth (Z.to_nat i) piles 0
    /\ snd s' = - p
    /\ length (fst s') = length piles
    /\ nth (Z.to_nat i) (fst s') 0 = nth (Z.to_nat i) piles 0 - k
    /\ (forall j, j <> Z.to_nat i -> nth j (fst s') 0 = nth j piles 0)
    /\ np.zsum (fst s') = np.zsum piles - k.
Proof.
  intros piles p i k s'. unfold NimGame.next.
  destruct (Z.ltb_spec i 0); [discriminate|].
  destruct (Z.leb_spec (Z.of_nat (length piles)) i); [discriminate|].
  simpl orb. cbv iota.
  destruct (Z.ltb_spec k 1); [discriminate|].
  destruct (Z.ltb_spec (nth (Z.to_nat i) piles 0) k); [discriminate|].
  simpl orb. cbv iota. intros E. injection E as <-. cbn [fst snd].
  assert (Hi : (Z.to_nat i < length piles)%nat) by lia.
  split; [lia|]. split; [lia|]. split; [reflexivity|].
  split; [apply length_list_set|]. split; [|split].
  - rewrite nth_list_set by exact Hi. now rewrite Nat.eqb_refl.
  - intros j Hj. apply nth_list_set_other. lia.
  - rewrite zsum_list_set by exact Hi.
    remember (nth (Z.to_nat i) piles 0) as x. lia.
Qed.

Lemma X9_nim_next_effect_witness :
  NimGame.next ([1; 3; 5; 7], 1) (2, 4) = Ok ([1; 3; 1; 7], -1)
  /\ np.zsum (fst ([1; 3; 1; 7], -1)) = np.zsum [1; 3; 5; 7] - 4.
Proof.
  split; [reflexivity|].
  exact (proj2 (proj2 (proj2 (proj2 (proj2 (proj2
           (X9_nim_next_effect [1; 3; 5; 7] 1 2 4 ([1; 3; 1; 7], -1) eq_refl))))))).
Defined.

(** ** The values that the search returns *)

Section ValueRange.
Context {State Action : Type} (G : Game State Action) (self : MinimaxAgent).
Variable W : WellBehaved G.
Variable P : Z -> Prop.
Hypothesis leaf_ok :
  forall s depth, inv W s -> is_terminal G s || depth_cutoff self depth = true ->
                  P (utility G s (player_id self)).

Lemma fold_children_among (rec : State -> option (result value))
    (pick : value -> value -> value) (init : value) (s : State) :
  (forall a b, pick a b = a \/ pick a b = b) ->
  forall acts,
    (forall a, In a acts ->
               exists s' z, next G s a = Ok s' /\ rec s' = Some (Ok (Fin z)) /\ P z) ->
    forall acc v,
      (acc = init \/ exists z, acc = Fin z /\ P z) ->
      fold_children G rec pick s acts acc = Some (Ok v) ->
      v = init \/ exists z, v = Fin z /\ P z.
Proof.
  intros Hpick acts. induction acts as [|a rest IH]; intros Hall acc v Hacc H;
    simpl in H.
  - injection H as <-. exact Hacc.
  - destruct (Hall a (or_introl eq_refl)) as (s' & z & Hn & Hr & Hz).
    rewrite Hn, Hr in H.
    apply (IH (fun b Hb => Hall b (or_intror Hb)) (pick acc (Fin z)) v); [|exact H].
    destruct (Hpick acc (Fin z)) as [-> | ->]; [exact Hacc|].
    right. now exists z.
Qed.

Lemma vmax_either (a b : value) : vmax a b = a \/ vmax a b = b.
Proof. unfold vmax. destruct (vlt a b); auto. Qed.

Lemma vmin_either (a b : value) : vmin a b = a \/ vmin a b = b.
Proof. unfold vmin. destruct (vlt b a); auto. Qed.

Lemma minimax_value_among (fuel : nat) :
  forall s depth mx,
    inv W s -> (measure W s <= fuel)%nat ->
    exists z, minimax_value G self fuel s depth mx = Some (Ok (Fin z)) /\ P z.
Proof.
  induction fuel as [|fuel IH]; intros s depth mx Hi Hm;
    destruct (minimax_value_total G self W _ s depth mx Hi Hm) as (z & Hz);
    exists z; (split; [exact Hz|]);
    rewrite minimax_value_unfold in Hz;
    destruct (is_terminal G s || depth_cutoff self depth) eqn:Hbase;
    try discriminate;
    try (injection Hz as <-; now apply (leaf_ok s depth)).
  assert (Hchild : forall mx' a, In a (actions G s) ->
            exists s' z, next G s a = Ok s' /\
              minimax_value G self fuel s' (depth + 1) mx' = Some (Ok (Fin z))
              /\ P z).
  { intros mx' a Ha. destruct (wb_step W s a Hi Ha) as (s' & Hn & Hi' & Hlt).
    destruct (IH s' (depth + 1) mx' Hi') as (z' & Hz' & HP); [lia|].
    now exists s', z'. }
  destruct mx.
  - destruct (fold_children_among _ vmax NegInf s vmax_either (actions G s)
                (Hchild false) NegInf (Fin z) (or_introl eq_refl) Hz)
      as [E | (z' & E & HP)]; [discriminate|].
    now injection E as ->.
  - destruct (fold_children_among _ vmin PosInf s vmin_either (actions G s)
                (Hchild true) PosInf (Fin z) (or_introl eq_refl) Hz)
      as [E | (z' & E & HP)]; [discriminate|].
    now injection E as ->.
Qed.

Lemma search_among (g : Session State) depth mx fuel :
  reachable G (state g) -> (measure W (state g) <= fuel)%nat ->
  exists z, _minimax G self fuel g depth mx NegInf PosInf = Some (Ok (Fin z))
            /\ P z.
Proof.
  intros Hr Hm.
  destruct (minimax_value_among fuel (state g) depth mx
              (reachable_inv G W _ Hr) Hm) as (z & Hz & HP).
  exists z. split; [|exact HP].
  exact (minimax_full_window G self (eqb_refl_of_wb G W) fuel g depth mx _ Hz).
Qed.
End ValueRange.

Lemma unbounded_no_cutoff (self : MinimaxAgent) (depth : Z) :
  unbounded_depth self -> depth_cutoff self depth = false.
Proof. unfold depth_cutoff. now intros [-> | ->]. Qed.

Lemma halving_utility_range s p :
  HalvingGame.utility s p = -1 \/ HalvingGame.utility s p = 0
  \/ HalvingGame.utility s p = 1.
Proof.
  unfold HalvingGame.utility. destruct s as [n q].
  destruct (negb _); [auto|]. destruct (p =? - q); auto.
Qed.

Lemma nim_utility_range s p :
  NimGame.utility s p = -1 \/ NimGame.utility s p = 0 \/ NimGame.utility s p = 1.
Proof.
  unfold NimGame.utility. destruct s as [l q].
  destruct (negb _); [auto|]. destruct (p =? - q); auto.
Qed.

Lemma ttt_utility_range s p :
  TicTacToeGame.utility s p = -1 \/ TicTacToeGame.utility s p = 0
  \/ TicTacToeGame.utility s p = 1.
Proof.
  unfold TicTacToeGame.utility. destruct s as [b q].
  destruct (negb _); [auto|].
  destruct (TicTacToeGame._check_winner b) as [w|]; [|auto].
  destruct (w =? p); auto.
Qed.

Lemma c4_utility_range N s p :
  ConnectFourGame.utility N s p = -1 \/ ConnectFourGame.utility N s p = 0
  \/ ConnectFourGame.utility N s p = 1.
Proof.
  unfold ConnectFourGame.utility. destruct s as [b q].
  destruct (negb _); [auto|].
  destruct (ConnectFourGame._check_winner N b) as [w|]; [|auto].
  destruct (w =? p); auto.
Qed.

(** X10. In the four variants (Nim with pile sizes from [0] to
    [np.int64_max - 1], the range in which [actions()] lists every legal
    action), at every reachable state, for every agent,
    ply and side, [_minimax] with the full window and enough recursion
    budget returns a number, and that number is [-1], [0] or [1]: never an
    infinity, never an exception. *)
Theorem X10_search_value_range :
  let three := fun z => z = -1 \/ z = 0 \/ z = 1 in
  (forall starting_number,
      0 <= starting_number ->
      search_value_in (HalvingGame.game starting_number) halving_measure
                      (fun _ => True) three)
  /\ search_value_in TicTacToeGame.game ttt_measure (fun _ => True) three
  /\ (forall initial_piles,
         Forall (fun pile => 0 <= pile < np.int64_max) initial_piles ->
         search_value_in (NimGame.game initial_piles) nim_measure
                         (fun _ => True) three)
  /\ (forall board_size,
         board_size = 4 \/ board_size = 5 ->
         search_value_in (ConnectFourGame.game board_size) c4_measure
                         (fun _ => True) three).
Proof.
  cbv zeta. split; [|split; [|split]].
  - intros n0 H self g depth mx fuel _ Hr Hm.
    apply (search_among _ self (halving_wb n0 H)); try assumption.
    intros s d _ _. apply halving_utility_range.
  - intros self g depth mx fuel _ Hr Hm.
    apply (search_among _ self ttt_wb); try assumption.
    intros s d _ _. apply ttt_utility_range.
  - intros piles H self g depth mx fuel _ Hr Hm.
    apply (search_among _ self (nim_wb piles (piles_in_range_nonneg _ H)));
      try assumption.
    intros s d _ _. apply nim_utility_range.
  - intros N HN self g depth mx fuel _ Hr Hm.
    destruct (c4_size_nat N HN) as (n & Hn & ->).
    apply (search_among _ self (c4_wb n Hn)); try assumption.
    intros s d _ _. apply c4_utility_range.
Qed.

Lemma X10_search_value_range_witness :
  0 <= 6
  /\ exists z,
      _minimax (HalvingGame.game 6) {| player_id := 1; max_depth := Some 2 |}
               6 (new_game (HalvingGame.game 6)) 0 true NegInf PosInf
      = Some (Ok (Fin z))
      /\ (z = -1 \/ z = 0 \/ z = 1).
Proof.
  split; [lia|].
  apply (proj1 X10_search_value_range 6 ltac:(lia)
           {| player_id := 1; max_depth := Some 2 |}
           (new_game (HalvingGame.game 6)) 0 true 6%nat I).
  - apply reach_init.
  - vm_compute. lia.
Defined.

(** X11. The Halving Game and Nim (with pile sizes from [0] to
    [np.int64_max - 1], the range in which [actions()] lists every legal
    action) have no draw: for an agent without a depth bound
    ([max_depth] is [None] or [0]), the value that [_minimax] returns at
    a reachable state is [1] or [-1]. *)
Theorem X11_search_no_draw :
  let two := fun z => z = 1 \/ z = -1 in
  (forall starting_number,
      0 <= starting_number ->
      search_value_in (HalvingGame.game starting_number) halving_measure
                      unbounded_depth two)
  /\ (forall initial_piles,
         Forall (fun pile => 0 <= pile < np.int64_max) initial_piles ->
         search_value_in (NimGame.game initial_piles) nim_measure
                         unbounded_depth two).
Proof.
  cbv zeta. split.
  - intros n0 H self g depth mx fuel Hu Hr Hm.
    apply (search_among _ self (halving_wb n0 H)); try assumption.
    intros [n q] d _ Hb. rewrite (unbounded_no_cutoff self d Hu), orb_false_r in Hb.
    cbn [is_terminal utility HalvingGame.game] in *.
    unfold HalvingGame.utility. rewrite Hb. simpl negb. cbv iota.
    destruct (player_id self =? - q); auto.
  - intros piles H self g depth mx fuel Hu Hr Hm.
    apply (search_among _ self (nim_wb piles (piles_in_range_nonneg _ H)));
      try assumption.
    intros [l q] d _ Hb. rewrite (unbounded_no_cutoff self d Hu), orb_false_r in Hb.
    cbn [is_terminal utility NimGame.game] in *.
    unfold NimGame.utility. rewrite Hb. simpl negb. cbv iota.
    destruct (player_id self =? - q); auto.
Qed.

Lemma X11_search_no_draw_witness :
  0 <= 6
  /\ unbounded_depth {| player_id := 1; max_depth := None |}
  /\ (exists z,
        _minimax (HalvingGame.game 6) {| player_id := 1; max_depth := None |}
                 6 (new_game (HalvingGame.game 6)) 0 true NegInf PosInf
        = Some (Ok (Fin z))
        /\ (z = 1 \/ z = -1))
  /\ Forall (fun pile => 0 <= pile < np.int64_max) [1; 2]
  /\ exists z,
      _minimax (NimGame.game [1; 2]) {| player_id := 1; max_depth := None |}
               3 (new_game (NimGame.game [1; 2])) 0 true NegInf PosInf
      = Some (Ok (Fin z))
      /\ (z = 1 \/ z = -1).
Proof.
  assert (Hu : unbounded_depth {| player_id := 1; max_depth := None |})
    by (now left).
  assert (Hp : Forall (fun pile => 0 <= pile < np.int64_max) [1; 2])
    by (repeat constructor; unfold np.int64_max; lia).
  split; [lia|]. split; [exact Hu|]. split; [|split; [exact Hp|]].
  - apply (proj1 X11_search_no_draw 6 ltac:(lia)
             {| player_id := 1; max_depth := None |}
             (new_game (HalvingGame.game 6)) 0 true 6%nat Hu).
    + apply reach_init.
    + vm_compute. lia.
  - apply (proj2 X11_search_no_draw [1; 2] Hp
             {| player_id := 1; max_depth := None |}
             (new_game (NimGame.game [1; 2])) 0 true 3%nat Hu).
    + apply reach_init.
    + vm_compute. lia.
Defined.

(** ** Games that the last mover wins: the value of the search *)

Section WinLose.
Context {State Action : Type} (G : Game State Action) (self : MinimaxAgent).
Variable W : WellBehaved G.
Variable win : State -> bool.
Hypothesis pid_ok : player_id self = 1 \/ player_id self = -1.
Hypothesis no_cut : unbounded_depth self.
Hypothesis step_player :
  forall s a s', next G s a = Ok s' -> player G s' = - player G s.
Hypothesis dead_lost :
  forall s, inv W s -> is_terminal G s = true ->
            win s = false /\ forall p, utility G s p = if p =? - player G s then 1 else -1.
Hypothesis win_move :
  forall s, inv W s -> is_terminal G s = false -> win s = true ->
            exists a s', In a (actions G s) /\ next G s a = Ok s' /\ win s' = false.
Hypothesis lose_move :
  forall s, inv W s -> is_terminal G s = false -> win s = false ->
            forall a s', In a (actions G s) -> next G s a = Ok s' -> win s' = true.

Lemma fold_children_all (rec : State -> option (result value))
    (pick : value -> value -> value) (init : value) (c : Z) (s : State) :
  pick init (Fin c) = Fin c -> pick (Fin c) (Fin c) = Fin c ->
  forall acts,
    (forall a, In a acts ->
               exists s', next G s a = Ok s' /\ rec s' = Some (Ok (Fin c))) ->
    forall acc,
      acc = init \/ acc = Fin c -> acts <> [] \/ acc = Fin c ->
      fold_children G rec pick s acts acc = Some (Ok (Fin c)).
Proof.
  intros Hi Hc acts. induction acts as [|a rest IH]; intros Hall acc Hacc Hne;
    simpl.
  - destruct Hne as [Hne | ->]; [congruence | reflexivity].
  - destruct (Hall a (or_introl eq_refl)) as (s' & -> & ->).
    assert (E : pick acc (Fin c) = Fin c) by (destruct Hacc as [-> | ->]; assumption).
    rewrite E. apply IH; auto. intros b Hb. apply Hall. now right.
Qed.

Lemma fold_children_some (rec : State -> option (result value))
    (pick : value -> value -> value) (init : value) (top bot : Z) (s : State) :
  let among := fun acc => acc = init \/ acc = Fin top \/ acc = Fin bot in
  (forall acc, among acc -> pick acc (Fin top) = Fin top) ->
  (forall acc, among acc -> among (pick acc (Fin bot))) ->
  pick (Fin top) (Fin bot) = Fin top ->
  forall acts,
    (forall a, In a acts ->
               exists s' z, next G s a = Ok s' /\ rec s' = Some (Ok (Fin z))
                            /\ (z = top \/ z = bot)) ->
    forall acc,
      among acc ->
      (acc = Fin top
       \/ exists a s', In a acts /\ next G s a = Ok s'
                       /\ rec s' = Some (Ok (Fin top))) ->
      fold_children G rec pick s acts acc = Some (Ok (Fin top)).
Proof.
  intros among Htop Hbot Htb acts.
  induction acts as [|a rest IH]; intros Hall acc Hacc Hex; simpl.
  - destruct Hex as [-> | (a & s' & [] & _)]. reflexivity.
  - destruct (Hall a (or_introl eq_refl)) as (s' & z & Hn & Hr & Hz).
    rewrite Hn, Hr.
    assert (Hrest : forall b, In b rest ->
              exists s' z, next G s b = Ok s' /\ rec s' = Some (Ok (Fin z))
                           /\ (z = top \/ z = bot))
      by (intros b Hb; apply Hall; now right).
    destruct (Z.eq_dec z top) as [-> | Hzt].
    + rewrite (Htop acc Hacc). apply IH; auto. right. now left.
    + destruct Hz as [-> | ->]; [contradiction|].
      apply IH; auto.
      destruct Hex as [-> | (a0 & s0 & [<- | Hin] & Hn0 & Hr0)].
      * left. exact Htb.
      * rewrite Hn in Hn0. injection Hn0 as <-. rewrite Hr in Hr0.
        injection Hr0 as Hr0. congruence.
      * right. now exists a0, s0.
Qed.

Lemma next_side (s : State) (a : Action) (s' : State) :
  player G s = 1 \/ player G s = -1 -> next G s a = Ok s' ->
  (player G s' = 1 \/ player G s' = -1)
  /\ (player G s' =? player_id self) = negb (player G s =? player_id self).
Proof.
  intros Hp Hn. rewrite (step_player s a s' Hn). split; [lia|].
  destruct (Z.eqb_spec (- player G s) (player_id self)),
           (Z.eqb_spec (player G s) (player_id self)); simpl; try reflexivity; lia.
Qed.

(** The value of plain minimax, when the side flag tells whose turn it
    is: [1] when the agent is to move from a winning state or the
    opponent from a losing one, else [-1]. *)
Lemma minimax_value_win (fuel : nat) :
  forall s depth,
    inv W s -> player G s = 1 \/ player G s = -1 -> (measure W s <= fuel)%nat ->
    minimax_value G self fuel s depth (player G s =? player_id self)
    = Some (Ok (Fin (if Bool.eqb (player G s =? player_id self) (win s)
                     then 1 else -1))).
Proof.
  induction fuel as [|fuel IH]; intros s depth Hi Hp Hm;
    destruct (minimax_value_total G self W _ s depth
                (player G s =? player_id self) Hi Hm) as (z0 & Hz0);
    rewrite minimax_value_unfold in Hz0 |- *;
    rewrite (unbounded_no_cutoff self depth no_cut), orb_false_r in Hz0 |- *;
    destruct (is_terminal G s) eqn:Ht; try discriminate.
  1, 2: destruct (dead_lost s Hi Ht) as [-> ->];
    destruct (Z.eqb_spec (player G s) (player_id self)),
             (Z.eqb_spec (player_id self) (- player G s));
    simpl; try reflexivity; lia.
  clear z0 Hz0.
  assert (Hchild : forall a, In a (actions G s) ->
            exists s', next G s a = Ok s' /\ inv W s'
              /\ minimax_value G self fuel s' (depth + 1)
                   (negb (player G s =? player_id self))
                 = Some (Ok (Fin (if Bool.eqb (negb (player G s =? player_id self))
                                               (win s')
                                  then 1 else -1)))).
  { intros a Ha. destruct (wb_step W s a Hi Ha) as (s' & Hn & Hi' & Hlt).
    destruct (next_side s a s' Hp Hn) as [Hp' Hside].
    exists s'. split; [exact Hn|]. split; [exact Hi'|].
    rewrite <- Hside. apply IH; [exact Hi' | exact Hp' | lia]. }
  pose proof (wb_live W s Hi Ht) as Hlive.
  destruct (player G s =? player_id self); simpl negb in Hchild;
    destruct (win s) eqn:Hw; simpl Bool.eqb; cbv iota.
  - (* the agent moves and wins: some successor has value 1 *)
    apply (fold_children_some _ vmax NegInf 1 (-1)).
    + intros acc [-> | [-> | ->]]; reflexivity.
    + intros acc [-> | [-> | ->]]; vm_compute; auto.
    + reflexivity.
    + intros a Ha. destruct (Hchild a Ha) as (s' & Hn & _ & Hv).
      exists s'. eexists. split; [exact Hn|]. split; [exact Hv|].
      destruct (win s'); simpl; auto.
    + now left.
    + right. destruct (win_move s Hi Ht Hw) as (a & s' & Ha & Hn & Hw').
      exists a, s'. split; [exact Ha|]. split; [exact Hn|].
      destruct (Hchild a Ha) as (s'' & Hn' & _ & Hv).
      rewrite Hn in Hn'. injection Hn' as <-. now rewrite Hw' in Hv.
  - (* the agent moves and loses: every successor has value -1 *)
    apply (fold_children_all _ vmax NegInf (-1)); auto.
    intros a Ha. destruct (Hchild a Ha) as (s' & Hn & _ & Hv).
    exists s'. split; [exact Hn|].
    now rewrite (lose_move s Hi Ht Hw a s' Ha Hn) in Hv.
  - (* the opponent moves and wins: some successor has value -1 *)
    apply (fold_children_some _ vmin PosInf (-1) 1).
    + intros acc [-> | [-> | ->]]; reflexivity.
    + intros acc [-> | [-> | ->]]; vm_compute; auto.
    + reflexivity.
    + intros a Ha. destruct (Hchild a Ha) as (s' & Hn & _ & Hv).
      exists s'. eexists. split; [exact Hn|]. split; [exact Hv|].
      destruct (win s'); simpl; auto.
    + now left.
    + right. destruct (win_move s Hi Ht Hw) as (a & s' & Ha & Hn & Hw').
      exists a, s'. split; [exact Ha|]. split; [exact Hn|].
      destruct (Hchild a Ha) as (s'' & Hn' & _ & Hv).
      rewrite Hn in Hn'. injection Hn' as <-. now rewrite Hw' in Hv.
  - (* the opponent moves and loses: every successor has value 1 *)
    apply (fold_children_all _ vmin PosInf 1); auto.
    intros a Ha. destruct (Hchild a Ha) as (s' & Hn & _ & Hv).
    exists s'. split; [exact Hn|].
    now rewrite (lose_move s Hi Ht Hw a s' Ha Hn) in Hv.
Qed.
End WinLose.

(** ** Nim: the search and the nim-sum *)

Lemma nim_terminal_sum (l : list Z) :
  forallb (fun pile => pile =? 0) l = true -> fold_left Z.lxor l 0 = 0.
Proof.
  induction l as [|x t IH]; simpl; [reflexivity|].
  intros H. apply andb_true_iff in H as [Hx Ht].
  apply Z.eqb_eq in Hx. subst x. now apply IH.
Qed.

Lemma nim_move_to_zero (piles : list Z) (p : Z) :
  Forall (fun pile => 0 <= pile) piles ->
  fold_left Z.lxor piles 0 <> 0 ->
  exists a l',
    In a (NimGame.actions (piles, p))
    /\ NimGame.next (piles, p) a = Ok (l', - p)
    /\ length l' = length piles
    /\ fold_left Z.lxor l' 0 = 0.
Proof.
  intros Hpos Hx. set (x := fold_left Z.lxor piles 0) in *.
  pose proof (fold_lxor_nonneg piles Hpos) as Hnn. fold x in Hnn.
  assert (Hbit : Z.testbit x (Z.log2 x) = true) by (apply Z.bit_log2; lia).
  destruct (fold_lxor_bit piles _ Hbit) as (y & Hy & Hyb).
  destruct (In_nth piles y 0 Hy) as (i & Hi & Hnth).
  assert (Hy0 : 0 <= y) by (rewrite Forall_forall in Hpos; now apply Hpos).
  assert (Hlt : Z.lxor y x < y) by (apply lxor_lt; [exact Hy0 | lia | exact Hyb]).
  assert (Htnn : 0 <= Z.lxor y x) by (apply Z.lxor_nonneg; lia).
  exists (Z.of_nat i, y - Z.lxor y x).
  exists (np.list_set piles i (Z.lxor y x)).
  split; [|split; [|split]].
  - apply nim_actions_In. cbn [fst]. rewrite Nat2Z.id, Hnth. lia.
  - rewrite nim_next_legal; rewrite ?Nat2Z.id, ?Hnth; try lia.
    do 3 f_equal. lia.
  - apply length_list_set.
  - rewrite fold_lxor_set by exact Hi. rewrite Hnth. fold x.
    rewrite (Z.lxor_comm y x). apply Z.lxor_nilpotent.
Qed.

Lemma nim_move_from_zero (piles : list Z) (p : Z) (a : NimGame.Action)
    (s' : NimGame.State) :
  fold_left Z.lxor piles 0 = 0 ->
  In a (NimGame.actions (piles, p)) -> NimGame.next (piles, p) a = Ok s' ->
  fold_left Z.lxor (fst s') 0 <> 0 /\ length (fst s') = length piles.
Proof.
  intros Hx Hin Hn. destruct a as [i k].
  apply nim_actions_In in Hin as [Hi Hk]. cbn [fst] in *.
  rewrite (nim_next_legal piles p i k Hi Hk) in Hn.
  injection Hn as <-. cbn [fst]. split; [|apply length_list_set].
  rewrite fold_lxor_set by lia. rewrite Hx, Z.lxor_0_l.
  intros E. apply Z.lxor_eq in E.
  remember (nth (Z.to_nat i) piles 0) as size. lia.
Qed.

Lemma nim_reachable_range (initial_piles : list Z) (s : NimGame.State) :
  Forall (fun pile => 0 <= pile < np.int64_max) initial_piles ->
  reachable (NimGame.game initial_piles) s ->
  Forall (fun pile => 0 <= pile < np.int64_max) (fst s).
Proof.
  intros H0. induction 1 as [|[l p] [i k] s' _ IH Hin Hn]; [exact H0|].
  cbn [actions next NimGame.game fst] in *.
  apply nim_actions_In in Hin as [Hi Hk]. cbn [fst] in *.
  rewrite (nim_next_legal l p i k Hi Hk) in Hn. injection Hn as <-.
  cbn [fst]. apply Forall_list_set; [exact IH|].
  assert (Hsize : 0 <= nth (Z.to_nat i) l 0 < np.int64_max)
    by (apply (Forall_nth_default (fun q => 0 <= q < np.int64_max));
        [exact IH | unfold np.int64_max; lia]).
  remember (nth (Z.to_nat i) l 0) as size. lia.
Qed.

Section NimSearch.
Variable initial_piles : list Z.
Hypothesis piles_ok : Forall (fun pile => 0 <= pile) initial_piles.
Variable self : MinimaxAgent.
Hypothesis pid_ok : player_id self = 1 \/ player_id self = -1.
Hypothesis no_cut : unbounded_depth self.

Lemma nim_minimax_value (fuel : nat) (s : NimGame.State) (depth : Z) :
  Forall (fun pile => 0 <= pile) (fst s) -> snd s = 1 \/ snd s = -1 ->
  (nim_measure s <= fuel)%nat ->
  minimax_value (NimGame.game initial_piles) self fuel s depth
                (snd s =? player_id self)
  = Some (Ok (Fin (if Bool.eqb (snd s =? player_id self)
                               (negb (fold_left Z.lxor (fst s) 0 =? 0))
                   then 1 else -1))).
Proof.
  intros Hi Hp Hm.
  apply (minimax_value_win (NimGame.game initial_piles) self
           (nim_wb initial_piles piles_ok)
           (fun s => negb (fold_left Z.lxor (fst s) 0 =? 0)) pid_ok no_cut);
    try assumption.
  - intros s0 a s' Hn. now apply nim_player_next in Hn.
  - intros [l q] _ Ht. cbn [is_terminal utility player NimGame.game fst] in *.
    unfold NimGame.is_terminal in Ht. split.
    + now rewrite (nim_terminal_sum l Ht).
    + intros p0. unfold NimGame.utility, NimGame.is_terminal, NimGame.player.
      now rewrite Ht.
  - intros [l q] Hl _ Hw. cbn [fst actions next NimGame.game] in *.
    apply negb_true_iff, Z.eqb_neq in Hw.
    destruct (nim_move_to_zero l q Hl Hw) as (a & l' & Ha & Hn & _ & Hz).
    exists a, (l', - q). split; [exact Ha|]. split; [exact Hn|].
    cbn [fst]. now rewrite Hz.
  - intros [l q] _ _ Hw a s' Ha Hn. cbn [fst actions next NimGame.game] in *.
    apply negb_false_iff, Z.eqb_eq in Hw.
    destruct (nim_move_from_zero l q a s' Hw Ha Hn) as [Hnz _].
    now apply negb_true_iff, Z.eqb_neq.
Qed.
End NimSearch.

(** X12. In Nim with pile sizes from [0] to [np.int64_max - 1] (where
    numpy computes on int64 without wrap-around), for an agent without a
    depth bound whose side flag tells whose turn it is, the full-window
    search at a reachable state returns
    [1] when the agent is to move and the nim-sum is not [0], or the
    opponent is to move and the nim-sum is [0]; otherwise it returns
    [-1].  So [get_nim_sum] decides the winner under the play that
    [_minimax] explores. *)
Theorem X12_nim_search_value_is_nim_sum :
  forall (initial_piles : list Z) (self : MinimaxAgent)
         (g : Session NimGame.State) (depth : Z) (fuel : nat) (nim_sum : Z),
    Forall (fun pile => 0 <= pile < np.int64_max) initial_piles ->
    player_id self = 1 \/ player_id self = -1 ->
    unbounded_depth self ->
    reachable (NimGame.game initial_piles) (state g) ->
    (nim_measure (state g) <= fuel)%nat ->
    NimGame.get_nim_sum (state g) = Ok nim_sum ->
    _minimax (NimGame.game initial_piles) self fuel g depth
             (NimGame.player (state g) =? player_id self) NegInf PosInf
    = Some (Ok (Fin (if Bool.eqb (NimGame.player (state g) =? player_id self)
                                 (negb (nim_sum =? 0))
                     then 1 else -1))).
Proof.
  intros piles self g depth fuel x Hrange Hpid Hu Hr Hm Hx.
  pose proof (piles_in_range_nonneg _ Hrange) as Hpos.
  apply (minimax_full_window _ self
           (eqb_refl_of_wb _ (nim_wb piles Hpos))).
  destruct (state g) as [l q] eqn:Es.
  destruct (nim_sum_ok l q x Hx) as [_ ->].
  apply (nim_minimax_value piles Hpos self Hpid Hu fuel (l, q) depth).
  - exact (reachable_inv _ (nim_wb piles Hpos) _ Hr).
  - exact (nim_two_players piles _ Hr).
  - exact Hm.
Qed.

Lemma X12_nim_search_value_is_nim_sum_witness :
  _minimax (NimGame.game [1; 2; 3]) {| player_id := 1; max_depth := None |}
           6 (new_game (NimGame.game [1; 2; 3])) 0 true NegInf PosInf
  = Some (Ok (Fin (-1))).
Proof.
  apply (X12_nim_search_value_is_nim_sum [1; 2; 3]
           {| player_id := 1; max_depth := None |}
           (new_game (NimGame.game [1; 2; 3])) 0 6%nat 0).
  - repeat constructor; unfold np.int64_max; lia.
  - now left.
  - now left.
  - apply reach_init.
  - vm_compute. lia.
  - reflexivity.
Defined.

Lemma action_values_In {State Action : Type} (G : Game State Action)
    (self : MinimaxAgent) (fuel : nat) (s : State) :
  forall acts avs,
    action_values G self fuel s acts = Some (Ok avs) ->
    (forall a, In a acts -> exists v, In (a, v) avs)
    /\ (forall a v, In (a, v) avs ->
          exists s', next G s a = Ok s'
                     /\ minimax_value G self fuel s' 0 false = Some (Ok v)).
Proof.
  induction acts as [|a rest IH]; intros avs H; simpl in H.
  - injection H as <-. split; [intros a [] | intros a v []].
  - destruct (next G s a) as [s'|e] eqn:Hn; [|discriminate].
    destruct (minimax_value G self fuel s' 0 false) as [[v|e]|] eqn:Hv;
      try discriminate.
    destruct (action_values G self fuel s rest) as [[l|e]|] eqn:Hl;
      try discriminate.
    injection H as <-. destruct (IH l eq_refl) as [IH1 IH2]. split.
    + intros b [<- | Hb]; [exists v; now left|].
      destruct (IH1 b Hb) as (w & Hw). exists w. now right.
    + intros b w [E | Hb]; [|now apply IH2].
      injection E as <- <-. now exists s'.
Qed.

(** X13. MinimaxAgent plays Nim by the nim-sum (pile sizes from [0] to
    [np.int64_max - 1], where numpy computes on int64 without
    wrap-around): at a reachable state
    where it is the agent's turn and the nim-sum is not [0], an agent
    without a depth bound chooses a legal action after which the nim-sum
    is [0]. *)
Theorem X13_nim_agent_moves_to_zero :
  forall (initial_piles : list Z) (self : MinimaxAgent)
         (g : Session NimGame.State) (fuel : nat) (nim_sum : Z),
    Forall (fun pile => 0 <= pile < np.int64_max) initial_piles ->
    player_id self = 1 \/ player_id self = -1 ->
    unbounded_depth self ->
    reachable (NimGame.game initial_piles) (state g) ->
    NimGame.player (state g) = player_id self ->
    (nim_measure (state g) <= fuel)%nat ->
    NimGame.get_nim_sum (state g) = Ok nim_sum ->
    nim_sum <> 0 ->
    exists action s',
      choose_action (NimGame.game initial_piles) self fuel g
      = Some (Ok (Some action))
      /\ In action (NimGame.actions (state g))
      /\ NimGame.next (state g) action = Ok s'
      /\ NimGame.get_nim_sum s' = Ok 0.
Proof.
  intros piles self g fuel x Hrange Hpid Hu Hr Hturn Hm Hx Hx0.
  pose proof (piles_in_range_nonneg _ Hrange) as Hpos.
  set (W := nim_wb piles Hpos).
  pose proof (reachable_inv _ W _ Hr) as Hi.
  pose proof (nim_two_players piles _ Hr) as Hp.
  destruct (state g) as [l q] eqn:Es.
  unfold two_players in Hp. cbn [player NimGame.game] in Hp.
  unfold NimGame.player in Hp, Hturn. cbn [snd] in Hp, Hturn.
  destruct (nim_sum_ok l q x Hx) as [Hne ->].
  destruct (nim_move_to_zero l q Hi Hx0) as (a1 & l1 & Ha1 & Hn1 & Hlen1 & Hz1).
  assert (Hacts : actions (NimGame.game piles) (state g) <> []).
  { rewrite Es. cbn [actions NimGame.game]. intros E. rewrite E in Ha1.
    destruct Ha1. }
  assert (Hi' : inv W (state g)) by (rewrite Es; exact Hi).
  destruct (choose_action_correct _ self W g Hi' Hacts)
    as (a & avs & Ha & _ & Hfm & Hall).
  assert (Hm' : (measure W (state g) <= fuel)%nat) by (rewrite Es; exact Hm).
  destruct (Hall fuel Hm') as (Hch & _ & Hav & _). clear Hall.
  rewrite Es in Ha, Hav. cbn [actions NimGame.game] in Ha, Hav.
  destruct (action_values_In _ self fuel (l, q) _ avs Hav) as [Hcov Hval].
  (* the value of a successor tells its nim-sum *)
  assert (Hchild : forall b v, In (b, v) avs ->
            exists s', NimGame.next (l, q) b = Ok s'
              /\ length (fst s') = length l
              /\ v = Fin (if fold_left Z.lxor (fst s') 0 =? 0 then 1 else -1)).
  { intros [i k] v Hb. destruct (Hval _ v Hb) as (s' & Hn & Hv).
    cbn [next NimGame.game] in Hn.
    assert (Hin : In (i, k) (NimGame.actions (l, q))).
    { apply nim_actions_In. cbn [fst]. revert Hn. unfold NimGame.next.
      destruct (Z.ltb_spec i 0); [discriminate|].
      destruct (Z.leb_spec (Z.of_nat (length l)) i); [discriminate|].
      simpl orb. cbv iota.
      destruct (Z.ltb_spec k 1); [discriminate|].
      destruct (Z.ltb_spec (nth (Z.to_nat i) l 0) k); [discriminate|].
      intros _. remember (nth (Z.to_nat i) l 0) as size. lia. }
    destruct (wb_step W (l, q) (i, k) Hi Hin) as (s'' & Hn' & Hi'' & Hlt).
    cbn [next NimGame.game] in Hn'. rewrite Hn in Hn'. injection Hn' as <-.
    pose proof (nim_player_next _ _ _ Hn) as Hq'.
    unfold NimGame.player in Hq'. cbn [snd] in Hq'.
    exists s'. split; [exact Hn|]. split.
    - apply nim_actions_In in Hin as [Hi0 Hk0]. cbn [fst] in *.
      rewrite (nim_next_legal l q i k Hi0 Hk0) in Hn. injection Hn as <-.
      apply length_list_set.
    - assert (Hside : (snd s' =? player_id self) = false)
        by (apply Z.eqb_neq; lia).
      change (nim_measure s' < nim_measure (l, q))%nat in Hlt.
      pose proof (nim_minimax_value piles Hpos self Hpid Hu fuel s' 0 Hi''
                    ltac:(lia) ltac:(lia)) as Hv'.
      rewrite Hside in Hv'. pose proof (eq_trans (eq_sym Hv) Hv') as E.
      injection E as ->. simpl Bool.eqb.
      now destruct (fold_left Z.lxor (fst s') 0 =? 0). }
  (* the move to nim-sum 0 has value 1 *)
  destruct (Hcov a1 Ha1) as (v1 & Hin1).
  destruct (Hchild a1 v1 Hin1) as (s1 & Hn1' & _ & Hv1).
  rewrite Hn1 in Hn1'. injection Hn1' as <-. cbn [fst] in Hv1.
  rewrite Hz1 in Hv1. simpl in Hv1. subst v1.
  (* so has the first action of largest value *)
  destruct Hfm as (p1 & v & p2 & Eavs & Hbefore & Hafter).
  assert (Hina : In (a, v) avs)
    by (rewrite Eavs; apply in_or_app; right; now left).
  destruct (Hchild a v Hina) as (s' & Hn & Hlen & Hv).
  assert (Hone : v = Fin 1).
  { rewrite Eavs in Hin1. apply in_app_or in Hin1 as [H1 | [H1 | H1]].
    - apply Hbefore in H1. cbn [snd] in H1. subst v.
      destruct (fold_left Z.lxor (fst s') 0 =? 0); discriminate.
    - now injection H1 as _ <-.
    - apply Hafter in H1. cbn [snd] in H1. subst v.
      destruct (fold_left Z.lxor (fst s') 0 =? 0); [reflexivity | discriminate]. }
  exists a, s'. split; [exact Hch|]. split; [exact Ha|]. split; [exact Hn|].
  rewrite Hone in Hv.
  destruct (Z.eqb_spec (fold_left Z.lxor (fst s') 0) 0) as [E|]; [|discriminate].
  assert (Hr' : reachable (NimGame.game piles) s')
    by exact (reach_step (NimGame.game piles) (l, q) a s' Hr Ha Hn).
  pose proof (nim_reachable_range piles s' Hrange Hr') as Hrange'.
  destruct s' as [l' q']. cbn [fst] in *.
  rewrite nim_sum_in_range; [now rewrite E | | exact Hrange'].
  intros ->. destruct l; [congruence | discriminate].
Qed.

Lemma X13_nim_agent_moves_to_zero_witness :
  exists action s',
    choose_action (NimGame.game [1; 2]) {| player_id := 1; max_depth := None |}
                  3 (new_game (NimGame.game [1; 2]))
    = Some (Ok (Some action))
    /\ In action (NimGame.actions ([1; 2], 1))
    /\ NimGame.next ([1; 2], 1) action = Ok s'
    /\ NimGame.get_nim_sum s' = Ok 0.
Proof.
  apply (X13_nim_agent_moves_to_zero [1; 2]
           {| player_id := 1; max_depth := None |}
           (new_game (NimGame.game [1; 2])) 3%nat 3).
  - repeat constructor; unfold np.int64_max; lia.
  - now left.
  - now left.
  - apply reach_init.
  - reflexivity.
  - vm_compute. lia.
  - reflexivity.
  - lia.
Defined.

(** ** main.py: auto-play *)

Section AutoPlayTheory.
Context {State Action : Type} (G : Game State Action).
Variable W : WellBehaved G.
Variable truth : Action -> bool.
Variable random_choice : nat -> Session State -> option Action.
Variable fuel : nat.
Variables a1 a2 : MinimaxAgent.
Hypothesis sides : forall s, reachable G s -> player G s = 1 \/ player G s = -1.

(** With minimax agents on both sides the loop stops at the end of the
    game, or where the agent to move chooses an action that Python takes
    for false. *)
Lemma wb_auto_play_stops (rounds : nat) :
  forall g,
    reachable G (state g) -> current_player g = player G (state g) ->
    (measure W (state g) <= fuel)%nat -> (measure W (state g) < rounds)%nat ->
    exists g',
      Main._auto_play_ai_moves G truth random_choice fuel
        {| Main.agent_1 := Main.Minimax a1; Main.agent_m1 := Main.Minimax a2 |}
        rounds g
      = Some (Main.Returned g')
      /\ reachable G (state g')
      /\ current_player g' = player G (state g')
      /\ (is_game_over G g' = true
          \/ exists agent a,
               (agent = a1 \/ agent = a2)
               /\ choose_action G agent fuel g' = Some (Ok (Some a))
               /\ In a (actions G (state g'))
               /\ truth a = false).
Proof.
  induction rounds as [|rounds IH]; intros g Hr Hc Hf Hlt; [lia|].
  cbn [Main._auto_play_ai_moves].
  destruct (is_game_over G g) eqn:Hover.
  { exists g. repeat split; auto. }
  pose proof (reachable_inv G W _ Hr) as Hi.
  assert (Hagent : exists agent,
            (agent = a1 \/ agent = a2)
            /\ Main.agents_getitem
                 {| Main.agent_1 := Main.Minimax a1; Main.agent_m1 := Main.Minimax a2 |}
                 (current_player g) = Some (Main.Minimax agent)).
  { rewrite Hc. destruct (sides _ Hr) as [-> | ->]; [exists a1 | exists a2]; auto. }
  destruct Hagent as (agent & Hag & ->).
  destruct (choose_action_correct G agent W g Hi (wb_live W _ Hi Hover))
    as (a & avs & Ha & _ & _ & Hall).
  destruct (Hall fuel Hf) as (Hch & _). rewrite Hch.
  destruct (truth a) eqn:Htruth.
  - destruct (wb_step W _ a Hi Ha) as (s' & Hn & Hi' & Hm).
    rewrite (move_legal G (eqb_refl_of_wb G W) g a s' Ha Hn).
    apply IH; cbn [state current_player]; try reflexivity; try lia.
    exact (reach_step G _ a s' Hr Ha Hn).
  - exists g. split; [reflexivity|]. split; [exact Hr|]. split; [exact Hc|].
    right. exists agent, a. auto.
Qed.
End AutoPlayTheory.

Lemma halving_actions_true s a :
  In a (HalvingGame.actions s) -> Main.truth_str a = true.
Proof.
  unfold HalvingGame.actions. destruct (HalvingGame.is_terminal s); [intros []|].
  intros [<- | [<- | []]]; reflexivity.
Qed.

Lemma ttt_two_players s :
  reachable TicTacToeGame.game s -> snd s = 1 \/ snd s = -1.
Proof.
  intros Hr. exact (proj1 (proj2 (proj2 (reachable_inv _ ttt_wb _ Hr)))).
Qed.

Lemma c4_two_players (n : nat) (Hn : (n = 4 \/ n = 5)%nat) s :
  reachable (ConnectFourGame.game (Z.of_nat n)) s -> snd s = 1 \/ snd s = -1.
Proof.
  intros Hr. exact (proj1 (proj2 (proj2 (reachable_inv _ (c4_wb n Hn) _ Hr)))).
Qed.

(** X14. In the Halving Game, Tic-Tac-Toe and Nim (with pile sizes from
    [0] to [np.int64_max - 1], the range in which [actions()] lists every
    legal action), [_auto_play_ai_moves]
    with a minimax agent on each side plays the game to its end: from
    every reachable state the call returns, and the game of the session
    it leaves is over. *)
Theorem X14_auto_play_finishes :
  (forall starting_number,
      0 <= starting_number ->
      auto_play_finishes (HalvingGame.game starting_number) Main.truth_str
                         halving_measure)
  /\ auto_play_finishes TicTacToeGame.game Main.truth_pair ttt_measure
  /\ (forall initial_piles,
         Forall (fun pile => 0 <= pile < np.int64_max) initial_piles ->
         auto_play_finishes (NimGame.game initial_piles) Main.truth_pair
                            nim_measure).
Proof.
  split; [|split].
  - intros n0 H a1 a2 rc g fuel rounds Hr Hc Hf Hlt.
    destruct (wb_auto_play_stops _ (halving_wb n0 H) Main.truth_str rc fuel a1 a2
                (halving_two_players n0) rounds g Hr Hc Hf Hlt)
      as (g' & He & Hr' & _ & [Hover | (ag & a & _ & _ & Ha & Ht)]).
    + now exists g'.
    + rewrite (halving_actions_true _ _ Ha) in Ht. discriminate.
  - intros a1 a2 rc g fuel rounds Hr Hc Hf Hlt.
    destruct (wb_auto_play_stops _ ttt_wb Main.truth_pair rc fuel a1 a2
                ttt_two_players rounds g Hr Hc Hf Hlt)
      as (g' & He & Hr' & _ & [Hover | (ag & a & _ & _ & _ & Ht)]).
    + now exists g'.
    + discriminate.
  - intros piles H a1 a2 rc g fuel rounds Hr Hc Hf Hlt.
    destruct (wb_auto_play_stops _ (nim_wb piles (piles_in_range_nonneg _ H))
                Main.truth_pair rc fuel a1 a2
                (nim_two_players piles) rounds g Hr Hc Hf Hlt)
      as (g' & He & Hr' & _ & [Hover | (ag & a & _ & _ & _ & Ht)]).
    + now exists g'.
    + discriminate.
Qed.

Lemma X14_auto_play_finishes_witness :
  0 <= 6
  /\ (exists g',
        Main._auto_play_ai_moves (HalvingGame.game 6) Main.truth_str
          (fun _ _ => None) 6
          {| Main.agent_1 := Main.Minimax (Build_MinimaxAgent 1 None);
             Main.agent_m1 := Main.Minimax (Build_MinimaxAgent (-1) None) |}
          7 (new_game (HalvingGame.game 6))
        = Some (Main.Returned g')
        /\ is_game_over (HalvingGame.game 6) g' = true
        /\ reachable (HalvingGame.game 6) (state g'))
  /\ Forall (fun pile => 0 <= pile < np.int64_max) [1; 2]
  /\ exists g',
      Main._auto_play_ai_moves (NimGame.game [1; 2]) Main.truth_pair
        (fun _ _ => None) 3
        {| Main.agent_1 := Main.Minimax (Build_MinimaxAgent 1 None);
           Main.agent_m1 := Main.Minimax (Build_MinimaxAgent (-1) None) |}
        4 (new_game (NimGame.game [1; 2]))
      = Some (Main.Returned g')
      /\ is_game_over (NimGame.game [1; 2]) g' = true
      /\ reachable (NimGame.game [1; 2]) (state g').
Proof.
  assert (Hp : Forall (fun pile => 0 <= pile < np.int64_max) [1; 2])
    by (repeat constructor; unfold np.int64_max; lia).
  split; [lia|]. split; [|split; [exact Hp|]].
  - apply (proj1 X14_auto_play_finishes 6 ltac:(lia)).
    + apply reach_init.
    + reflexivity.
    + vm_compute. lia.
    + vm_compute. lia.
  - apply (proj2 (proj2 X14_auto_play_finishes) [1; 2] Hp).
    + apply reach_init.
    + reflexivity.
    + vm_compute. lia.
    + vm_compute. lia.
Defined.

(** ** Connect Four: column 0 under auto-play *)

Lemma list_set_nth_same {A : Type} (l : list A) (i : nat) (d : A) :
  np.list_set l i (nth i l d) = l.
Proof.
  revert i. induction l as [|x t IH]; intros [|i]; simpl; auto.
  now rewrite IH.
Qed.

Lemma column_set_cell_other (b : list (list Z)) (r c c' : nat) (v : Z) :
  c <> c' -> np.column (np.set_cell b r c v) c' = np.column b c'.
Proof.
  intros Hc. unfold np.column, np.set_cell.
  rewrite (map_list_set (fun row => nth c' row 0)).
  rewrite nth_list_set_other by exact Hc.
  etransitivity; [|apply (list_set_nth_same _ r (nth c' [] 0))].
  f_equal. symmetry. apply (map_nth (fun row => nth c' row 0)).
Qed.

Lemma c4_next_keeps_column_0 (N : Z) (s : ConnectFourGame.State) (a : Z)
    (s' : ConnectFourGame.State) :
  ConnectFourGame.next N s a = Ok s' -> a <> 0 ->
  np.column (fst s') 0 = np.column (fst s) 0.
Proof.
  destruct s as [b p]. unfold ConnectFourGame.next. intros Hn Ha.
  destruct (Z.ltb_spec a 0); [discriminate|].
  destruct (N <=? a); [discriminate|]. simpl orb in Hn. cbv iota in Hn.
  destruct (np.getitem2 b 0 a) as [top|e]; [|discriminate].
  simpl bind in Hn. destruct (negb (top =? 0)); [discriminate|].
  injection Hn as <-. cbn [fst].
  destruct (rev (np.where_zero (np.column b (Z.to_nat a)))) as [|e t];
    [reflexivity|].
  apply column_set_cell_other. lia.
Qed.

(** X15. In Connect Four, [_auto_play_ai_moves] never drops a piece into
    column 0: whatever the agents, random or minimax, column 0 of the
    board is the same after the call as before, because the loop takes
    the action [0] for false. *)
Theorem X15_auto_play_never_plays_column_0 :
  forall (board_size : Z) random_choice fuel agents rounds
         (g g' : Session ConnectFourGame.State),
    Main._auto_play_ai_moves (ConnectFourGame.game board_size) Main.truth_int
      random_choice fuel agents rounds g
    = Some (Main.Returned g') ->
    np.column (fst (state g')) 0 = np.column (fst (state g)) 0.
Proof.
  intros N rc fuel agents rounds.
  induction rounds as [|rounds IH]; intros g g' H; [discriminate|].
  cbn [Main._auto_play_ai_moves] in H.
  destruct (is_game_over (ConnectFourGame.game N) g);
    [injection H as <-; reflexivity|].
  destruct (Main.agents_getitem agents (current_player g)) as [entry|];
    [|discriminate].
  assert (Hstep : forall chosen,
            match chosen with
            | None => None
            | Some (Raise e) => Some (Main.Raised e)
            | Some (Ok None) => Some (Main.Returned g)
            | Some (Ok (Some ai_action)) =>
                if Main.truth_int ai_action then
                  match move (ConnectFourGame.game N) g ai_action with
                  | (_, Raise e) => Some (Main.Raised e)
                  | (game', Ok _) =>
                      Main._auto_play_ai_moves (ConnectFourGame.game N)
                        Main.truth_int rc fuel agents rounds game'
                  end
                else Some (Main.Returned g)
            end = Some (Main.Returned g') ->
            np.column (fst (state g')) 0 = np.column (fst (state g)) 0).
  { intros [[[a|]|e]|] Hc; try discriminate.
    - destruct (Main.truth_int a) eqn:Ht; [|injection Hc as <-; reflexivity].
      destruct (move (ConnectFourGame.game N) g a) as [g1 [s1|e]] eqn:Hm;
        [|discriminate].
      apply move_ok_next in Hm as [Hn ->].
      rewrite (IH _ g' Hc). cbn [state].
      apply (c4_next_keeps_column_0 N (state g) a s1 Hn).
      unfold Main.truth_int in Ht. apply negb_true_iff, Z.eqb_neq in Ht. exact Ht.
    - injection Hc as <-. reflexivity. }
  destruct entry as [|pid|agent].
  - injection H as <-. reflexivity.
  - exact (Hstep (Some (Ok (rc rounds g))) H).
  - exact (Hstep (choose_action (ConnectFourGame.game N) agent fuel g) H).
Qed.

Lemma X15_auto_play_never_plays_column_0_witness :
  Main._auto_play_ai_moves (ConnectFourGame.game 4) Main.truth_int
    (fun _ _ => Some 2) 0
    {| Main.agent_1 := Main.Random 1; Main.agent_m1 := Main.NoAgent |}
    2 (new_game (ConnectFourGame.game 4))
  = Some (Main.Returned
            {| state := ([[0; 0; 0; 0]; [0; 0; 0; 0]; [0; 0; 0; 0]; [0; 0; 1; 0]], -1);
               current_player := -1 |})
  /\ np.column [[0; 0; 0; 0]; [0; 0; 0; 0]; [0; 0; 0; 0]; [0; 0; 1; 0]] 0
     = np.column (fst (state (new_game (ConnectFourGame.game 4)))) 0.
Proof.
  assert (H : Main._auto_play_ai_moves (ConnectFourGame.game 4) Main.truth_int
                (fun _ _ => Some 2) 0
                {| Main.agent_1 := Main.Random 1; Main.agent_m1 := Main.NoAgent |}
                2 (new_game (ConnectFourGame.game 4))
              = Some (Main.Returned
                        {| state := ([[0; 0; 0; 0]; [0; 0; 0; 0]; [0; 0; 0; 0];
                                      [0; 0; 1; 0]], -1);
                           current_player := -1 |}))
    by reflexivity.
  split; [exact H|].
  exact (X15_auto_play_never_plays_column_0 4 _ _ _ _ _ _ H).
Defined.

(** X16. In Connect Four with a minimax agent on each side,
    [_auto_play_ai_moves] returns either at the end of the game or at a
    state where the game is not over and the agent to move chooses
    column 0, which is open; that move is not made. *)
Theorem X16_connectfour_auto_play_stalls :
  forall (board_size : Z) (a1 a2 : MinimaxAgent) random_choice
         (g : Session ConnectFourGame.State) fuel rounds,
    board_size = 4 \/ board_size = 5 ->
    reachable (ConnectFourGame.game board_size) (state g) ->
    current_player g = ConnectFourGame.player (state g) ->
    (c4_measure (state g) <= fuel)%nat -> (c4_measure (state g) < rounds)%nat ->
    exists g',
      Main._auto_play_ai_moves (ConnectFourGame.game board_size) Main.truth_int
        random_choice fuel
        {| Main.agent_1 := Main.Minimax a1; Main.agent_m1 := Main.Minimax a2 |}
        rounds g
      = Some (Main.Returned g')
      /\ reachable (ConnectFourGame.game board_size) (state g')
      /\ (is_game_over (ConnectFourGame.game board_size) g' = true
          \/ (is_game_over (ConnectFourGame.game board_size) g' = false
              /\ In 0 (ConnectFourGame.actions board_size (state g'))
              /\ exists agent,
                   (agent = a1 \/ agent = a2)
                   /\ choose_action (ConnectFourGame.game board_size) agent fuel g'
                      = Some (Ok (Some 0)))).
Proof.
  intros N a1 a2 rc g fuel rounds HN Hr Hc Hf Hlt.
  destruct (c4_size_nat N HN) as (n & Hn & ->).
  destruct (wb_auto_play_stops _ (c4_wb n Hn) Main.truth_int rc fuel a1 a2
              (c4_two_players n Hn) rounds g Hr Hc Hf Hlt)
    as (g' & He & Hr' & _ & [Hover | (ag & a & Hag & Hch & Ha & Ht)]).
  - exists g'. auto.
  - exists g'. split; [exact He|]. split; [exact Hr'|]. right.
    unfold Main.truth_int in Ht. apply negb_false_iff, Z.eqb_eq in Ht. subst a.
    split; [|split; [exact Ha | now exists ag]].
    unfold is_game_over.
    destruct (is_terminal (ConnectFourGame.game (Z.of_nat n)) (state g')) eqn:Hterm;
      [|reflexivity].
    rewrite (wb_dead (c4_wb n Hn) _ Hterm) in Ha. destruct Ha.
Qed.

Lemma X16_connectfour_auto_play_stalls_witness :
  (4 = 4 \/ 4 = 5)
  /\ (exists g',
        Main._auto_play_ai_moves (ConnectFourGame.game 4) Main.truth_int
          (fun _ _ => None) 16
          {| Main.agent_1 := Main._create_agent "minimax"%string 1;
             Main.agent_m1 := Main._create_agent "minimax"%string (-1) |}
          17 (new_game (ConnectFourGame.game 4))
        = Some (Main.Returned g')
        /\ reachable (ConnectFourGame.game 4) (state g'))
  /\ Main._auto_play_ai_moves (ConnectFourGame.game 4) Main.truth_int
       (fun _ _ => None) 16
       {| Main.agent_1 := Main._create_agent "minimax"%string 1;
          Main.agent_m1 := Main._create_agent "minimax"%string (-1) |}
       17 (new_game (ConnectFourGame.game 4))
     = Some (Main.Returned (new_game (ConnectFourGame.game 4)))
  /\ is_game_over (ConnectFourGame.game 4) (new_game (ConnectFourGame.game 4))
     = false.
Proof.
  split; [now left|]. split; [|split; [vm_compute; reflexivity | reflexivity]].
  destruct (X16_connectfour_auto_play_stalls 4
              {| player_id := 1; max_depth := None |}
              {| player_id := -1; max_depth := None |}
              (fun _ _ => None) (new_game (ConnectFourGame.game 4)) 16 17
              ltac:(now left) (reach_init _) eq_refl
              ltac:(vm_compute; lia) ltac:(vm_compute; lia))
    as (g' & He & Hr & _).
  exists g'. split; [exact He | exact Hr].
Defined.

(** ** human_agent.py: the choice of the human player *)

Lemma choose_generic_first {A : Type} (actions : list A) (inputs : list (option Z))
    (a : A) :
  HumanAgent._choose_generic_action actions inputs = Some a ->
  exists skipped n rest,
    inputs = skipped ++ Some n :: rest
    /\ (forall m, In (Some m) skipped -> ~ 1 <= m <= Z.of_nat (length actions))
    /\ 1 <= n <= Z.of_nat (length actions)
    /\ nth_error actions (Z.to_nat (n - 1)) = Some a.
Proof.
  induction inputs as [|[n|] rest IH]; simpl; intros H.
  - discriminate.
  - destruct ((0 <=? n - 1) && (n - 1 <? Z.of_nat (length actions))) eqn:Hc.
    + apply andb_true_iff in Hc as [H1 H2].
      apply Z.leb_le in H1. apply Z.ltb_lt in H2.
      exists [], n, rest. split; [reflexivity|]. split; [intros m []|].
      split; [lia | exact H].
    + destruct (IH H) as (sk & n' & rest' & -> & Hsk & Hn & Hnth).
      exists (Some n :: sk), n', rest'. split; [reflexivity|].
      split; [|split; [exact Hn | exact Hnth]].
      intros m [E | Hm]; [|now apply Hsk]. injection E as <-.
      apply andb_false_iff in Hc as [Hc | Hc];
        [apply Z.leb_gt in Hc | apply Z.ltb_ge in Hc]; lia.
  - destruct (IH H) as (sk & n' & rest' & -> & Hsk & Hn & Hnth).
    exists (None :: sk), n', rest'. split; [reflexivity|].
    split; [|split; [exact Hn | exact Hnth]].
    intros m [E | Hm]; [discriminate | now apply Hsk].
Qed.

Lemma wb_human_choice_legal {State Action : Type} (G : Game State Action)
    (W : WellBehaved G) :
  human_choice_legal G.
Proof.
  intros cls g inputs a Hr H. unfold HumanAgent.choose_action in H.
  destruct (actions G (state g)) as [|a0 l] eqn:Ea; [discriminate|].
  assert (Hloop : HumanAgent._choose_generic_action (a0 :: l) inputs = Some a).
  { destruct cls;
      unfold HumanAgent._choose_halving_action,
             HumanAgent._choose_tictactoe_action in H;
      destruct (HumanAgent._choose_generic_action (a0 :: l) inputs);
      simpl in H; congruence. }
  destruct (choose_generic_first _ _ _ Hloop) as (sk & n & rest & E & Hsk & Hn & Hnth).
  split; [now exists sk, n, rest|].
  assert (Hin : In a (actions G (state g)))
    by (rewrite Ea; exact (nth_error_In _ _ Hnth)).
  destruct (wb_step W _ a (reachable_inv G W _ Hr) Hin) as (s' & Hs' & _).
  exists s'. exact (move_legal G (eqb_refl_of_wb G W) g a s' Hin Hs').
Qed.

(** X17. In the four variants, at every reachable state, whatever is
    typed: when [HumanAgent.choose_action] returns an action, it is the
    action whose 1-based number is the first input that lies between 1
    and the number of legal actions (inputs that are no number or out of
    range are skipped), and [move] accepts it. *)
Theorem X17_human_choice_is_legal :
  (forall starting_number,
      0 <= starting_number ->
      human_choice_legal (HalvingGame.game starting_number))
  /\ human_choice_legal TicTacToeGame.game
  /\ (forall initial_piles,
         Forall (fun pile => 0 <= pile) initial_piles ->
         human_choice_legal (NimGame.game initial_piles))
  /\ (forall board_size,
         board_size = 4 \/ board_size = 5 ->
         human_choice_legal (ConnectFourGame.game board_size)).
Proof.
  split; [|split; [|split]].
  - intros n0 H. exact (wb_human_choice_legal _ (halving_wb n0 H)).
  - exact (wb_human_choice_legal _ ttt_wb).
  - intros piles H. exact (wb_human_choice_legal _ (nim_wb piles H)).
  - intros N HN. destruct (c4_size_nat N HN) as (n & Hn & ->).
    exact (wb_human_choice_legal _ (c4_wb n Hn)).
Qed.

Lemma X17_human_choice_is_legal_witness :
  0 <= 15
  /\ HumanAgent.choose_action (HalvingGame.game 15) HumanAgent.HalvingGameClass
       (new_game (HalvingGame.game 15)) [None; Some 0; Some 3; Some 2; Some 1]
     = Some (Some "halve"%string)
  /\ exists s',
      move (HalvingGame.game 15) (new_game (HalvingGame.game 15)) "halve"%string
      = ({| state := s';
            current_player := player (HalvingGame.game 15) s' |}, Ok s').
Proof.
  split; [lia|]. split; [reflexivity|].
  exact (proj2 (proj1 X17_human_choice_is_legal 15 ltac:(lia)
                  HumanAgent.HalvingGameClass (new_game (HalvingGame.game 15))
                  [None; Some 0; Some 3; Some 2; Some 1] "halve"%string
                  (reach_init _) eq_refl)).
Defined.

(** ** main.py: the Nim game of a new session *)

Lemma parse_ints_In (tokens : list (option Z)) (l : list Z) :
  Main.parse_ints tokens = Some l -> forall x, In x l -> In (Some x) tokens.
Proof.
  revert l. induction tokens as [|[n|] rest IH]; simpl; intros l H.
  - injection H as <-. intros x [].
  - destruct (Main.parse_ints rest) as [l'|]; [|discriminate].
    injection H as <-. intros x [<- | Hx]; [now left | right; now apply IH with l'].
  - discriminate.
Qed.

Lemma new_nim_piles_positive (tokens : list (option Z)) :
  (forall n, In (Some n) tokens -> n < np.int64_max) ->
  Main.nim_initial_piles (Main.new_nim_piles tokens) <> []
  /\ Forall (fun pile => 0 < pile < np.int64_max)
            (Main.nim_initial_piles (Main.new_nim_piles tokens)).
Proof.
  intros Hsmall.
  assert (Hdefault : Forall (fun pile => 0 < pile < np.int64_max) [1; 3; 5; 7])
    by (repeat constructor; unfold np.int64_max; lia).
  unfold Main.new_nim_piles.
  destruct (Main.parse_ints tokens) as [l|] eqn:Hparse; simpl;
    [|split; [discriminate | exact Hdefault]].
  assert (Hf : Forall (fun pile => 0 < pile < np.int64_max)
                      (filter (fun p => 0 <? p) l)).
  { apply Forall_forall. intros x Hx. apply filter_In in Hx as [Hin Hx].
    apply Z.ltb_lt in Hx. split; [exact Hx|].
    apply Hsmall. exact (parse_ints_In tokens l Hparse x Hin). }
  destruct (filter (fun p => 0 <? p) l) as [|x t]; simpl.
  - split; [discriminate | exact Hdefault].
  - split; [discriminate | exact Hf].
Qed.

Lemma nim_reachable_length (initial_piles : list Z) (s : NimGame.State) :
  reachable (NimGame.game initial_piles) s ->
  length (fst s) = length initial_piles.
Proof.
  induction 1 as [|[l p] [i k] s' _ IH Hin Hn]; [reflexivity|].
  cbn [actions next NimGame.game fst] in *.
  apply nim_actions_In in Hin as [Hi Hk]. cbn [fst] in *.
  rewrite (nim_next_legal l p i k Hi Hk) in Hn. injection Hn as <-.
  cbn [fst]. now rewrite length_list_set.
Qed.

(** X18. When every number in the form field is below [np.int64_max], the
    Nim game that [new_nim_game] creates starts with at least one pile,
    every pile from [1] to [np.int64_max - 1], and is not over; at every
    reachable state the piles stay from [0] to [np.int64_max - 1], and
    [get_nim_sum] and [get_optimal_move], which [get_state_display]
    calls, return without raising. *)
Theorem X18_new_nim_game_is_sound :
  forall (tokens : list (option Z)),
    (forall n, In (Some n) tokens -> n < np.int64_max) ->
    let G := Main.new_nim_game tokens in
    fst (initial_state G) <> []
    /\ Forall (fun pile => 0 < pile < np.int64_max) (fst (initial_state G))
    /\ is_terminal G (initial_state G) = false
    /\ forall s,
        reachable G s ->
        Forall (fun pile => 0 <= pile < np.int64_max) (fst s)
        /\ NimGame.get_nim_sum s = Ok (fold_left Z.lxor (fst s) 0)
        /\ exists optimal_move, NimGame.get_optimal_move s = Ok optimal_move.
Proof.
  intros tokens Hsmall G.
  destruct (new_nim_piles_positive tokens Hsmall) as [Hne Hpos].
  set (piles := Main.nim_initial_piles (Main.new_nim_piles tokens)) in *.
  assert (Hrange : Forall (fun pile => 0 <= pile < np.int64_max) piles)
    by (eapply Forall_impl; [|exact Hpos]; simpl; intros; lia).
  split; [exact Hne|]. split; [exact Hpos|]. split.
  - subst G. unfold Main.new_nim_game. fold piles.
    cbn [is_terminal initial_state NimGame.game].
    unfold NimGame.initial_state, NimGame.is_terminal.
    destruct piles as [|x t]; [congruence|]. simpl.
    inversion Hpos; subst. destruct (Z.eqb_spec x 0); [lia | reflexivity].
  - intros s Hr. subst G. unfold Main.new_nim_game in Hr. fold piles in Hr.
    pose proof (nim_reachable_range piles s Hrange Hr) as Hi.
    pose proof (nim_reachable_length piles s Hr) as Hlen.
    destruct s as [l p]. cbn [fst] in *.
    assert (Hl : l <> [])
      by (intros ->; destruct piles; [congruence | discriminate]).
    pose proof (nim_sum_in_range l p Hl Hi) as Hsum.
    split; [exact Hi|]. split; [exact Hsum|].
    unfold NimGame.get_optimal_move. rewrite Hsum. simpl bind.
    destruct (fold_left Z.lxor l 0 =? 0); [eexists; reflexivity|].
    destruct (existsb _ _); eexists; reflexivity.
Qed.

Lemma X18_new_nim_game_is_sound_witness :
  (forall n, In (Some n) [Some 3; Some 0; Some (-2); Some 4] -> n < np.int64_max)
  /\ initial_state (Main.new_nim_game [Some 3; Some 0; Some (-2); Some 4]) = ([3; 4], 1)
  /\ reachable (Main.new_nim_game [Some 3; Some 0; Some (-2); Some 4]) ([3; 4], 1)
  /\ NimGame.get_nim_sum ([3; 4], 1) = Ok 7
  /\ exists optimal_move, NimGame.get_optimal_move ([3; 4], 1) = Ok optimal_move.
Proof.
  assert (Hs : forall n, In (Some n) [Some 3; Some 0; Some (-2); Some 4] ->
                         n < np.int64_max).
  { intros n Hn. unfold np.int64_max. simpl in Hn.
    repeat (destruct Hn as [Hn | Hn]; [injection Hn as <-; lia|]).
    destruct Hn. }
  assert (Hr : reachable (Main.new_nim_game [Some 3; Some 0; Some (-2); Some 4])
                         ([3; 4], 1))
    by apply reach_init.
  split; [exact Hs|]. split; [reflexivity|]. split; [exact Hr|].
  exact (proj2 (proj2 (proj2 (proj2
           (X18_new_nim_game_is_sound [Some 3; Some 0; Some (-2); Some 4] Hs)))
           ([3; 4], 1) Hr)).
Defined.

(** ** The depth bound of the search *)

Section DepthBound.
Context {State Action : Type} (G : Game State Action) (self : MinimaxAgent).

Lemma max_loop_returns (rec : Session State -> value -> value -> option (result value))
    (game : Session State) :
  (forall g a b, exists r, rec g a b = Some r) ->
  forall acts max_eval alpha beta,
    exists r, max_loop G rec game acts max_eval alpha beta = Some r.
Proof.
  intros Hrec acts. induction acts as [|a rest IH]; intros m alpha beta; simpl.
  - eexists; reflexivity.
  - destruct (move G (copy game) a) as [g' [s'|e]]; [|eexists; reflexivity].
    destruct (Hrec g' alpha beta) as ([v|e] & ->); [|eexists; reflexivity].
    destruct (vle beta (vmax alpha v)); [eexists; reflexivity | apply IH].
Qed.

Lemma min_loop_returns (rec : Session State -> value -> value -> option (result value))
    (game : Session State) :
  (forall g a b, exists r, rec g a b = Some r) ->
  forall acts min_eval alpha beta,
    exists r, min_loop G rec game acts min_eval alpha beta = Some r.
Proof.
  intros Hrec acts. induction acts as [|a rest IH]; intros m alpha beta; simpl.
  - eexists; reflexivity.
  - destruct (move G (copy game) a) as [g' [s'|e]]; [|eexists; reflexivity].
    destruct (Hrec g' alpha beta) as ([v|e] & ->); [|eexists; reflexivity].
    destruct (vle (vmin beta v) alpha); [eexists; reflexivity | apply IH].
Qed.

Lemma minimax_depth_bounded (d : Z) :
  max_depth self = Some d -> 0 < d ->
  forall fuel g depth mx alpha beta,
    (Z.to_nat (d - depth) <= fuel)%nat ->
    exists r, _minimax G self fuel g depth mx alpha beta = Some r.
Proof.
  intros Hd Hpos. induction fuel as [|fuel IH]; intros g depth mx alpha beta Hf;
    simpl; destruct (is_game_over G g); simpl;
    try (eexists; reflexivity);
    unfold depth_cutoff; rewrite Hd;
    (destruct (Z.eqb_spec d 0); [lia|]);
    (destruct (Z.leb_spec d depth); [eexists; reflexivity|]).
  - lia.
  - assert (Hrec : forall mx' g' a b,
              exists r, _minimax G self fuel g' (depth + 1) mx' a b = Some r)
      by (intros; apply IH; lia).
    destruct mx; [apply max_loop_returns | apply min_loop_returns];
      intros; apply Hrec.
Qed.
End DepthBound.

(** X19. A positive [max_depth] bounds the recursion of [_minimax]: for
    every game, state and window, the search started at ply [depth] needs
    no more than [max_depth - depth] nested calls to return (a value or
    an exception), however long the game may be. *)
Theorem X19_max_depth_bounds_search :
  forall {State Action : Type} (G : Game State Action) (self : MinimaxAgent)
         (d : Z) (g : Session State) (depth : Z) (mx : bool) (alpha beta : value)
         (fuel : nat),
    max_depth self = Some d -> 0 < d ->
    (Z.to_nat (d - depth) <= fuel)%nat ->
    exists r, _minimax G self fuel g depth mx alpha beta = Some r.
Proof.
  intros State Action G self d g depth mx alpha beta fuel Hd Hpos Hf.
  exact (minimax_depth_bounded G self d Hd Hpos fuel g depth mx alpha beta Hf).
Qed.

Lemma X19_max_depth_bounds_search_witness :
  exists r,
    _minimax (NimGame.game [1; 3; 5; 7]) {| player_id := 1; max_depth := Some 2 |}
             2 (new_game (NimGame.game [1; 3; 5; 7])) 0 true NegInf PosInf
    = Some r.
Proof.
  apply (X19_max_depth_bounds_search (NimGame.game [1; 3; 5; 7])
           {| player_id := 1; max_depth := Some 2 |} 2).
  - reflexivity.
  - lia.
  - vm_compute. lia.
Defined.
